(** * The reaction graph engine of combinatory-chemistry

    A shallow embedding of [reaction_graph.py] (class [ReactionGraph], built on
    a networkx [DiGraph]) and of [pool_feeder.py] (class [PoolFeeder]),
    followed by the properties of the RAF solver, the food closure, the
    cycle-level estimator, the structural mutators and the pool feeder.

    Python sets and dicts are stdpp [gset]s and [gmap]s; exceptions are an
    explicit result type; in-place mutation of [self.graph] is a state
    transformer over a graph store. *)

From stdpp Require Import base gmap sets list strings numbers.

(** ** Python values and exceptions *)

(** The exceptions the modelled code can raise. *)
Inductive exn :=
  | KeyError | TypeError | AttributeError | ValueError
  | NetworkXError | ZeroDivisionError.

(** Outcome of a call: a value, a raised exception, or a loop that did not
    finish within the fuel the model gives it (shown below never to happen). *)
Inductive res (A : Type) :=
  | Ok (a : A)
  | Raise (e : exn)
  | OutOfFuel.
Arguments Ok {A} a.
Arguments Raise {A} e.
Arguments OutOfFuel {A}.

#[global] Instance exn_eq_dec : EqDecision exn.
Proof. solve_decision. Defined.

#[global] Instance res_eq_dec `{EqDecision A} : EqDecision (res A).
Proof. solve_decision. Defined.

#[global] Instance res_ret : MRet res := λ A a, Ok a.
#[global] Instance res_bind : MBind res := λ A B f m,
  match m with
  | Ok a => f a
  | Raise e => Raise e
  | OutOfFuel => OutOfFuel
  end.
#[global] Instance res_fmap : FMap res := λ A B f m,
  match m with
  | Ok a => Ok (f a)
  | Raise e => Raise e
  | OutOfFuel => OutOfFuel
  end.

(** Attribute values stored in the node and edge dictionaries. *)
Inductive Val :=
  | VNone
  | VStr (s : string)
  | VInt (z : Z)
  | VBool (b : bool).

#[global] Instance Val_eq_dec : EqDecision Val.
Proof. solve_decision. Defined.

(** An attribute dictionary ([dict] with string keys). *)
Abbreviation Attrs := (gmap string Val).

(** Python's [==] on attribute values ([True == 1] and [False == 0]). *)
Definition py_eq (a b : Val) : bool :=
  match a, b with
  | VNone, VNone => true
  | VStr s, VStr t => bool_decide (s = t)
  | VInt x, VInt y => bool_decide (x = y)
  | VBool x, VBool y => bool_decide (x = y)
  | VBool x, VInt y | VInt y, VBool x => bool_decide (Z.b2z x = y)
  | _, _ => false
  end.

(** The integer a value stands for in arithmetic ([bool] is an [int]). *)
Definition py_int (a : Val) : res Z :=
  match a with
  | VInt z => Ok z
  | VBool b => Ok (Z.b2z b)
  | _ => Raise TypeError
  end.

(** [a + b] on integers; anything else raises [TypeError]. *)
Definition py_add (a b : Val) : res Val :=
  x ← py_int a; y ← py_int b; Ok (VInt (x + y)).

(** [a >= b] on integers. *)
Definition py_ge (a b : Val) : res bool :=
  x ← py_int a; y ← py_int b; Ok (bool_decide (y ≤ x)%Z).

(** Truthiness, as used by [not d['substrate']]. *)
Definition py_truthy (a : Val) : bool :=
  match a with
  | VNone => false
  | VStr s => negb (bool_decide (s = ""%string))
  | VInt z => negb (bool_decide (z = 0%Z))
  | VBool b => b
  end.

(** [d[k]] on an attribute dictionary. *)
Definition attr (d : Attrs) (k : string) : res Val :=
  match d !! k with
  | Some v => Ok v
  | None => Raise KeyError
  end.

(** ** The Expression and Reaction models

    Both are external to the graph engine: immutable values with value
    equality and hashing, used as graph keys. *)

(** Modelled from the spec: the Expression model is not part of the sources;
    it exposes [atoms()] and a length. *)
Class ExpressionModel (Expr : Type) `{Countable Expr} := {
  atoms : Expr → list Expr;
  len : Expr → nat;
}.

(** Modelled from the spec: the Reaction model is not part of the sources; it
    exposes a [type] tag, the ordered [reactives] and [products], and
    [get_substrate()], a designated reactive when there is one. *)
Class ReactionModel (Expr Reaction : Type)
    `{Countable Expr} `{Countable Reaction} := {
  rtype : Reaction → string;
  reactives : Reaction → list Expr;
  products : Reaction → list Expr;
  get_substrate : Reaction → option Expr;
}.

(** ** Methods that mutate their receiver *)

(** A method that mutates a store in place and returns or raises: the store
    as the call leaves it, and the outcome. *)
Definition M (St A : Type) : Type := St → St * res A.

Definition m_ret {St A} (a : A) : M St A := λ s, (s, Ok a).

Definition m_bind {St A B} (m : M St A) (k : A → M St B) : M St B := λ s,
  match m s with
  | (s', Ok a) => k a s'
  | (s', Raise e) => (s', Raise e)
  | (s', OutOfFuel) => (s', OutOfFuel)
  end.

Definition m_raise {St A} (e : exn) : M St A := λ s, (s, Raise e).

Definition m_write {St} (f : St → St) : M St unit := λ s, (f s, Ok tt).

(** A computation that does not touch the store. *)
Definition m_lift {St A} (r : res A) : M St A := λ s, (s, r).

#[global] Instance M_ret {St} : MRet (M St) := λ A, m_ret.
#[global] Instance M_bind {St} : MBind (M St) := λ A B k m, m_bind m k.

(** [for x in l: body(x)] *)
Fixpoint for_each {St A} (l : list A) (body : A → M St unit) : M St unit :=
  match l with
  | [] => m_ret tt
  | x :: l' => body x ;; for_each l' body
  end.

(** A comprehension [[x for x in l if cond(x)]] whose condition may raise. *)
Fixpoint filter_res {A} (cond : A → res bool) (l : list A) : res (list A) :=
  match l with
  | [] => Ok []
  | x :: l' =>
      b ← cond x;
      rest ← filter_res cond l';
      Ok (if b : bool then x :: rest else rest)
  end.

(** [[f(x) for x in l]] where [f] may raise. *)
Fixpoint map_res {A B} (f : A → res B) (l : list A) : res (list B) :=
  match l with
  | [] => Ok []
  | x :: l' => y ← f x; rest ← map_res f l'; Ok (y :: rest)
  end.

(** ** The directed graph *)

(** Graph keys: an Expression or a Reaction, never equal to each other. *)
Abbreviation Node Expr Reaction := (Expr + Reaction)%type.

Section graph.
Context `{ReactionModel Expr Reaction}.

Local Abbreviation Node := (Node Expr Reaction).

(** A [DiGraph]: the node dictionary and the edge dictionary, each key with
    its attribute dictionary. *)
Record DiGraph := mkDiGraph {
  nodes : gmap Node Attrs;
  edges : gmap (Node * Node) Attrs;
}.

(** [nx.DiGraph()] *)
Definition empty_graph : DiGraph := mkDiGraph ∅ ∅.

(** [G.add_node(n, **attrs)]: a new node gets [attrs]; an existing one has
    its dictionary updated with them. *)
Definition add_node (n : Node) (attrs : Attrs) (g : DiGraph) : DiGraph :=
  mkDiGraph (<[n := attrs ∪ default ∅ (nodes g !! n)]> (nodes g)) (edges g).

(** A node that an edge brings in gets an empty dictionary. *)
Definition ensure_node (n : Node) (ns : gmap Node Attrs) : gmap Node Attrs :=
  match ns !! n with
  | Some _ => ns
  | None => <[n := ∅]> ns
  end.

(** [G.add_edge(u, v, **attrs)]: edges are keyed by their endpoints. *)
Definition add_edge (u v : Node) (attrs : Attrs) (g : DiGraph) : DiGraph :=
  mkDiGraph (ensure_node v (ensure_node u (nodes g)))
            (<[(u, v) := attrs ∪ default ∅ (edges g !! (u, v))]> (edges g)).

(** [G.remove_node(n)], for [n] in the graph: the node goes with every edge
    into or out of it. *)
Definition remove_node (n : Node) (g : DiGraph) : DiGraph :=
  mkDiGraph (delete n (nodes g))
            (filter (λ e, e.1.1 ≠ n ∧ e.1.2 ≠ n) (edges g)).

(** [G.remove_edge(u, v)], for an edge of the graph. *)
Definition remove_edge (u v : Node) (g : DiGraph) : DiGraph :=
  mkDiGraph (nodes g) (delete (u, v) (edges g)).

(** [G.subgraph(nodes)]: the nodes of the graph among [ns] and the edges
    between them, attributes kept. *)
Definition subgraph (ns : gset Node) (g : DiGraph) : DiGraph :=
  mkDiGraph (filter (λ p, p.1 ∈ ns) (nodes g))
            (filter (λ e, e.1.1 ∈ ns ∧ e.1.2 ∈ ns) (edges g)).

(** [G.edge_subgraph(edges)]: the edges of the graph among [es] and their
    endpoints. *)
Definition edge_subgraph (es : gset (Node * Node)) (g : DiGraph) : DiGraph :=
  let kept := filter (λ e, e.1 ∈ es) (edges g) in
  let ends : gset Node := set_map fst (dom kept) ∪ set_map snd (dom kept) in
  mkDiGraph (filter (λ p, p.1 ∈ ends) (nodes g)) kept.

(** [G.successors(n)] *)
Definition successors (g : DiGraph) (n : Node) : gset Node :=
  set_map snd (filter (λ e : Node * Node, e.1 = n) (dom (edges g))).

(** [G.predecessors(n)] *)
Definition predecessors (g : DiGraph) (n : Node) : gset Node :=
  set_map fst (filter (λ e : Node * Node, e.2 = n) (dom (edges g))).

(** *** Stores holding a graph that is mutated in place

    [self.graph] is read through a snapshot of its dictionaries and written
    through the four mutating calls of the [DiGraph] interface. *)
Class GraphStore (St : Type) := {
  snapshot : St → DiGraph;
  st_add_node : Node → Attrs → St → St;
  st_add_edge : Node → Node → Attrs → St → St;
  st_remove_node : Node → St → St;
  st_remove_edge : Node → Node → St → St;
}.

(** A graph held by value. *)
#[global] Instance DiGraph_store : GraphStore DiGraph := {|
  snapshot g := g;
  st_add_node := add_node;
  st_add_edge := add_edge;
  st_remove_node := remove_node;
  st_remove_edge := remove_edge;
|}.

Section methods.
Context `{GraphStore St}.

(** A read-only query of the current graph. *)
Definition m_read {A} (q : DiGraph → res A) : M St A :=
  λ s, (s, q (snapshot s)).

Definition m_add_node (n : Node) (attrs : Attrs) : M St unit :=
  m_write (st_add_node n attrs).

Definition m_add_edge (u v : Node) (attrs : Attrs) : M St unit :=
  m_write (st_add_edge u v attrs).

(** [remove_node] raises on a node that is not in the graph. *)
Definition m_remove_node (n : Node) : M St unit :=
  present ← m_read (λ g, Ok (bool_decide (n ∈ dom (nodes g))));
  if present : bool then m_write (st_remove_node n) else m_raise NetworkXError.

(** [remove_edge] raises on an edge that is not in the graph. *)
Definition m_remove_edge (u v : Node) : M St unit :=
  present ← m_read (λ g, Ok (bool_decide ((u, v) ∈ dom (edges g))));
  if present : bool then m_write (st_remove_edge u v) else m_raise NetworkXError.

(** [remove_nodes_from] skips the nodes that are not in the graph. *)
Definition m_remove_nodes_from (ns : list Node) : M St unit :=
  for_each ns (λ n,
    present ← m_read (λ g, Ok (bool_decide (n ∈ dom (nodes g))));
    if present : bool then m_write (st_remove_node n) else m_ret tt).

End methods.
End graph.

Arguments DiGraph Expr Reaction {_ _ _ _}.
Arguments GraphStore Expr Reaction {_ _ _ _} St.

(** ** ReactionGraph: queries *)

Section queries.
Context `{ReactionModel Expr Reaction} `{!ExpressionModel Expr}.

Local Abbreviation Node := (Node Expr Reaction).
Local Abbreviation DiGraph := (DiGraph Expr Reaction).

(** [get_node_attribute]: [self.graph.nodes(attribute)[node]] is the
    node-data view indexed by [node]. The view raises [KeyError] for a node
    that is not in the graph and yields its own default, [None], for a node
    that lacks the attribute. No default supplied is [dflt = VNone]. *)
Definition get_node_attribute (g : DiGraph) (node : Node) (attribute : string)
    (dflt : Val) : res Val :=
  match nodes g !! node with
  | Some ddict => Ok (default VNone (ddict !! attribute))
  | None => if decide (dflt = VNone) then Raise KeyError else Ok dflt
  end.

Definition get_occurrences (g : DiGraph) (reaction : Node) : res Val :=
  get_node_attribute g reaction "occurrences" (VInt 0).

(** [__len__] *)
Definition graph_len (g : DiGraph) : nat := size (nodes g).

(** [get_nodes(cond)], in the order the node dictionary is traversed. *)
Definition get_nodes (cond : Node → Attrs → res bool) (g : DiGraph)
    : res (list Node) :=
  (λ l, l.*1) <$> filter_res (λ p, cond p.1 p.2) (map_to_list (nodes g)).

(** [len(n)] of a graph key: Expressions have a length. *)
Definition node_len (n : Node) : res Z :=
  match n with
  | inl e => Ok (Z.of_nat (len e))
  | inr _ => Raise TypeError
  end.

(** [n.reactives] and [n.products] of a graph key: Reactions have them. *)
Definition as_reaction (n : Node) : res Reaction :=
  match n with
  | inr r => Ok r
  | inl _ => Raise AttributeError
  end.

(** [d['node_type'] == 'expression' or d['occurrences'] >= min_occurrences] *)
Definition minimally_reoccurring_cond (min_occurrences : Val)
    (n : Node) (d : Attrs) : res bool :=
  nt ← attr d "node_type";
  if py_eq nt (VStr "expression") then Ok true
  else occ ← attr d "occurrences"; py_ge occ min_occurrences.

(** [d['node_type'] == 'expression' or d['reaction_type'] == 'reduce'] *)
Definition reduction_cond (n : Node) (d : Attrs) : res bool :=
  nt ← attr d "node_type";
  if py_eq nt (VStr "expression") then Ok true
  else rt ← attr d "reaction_type"; Ok (py_eq rt (VStr "reduce")).

(** [d['node_type'] != 'expression' or len(n) >= min_length] *)
Definition longer_formulae_cond (min_length : Z)
    (n : Node) (d : Attrs) : res bool :=
  nt ← attr d "node_type";
  if negb (py_eq nt (VStr "expression")) then Ok true
  else l ← node_len n; Ok (bool_decide (min_length ≤ l)%Z).

(** [d['node_type'] == 'expression'] *)
Definition expression_cond (n : Node) (d : Attrs) : res bool :=
  nt ← attr d "node_type"; Ok (py_eq nt (VStr "expression")).

(** [d['node_type'] == 'reaction' and d['reaction_type'] == 'reduce'] *)
Definition reducing_cond (n : Node) (d : Attrs) : res bool :=
  nt ← attr d "node_type";
  if py_eq nt (VStr "reaction")
  then rt ← attr d "reaction_type"; Ok (py_eq rt (VStr "reduce"))
  else Ok false.

(** [d['node_type'] == 'reaction' and n.reactives == n.products]: the two
    ordered sequences are compared with [==]. *)
Definition selfloop_cond (n : Node) (d : Attrs) : res bool :=
  nt ← attr d "node_type";
  if py_eq nt (VStr "reaction")
  then r ← as_reaction n; Ok (bool_decide (reactives r = products r))
  else Ok false.

(** [get_subgraph(nodes)]: the dictionaries the new [ReactionGraph] is built
    from. *)
Definition get_subgraph (g : DiGraph) (ns : list Node) : DiGraph :=
  subgraph (list_to_set ns) g.

(** [get_edges_subgraph(edges)] *)
Definition get_edges_subgraph (g : DiGraph) (es : list (Node * Node))
    : DiGraph :=
  edge_subgraph (list_to_set es) g.

Definition get_minimally_reoccurring_subgraph (g : DiGraph)
    (min_occurrences : Val) : res DiGraph :=
  get_subgraph g <$> get_nodes (minimally_reoccurring_cond min_occurrences) g.

Definition get_reduction_subgraph (g : DiGraph) : res DiGraph :=
  get_subgraph g <$> get_nodes reduction_cond g.

Definition get_longer_formulae_subgraph (g : DiGraph) (min_length : Z)
    : res DiGraph :=
  get_subgraph g <$> get_nodes (longer_formulae_cond min_length) g.

(** [(v, w) for v, w, d in edges(data=True) if not d['substrate']] *)
Definition get_without_substrates_subgraph (g : DiGraph) : res DiGraph :=
  (λ l, get_edges_subgraph g l.*1)
    <$> filter_res (λ e, s ← attr e.2 "substrate"; Ok (negb (py_truthy s)))
                   (map_to_list (edges g)).

Definition get_expressions (g : DiGraph) : res (gset Node) :=
  list_to_set <$> get_nodes expression_cond g.

Definition get_formulae_nodes (g : DiGraph) : res (gset Node) :=
  list_to_set <$> get_nodes expression_cond g.

Definition get_all_reducing_reactions (g : DiGraph) : res (gset Node) :=
  list_to_set <$> get_nodes reducing_cond g.

(** [get_subgraph_from_reactions(reactions)]: [reactions | formulae] *)
Definition get_subgraph_from_reactions (g : DiGraph) (reactions : gset Node)
    : res DiGraph :=
  formulae ← get_formulae_nodes g;
  Ok (subgraph (reactions ∪ formulae) g).

(** *** Food closure *)

(** [any(p not in s for p in r.products) and
     all(reactive in s for reactive in r.reactives)] *)
Definition closure_fires (s : gset Expr) (r : Reaction) : bool :=
  existsb (λ p, bool_decide (p ∉ s)) (products r)
  && forallb (λ x, bool_decide (x ∈ s)) (reactives r).

(** One [for r in reactions] pass over the pair [(s, s_updated)]. *)
Definition closure_pass (reactions : list Reaction) (st : gset Expr * bool)
    : gset Expr * bool :=
  foldl (λ st r, if closure_fires st.1 r
                 then (st.1 ∪ list_to_set (products r), true)
                 else st)
        st reactions.

(** [while s_updated: ...], each iteration spending one unit of fuel. *)
Fixpoint closure_loop (fuel : nat) (reactions : list Reaction)
    (s : gset Expr) : option (gset Expr) :=
  match fuel with
  | O => None
  | S fuel' =>
      let st := closure_pass reactions (s, false) in
      if st.2 then closure_loop fuel' reactions st.1 else Some st.1
  end.

(** Every product of every reaction. *)
Definition all_products_of (reactions : list Reaction) : gset Expr :=
  ⋃ ((λ r, list_to_set (products r)) <$> reactions).

(** [get_set_closure(s, reactions)]; [reactions] is given in the order the
    loop traverses it. The fuel is the number of passes that can add
    something, plus the last one. *)
Definition get_set_closure (s : gset Expr) (reactions : list Reaction)
    : option (gset Expr) :=
  closure_loop (S (size (all_products_of reactions ∖ s))) reactions s.

(** *** RAF solver *)

(** [set.union(set(), *(set(r.reactives) for r in raf))] *)
Definition all_reactives (raf : gset Reaction) : gset Expr :=
  ⋃ ((λ r, list_to_set (reactives r)) <$> elements raf).

(** [set.union(set(), *(set(r.products) for r in raf))] *)
Definition all_products (raf : gset Reaction) : gset Expr :=
  ⋃ ((λ r, list_to_set (products r)) <$> elements raf).

Definition all_reactives_produced (food_cl all_prods : gset Expr)
    (r : Reaction) : bool :=
  forallb (λ x, bool_decide (x ∈ food_cl) || bool_decide (x ∈ all_prods))
          (reactives r).

Definition product_non_trivial (food_cl all_reacts : gset Expr)
    (r : Reaction) : bool :=
  existsb (λ x, bool_decide (x ∈ all_reacts) && bool_decide (x ∉ food_cl))
          (products r).

(** The body of the [while] loop: [new_raf] from [raf]. *)
Definition raf_step (food_cl : gset Expr) (raf : gset Reaction)
    : gset Reaction :=
  filter (λ r, all_reactives_produced food_cl (all_products raf) r
               && product_non_trivial food_cl (all_reactives raf) r = true)
         raf.

(** [while raf != old_raf: ...; old_raf, raf = raf, new_raf] *)
Fixpoint raf_loop (fuel : nat) (food_cl : gset Expr)
    (old_raf : option (gset Reaction)) (raf : gset Reaction)
    : option (gset Reaction) :=
  match fuel with
  | O => None
  | S fuel' =>
      if decide (Some raf = old_raf) then Some raf
      else raf_loop fuel' food_cl (Some raf) (raf_step food_cl raf)
  end.

(** The members of [reductions] as Reactions: reading [r.reactives] and
    [r.products] of a key that is an Expression raises. *)
Definition as_reactions (ns : gset Node) : res (gset Reaction) :=
  list_to_set <$> map_res as_reaction (elements ns).

Definition lift_fuel {A} (o : option A) : res A :=
  from_option Ok OutOfFuel o.

(** [get_raf(food_set)]; the closing loop over [raf] only logs. *)
Definition get_raf (g : DiGraph) (food_set : gset Expr)
    : res (gset Reaction) :=
  reductions ← get_all_reducing_reactions g;
  reductions ← as_reactions reductions;
  food_cl ← lift_fuel (get_set_closure food_set (elements reductions));
  lift_fuel (raf_loop (size reductions + 2) food_cl None reductions).

End queries.

(** ** ReactionGraph: mutators *)

Section mutators.
Context `{ReactionModel Expr Reaction} `{!ExpressionModel Expr}.
Context `{!GraphStore Expr Reaction St}.

Local Abbreviation Node := (Node Expr Reaction).

(** The attributes [add_reaction] gives the reaction node. *)
Definition reaction_attrs (reaction_node : Reaction) (occurrences : Val)
    : Attrs :=
  {[ "reaction_type" := VStr (rtype reaction_node);
     "occurrences" := occurrences;
     "node_type" := VStr "reaction" ]}.

Definition expression_attrs : Attrs := {[ "node_type" := VStr "expression" ]}.

Definition substrate_attrs (is_substrate : bool) : Attrs :=
  {[ "substrate" := VBool is_substrate ]}.

Definition add_reaction (reaction_node : Reaction) : M St unit :=
  occurrences ← m_read (λ g, get_occurrences g (inr reaction_node));
  occurrences1 ← m_lift (py_add occurrences (VInt 1));
  m_add_node (inr reaction_node) (reaction_attrs reaction_node occurrences1);;
  let substrate := get_substrate reaction_node in
  for_each (reactives reaction_node) (λ r,
    m_add_node (inl r) expression_attrs;;
    let is_substrate := bool_decide (Some r = substrate) in
    m_add_edge (inl r) (inr reaction_node) (substrate_attrs is_substrate));;
  for_each (products reaction_node) (λ p,
    m_add_node (inl p) expression_attrs;;
    m_add_edge (inr reaction_node) (inl p) (substrate_attrs false)).

(** [min(l, key=len)]: the first element of least length. *)
Fixpoint min_by_len (l : list Expr) : option Expr :=
  match l with
  | [] => None
  | x :: l' =>
      match min_by_len l' with
      | Some y => if bool_decide (len y < len x) then Some y else Some x
      | None => Some x
      end
  end.

Definition remove_food_edges : M St unit :=
  ns ← m_read (λ g, Ok (map_to_list (nodes g)));
  for_each ns (λ nd,
    reducing ← m_lift (reducing_cond nd.1 nd.2);
    if reducing : bool then
      n ← m_lift (as_reaction nd.1);
      if bool_decide (1 < length (reactives n)) then
        match min_by_len (reactives n) with
        | Some food_node => m_remove_edge (inl food_node) nd.1
        | None => m_raise ValueError
        end
      else m_ret tt
    else m_ret tt).

Definition remove_selfloop : M St unit :=
  selfloops ← m_read (get_nodes selfloop_cond);
  m_remove_nodes_from (elements (list_to_set selfloops : gset Node)).

(** [d['node_type'] == 'expression' and len(n) <= max_len] *)
Definition short_formula_cond (max_len : Z) (n : Node) (d : Attrs)
    : res bool :=
  nt ← attr d "node_type";
  if py_eq nt (VStr "expression")
  then l ← node_len n; Ok (bool_decide (l ≤ max_len)%Z)
  else Ok false.

Definition trim_short_formulae (max_len : Z) : M St unit :=
  ns ← m_read (λ g, Ok (map_to_list (nodes g)));
  for_each ns (λ nd,
    short ← m_lift (short_formula_cond max_len nd.1 nd.2);
    if short : bool then m_remove_node nd.1 else m_ret tt).

End mutators.

(** ** Cycle-level estimator *)

Section cycles.
Context `{ReactionModel Expr Reaction}.

Local Abbreviation Node := (Node Expr Reaction).
Local Abbreviation DiGraph := (DiGraph Expr Reaction).

(** The breadth-first search behind [nx.shortest_path(G, n)], level by
    level: [paths] holds, for every node found so far, the number of nodes
    on the path recorded for it; the successors of [thislevel] that have no
    path yet get one that is one node longer. Only [len] of a path is ever
    read by the caller. *)
Fixpoint bfs_levels (fuel : nat) (g : DiGraph) (paths : gmap Node nat)
    (nextlevel : gset Node) (plen : nat) : gmap Node nat :=
  match fuel with
  | O => paths
  | S fuel' =>
      if decide (nextlevel = ∅) then paths
      else
        let thislevel := nextlevel in
        let found : gset Node :=
          filter (λ w, paths !! w = None)
                 (⋃ (successors g <$> elements thislevel)) in
        bfs_levels fuel' g (gset_to_gmap (S plen) found ∪ paths)
                   found (S plen)
  end.

(** [len(p)] for each entry [p] of [nx.shortest_path(self.graph, n)]. *)
Definition shortest_path_lens (g : DiGraph) (n : Node) : gmap Node nat :=
  bfs_levels (S (size (nodes g))) g {[ n := 1 ]} {[ n ]} 1.

(** [np.argmin]: the first position of the least element; an empty sequence
    raises [ValueError]. *)
Fixpoint argmin_from (best_i best i : nat) (l : list nat) : nat :=
  match l with
  | [] => best_i
  | x :: l' =>
      if bool_decide (x < best) then argmin_from i x (S i) l'
      else argmin_from best_i best (S i) l'
  end.

Definition np_argmin (l : list nat) : res nat :=
  match l with
  | [] => Raise ValueError
  | x :: l' => Ok (argmin_from 0 x 1 l')
  end.

(** [np.argmax], likewise. *)
Fixpoint argmax_from (best_i best i : nat) (l : list nat) : nat :=
  match l with
  | [] => best_i
  | x :: l' =>
      if bool_decide (best < x) then argmax_from i x (S i) l'
      else argmax_from best_i best (S i) l'
  end.

Definition np_argmax (l : list nat) : res nat :=
  match l with
  | [] => Raise ValueError
  | x :: l' => Ok (argmax_from 0 x 1 l')
  end.

(** [[len(p) for p in shortest_paths_to_predecessors]] *)
Definition predecessor_path_lens (g : DiGraph) (n : Node) : list nat :=
  let shortest_paths := shortest_path_lens g n in
  omap (λ n0, shortest_paths !! n0) (elements (predecessors g n)).

(** The body of [for n in self.graph.nodes()]: the length appended to
    [cycle_lengths], or nothing when [np.argmin] raises. *)
Definition node_cycle_length (g : DiGraph) (n : Node) : option nat :=
  let lens := predecessor_path_lens g n in
  match np_argmin lens with
  | Ok idx_shortest => lens !! idx_shortest
  | _ => None
  end.

Definition cycle_lengths (g : DiGraph) : list nat :=
  omap (node_cycle_length g) (elements (dom (nodes g))).

Definition get_maximal_cycle_length (g : DiGraph) : nat :=
  match np_argmax (cycle_lengths g) with
  | Ok _ => (max_list (cycle_lengths g) + 1) / 2
  | _ => 0
  end.

End cycles.

(** ** PoolFeeder *)

Section pool_feeder.
Context `{ExpressionModel Expr}.

Record PoolFeeder := mkPoolFeeder {
  food : list Expr;
  period : Z;
}.

(** [pool.remove(a)] on a list: the first occurrence goes; [ValueError] when
    there is none. *)
Fixpoint list_remove (a : Expr) (pool : list Expr) : option (list Expr) :=
  match pool with
  | [] => None
  | x :: pool' =>
      if decide (x = a) then Some pool' else (x ::.) <$> list_remove a pool'
  end.

Definition pool_remove (a : Expr) : M (list Expr) unit := λ pool,
  match list_remove a pool with
  | Some pool' => (pool', Ok tt)
  | None => (pool, Raise ValueError)
  end.

Definition pool_append (f : Expr) : M (list Expr) unit :=
  m_write (λ pool, pool ++ [f]).

(** [ticks % self.period] *)
Definition py_mod (a b : Z) : res Z :=
  if decide (b = 0%Z) then Raise ZeroDivisionError else Ok (a `mod` b)%Z.

Definition on_step_computed (self : PoolFeeder) (ticks : Z)
    : M (list Expr) unit :=
  if bool_decide (0 < ticks)%Z then
    rem ← m_lift (py_mod ticks (period self));
    if bool_decide (rem = 0%Z) then
      for_each (food self) (λ f,
        for_each (atoms f) pool_remove;;
        pool_append f)
    else m_ret tt
  else m_ret tt.

(** What a firing step does for one food molecule: its atoms leave the
    pool, the molecule joins it. *)
Definition feed_molecule (f : Expr) : M (list Expr) unit :=
  for_each (atoms f) pool_remove;; pool_append f.

End pool_feeder.

Arguments PoolFeeder : clear implicits.

(** ** Vocabulary of the properties *)

Section vocabulary.
Context `{ReactionModel Expr Reaction} `{!ExpressionModel Expr}.

Local Abbreviation Node := (Node Expr Reaction).
Local Abbreviation DiGraph := (DiGraph Expr Reaction).

(** The graph after submitting the reactions of [rs] in turn to an empty
    [ReactionGraph]. *)
Definition built (rs : list Reaction) : DiGraph :=
  foldl (λ g r, (add_reaction r g).1) empty_graph rs.

(** One round of the first loop of [add_reaction], as a store update. *)
Definition reactive_step `{!GraphStore Expr Reaction St} (rn : Reaction)
    (s : St) (r : Expr) : St :=
  st_add_edge (inl r) (inr rn)
    (substrate_attrs (bool_decide (Some r = get_substrate rn)))
    (st_add_node (inl r) expression_attrs s).

(** One round of its second loop. *)
Definition product_step `{!GraphStore Expr Reaction St} (rn : Reaction)
    (s : St) (p : Expr) : St :=
  st_add_edge (inr rn) (inl p) (substrate_attrs false)
    (st_add_node (inl p) expression_attrs s).

(** A set is closed under reactions when holding all the reactives of one
    of them brings all its products. *)
Definition closed_under (t : gset Expr) (rs : list Reaction) : Prop :=
  ∀ r, r ∈ rs →
    (∀ x, x ∈ reactives r → x ∈ t) → ∀ p, p ∈ products r → p ∈ t.

(** What [add_reaction] maintains: expression keys carry the expression
    attributes, reaction keys carry their own reaction attributes with a
    positive count, and every edge joins an expression and a reaction that
    are both nodes, carrying a substrate flag. *)
Record built_inv (g : DiGraph) : Prop := {
  inv_expr : ∀ x d, nodes g !! inl x = Some d → d = expression_attrs;
  inv_reac : ∀ r d, nodes g !! inr r = Some d →
    ∃ k : Z, (1 ≤ k)%Z ∧ d = reaction_attrs r (VInt k);
  inv_edge : ∀ u v d, edges g !! (u, v) = Some d →
    (∃ x r, (u = inl x ∧ v = inr r) ∨ (u = inr r ∧ v = inl x)) ∧
    (∃ b, d = substrate_attrs b) ∧
    u ∈ dom (nodes g) ∧ v ∈ dom (nodes g);
}.

(** [d.get('node_type')] of a node of the graph. *)
Definition node_type_of (g : DiGraph) (n : Node) : option Val :=
  nodes g !! n ≫= λ d, d !! "node_type".

(** Writing the entries of [kvs] into a dictionary, in turn. *)
Definition insert_all `{Countable K} {V} (kvs : list (K * V)) (m : gmap K V)
    : gmap K V :=
  foldl (λ m kv, <[kv.1 := kv.2]> m) m kvs.

(** The expression nodes the two loops of [add_reaction] write. *)
Definition reaction_exprs (rn : Reaction) : list (Node * Attrs) :=
  (λ x, (inl x, expression_attrs)) <$> (reactives rn ++ products rn).

(** The edges they write. *)
Definition reaction_edges (rn : Reaction) : list (Node * Node * Attrs) :=
  ((λ x, ((inl x, inr rn),
          substrate_attrs (bool_decide (Some x = get_substrate rn))))
     <$> reactives rn)
  ++ ((λ p, ((inr rn, inl p), substrate_attrs false)) <$> products rn).

(** The reading of [get_node_attribute] under which a missing attribute is
    treated like a missing node: a not-found error without a default, the
    default otherwise, and the stored value when both are there. *)
Definition get_node_attribute_not_found (g : DiGraph) (node : Node)
    (attribute : string) (dflt : Val) : Prop :=
  let absent := nodes g !! node = None ∨
                ∃ d, nodes g !! node = Some d ∧ d !! attribute = None in
  (absent → dflt = VNone →
     get_node_attribute g node attribute dflt = Raise KeyError) ∧
  (absent → dflt ≠ VNone →
     get_node_attribute g node attribute dflt = Ok dflt) ∧
  (∀ d v, nodes g !! node = Some d → d !! attribute = Some v →
     get_node_attribute g node attribute dflt = Ok v).

(** The reading of [remove_selfloop] under which reactives and products are
    compared as multisets: a reaction node goes exactly when the two lists
    are permutations of each other. *)
Definition remove_selfloop_multiset (g : DiGraph) : Prop :=
  ∀ rn, inr rn ∈ dom (nodes g) →
    (inr rn ∉ dom (nodes (remove_selfloop g).1) ↔
     reactives rn ≡ₚ products rn).

(** Every edge of a [DiGraph] runs between two of its nodes. *)
Definition edges_closed (g : DiGraph) : Prop :=
  ∀ u v, (u, v) ∈ dom (edges g) → u ∈ dom (nodes g) ∧ v ∈ dom (nodes g).

#[global] Instance edges_closed_dec (g : DiGraph) : Decision (edges_closed g).
Proof.
  destruct (decide (set_Forall
    (λ e : Node * Node, e.1 ∈ dom (nodes g) ∧ e.2 ∈ dom (nodes g))
    (dom (edges g)))) as [Hall|Hnot]; [left|right].
  - intros u v He. exact (Hall (u, v) He).
  - intros Hcl. apply Hnot. intros [u v] He. exact (Hcl u v He).
Defined.

(** The graph without the nodes of [ns] and the edges that touch them. *)
Definition without_nodes (ns : gset Node) (g : DiGraph) : DiGraph :=
  mkDiGraph (filter (λ p, p.1 ∉ ns) (nodes g))
            (filter (λ e, (e.1.1 ∉ ns) ∧ (e.1.2 ∉ ns)) (edges g)).

(** A walk of [k] edges from one node to another. *)
Inductive walk (g : DiGraph) : Node → Node → nat → Prop :=
  | walk_refl n : walk g n n 0
  | walk_step n m p k :
      walk g n m k → (m, p) ∈ dom (edges g) → walk g n p (S k).

(** The length of a shortest path. *)
Definition dist (g : DiGraph) (n m : Node) (d : nat) : Prop :=
  walk g n m d ∧ ∀ k, walk g n m k → d ≤ k.

(** A cycle through [n]: a shortest path from [n] to its predecessor [n0],
    closed by the edge from [n0] to [n]; [c] is its number of edges. *)
Definition cycle_via (g : DiGraph) (n n0 : Node) (c : nat) : Prop :=
  (n0, n) ∈ dom (edges g) ∧ ∃ d, dist g n n0 d ∧ c = d + 1.

(** The least length of such a cycle through [n]. *)
Definition minimal_cycle (g : DiGraph) (n : Node) (c : nat) : Prop :=
  (∃ n0, cycle_via g n n0 c) ∧ ∀ n0 c', cycle_via g n n0 c' → c ≤ c'.

(** The greatest of these least lengths over the nodes that have one. *)
Definition maximal_minimal_cycle (g : DiGraph) (L : nat) : Prop :=
  (∃ n, n ∈ dom (nodes g) ∧ minimal_cycle g n L) ∧
  ∀ n c, n ∈ dom (nodes g) → minimal_cycle g n c → c ≤ L.

(** What the search has when it starts the level at distance [k] from [n]:
    every recorded length is one more than the length of a walk of at most
    [k] edges, every node within [k] edges is recorded with a length no
    walk beats, and the level holds the nodes recorded at distance [k]. *)
Record bfs_inv (g : DiGraph) (n : Node) (paths : gmap Node nat)
    (level : gset Node) (k : nat) : Prop := {
  bfs_sound : ∀ m x, paths !! m = Some x →
    ∃ d, x = S d ∧ walk g n m d ∧ d ≤ k;
  bfs_complete : ∀ m j, walk g n m j → j ≤ k →
    ∃ d, d ≤ j ∧ paths !! m = Some (S d);
  bfs_level : ∀ m, m ∈ level ↔ paths !! m = Some (S k);
}.

(** The [node_type] that goes with a key. *)
Definition tag_of (n : Node) : Val :=
  match n with
  | inl _ => VStr "expression"
  | inr _ => VStr "reaction"
  end.

(** A graph whose edges run between its nodes and whose nodes carry the
    [node_type] of their key. *)
Definition well_tagged (g : DiGraph) : Prop :=
  edges_closed g ∧
  map_Forall (λ n d, d !! "node_type" = Some (tag_of n)) (nodes g).

#[global] Instance well_tagged_dec (g : DiGraph) : Decision (well_tagged g).
Proof. unfold well_tagged. apply _. Defined.

(** The keys [remove_selfloop] selects. *)
Definition is_selfloop (n : Node) : bool :=
  match n with
  | inr r => bool_decide (reactives r = products r)
  | inl _ => false
  end.

End vocabulary.

(** ** Graphs as objects in a store

    Several [ReactionGraph]s live side by side. Each has its own [DiGraph]
    object, whose node and edge dictionaries hold references to attribute
    dictionaries; the attribute dictionaries are mutable objects of the
    store, so that two graphs holding the same reference would see each
    other's updates. *)

Section store.
Context `{ReactionModel Expr Reaction} `{!ExpressionModel Expr}.

Local Abbreviation Node := (Node Expr Reaction).
Local Abbreviation DiGraph := (DiGraph Expr Reaction).

(** The [DiGraph] object of a [ReactionGraph]: for every node and every
    edge, the address of its attribute dictionary. *)
Record GraphObj := mkGraphObj {
  node_ref : gmap Node nat;
  edge_ref : gmap (Node * Node) nat;
}.

(** The store: the graph objects by identity, and the attribute
    dictionaries by address. *)
Record Store := mkStore {
  graphs : gmap nat GraphObj;
  dicts : gmap nat Attrs;
}.

(** The addresses a graph object holds. *)
Definition obj_locs (obj : GraphObj) : gset nat :=
  map_img (node_ref obj) ∪ map_img (edge_ref obj).

(** The dictionaries of a graph object, read through the store. *)
Definition view_obj (ds : gmap nat Attrs) (obj : GraphObj) : DiGraph :=
  mkDiGraph ((λ l, default ∅ (ds !! l)) <$> node_ref obj)
            ((λ l, default ∅ (ds !! l)) <$> edge_ref obj).

Definition view (st : Store) (o : nat) : DiGraph :=
  match graphs st !! o with
  | Some obj => view_obj (dicts st) obj
  | None => empty_graph
  end.

(** [d.update(attrs)] on the dictionary at address [l]. *)
Definition update_dict (l : nat) (attrs : Attrs) (st : Store) : Store :=
  mkStore (graphs st)
          (<[l := attrs ∪ default ∅ (dicts st !! l)]> (dicts st)).

(** A new dictionary holding [attrs], at an address not yet in use. *)
Definition alloc_dict (attrs : Attrs) (st : Store) : nat * Store :=
  let l := fresh (dom (dicts st)) in
  (l, mkStore (graphs st) (<[l := attrs]> (dicts st))).

Definition set_obj (o : nat) (obj : GraphObj) (st : Store) : Store :=
  mkStore (<[o := obj]> (graphs st)) (dicts st).

(** [G.add_node(n, **attrs)] on the graph object [o]: an existing node has
    its own dictionary updated in place; a new node gets a new
    dictionary. *)
Definition h_add_node (o : nat) (n : Node) (attrs : Attrs) (st : Store)
    : Store :=
  match graphs st !! o with
  | Some obj =>
      match node_ref obj !! n with
      | Some l => update_dict l attrs st
      | None =>
          let '(l, st') := alloc_dict attrs st in
          set_obj o (mkGraphObj (<[n := l]> (node_ref obj)) (edge_ref obj)) st'
      end
  | None => st
  end.

(** An endpoint that is not yet a node gets a new, empty dictionary. *)
Definition h_ensure_node (o : nat) (n : Node) (st : Store) : Store :=
  match graphs st !! o with
  | Some obj =>
      match node_ref obj !! n with
      | Some _ => st
      | None =>
          let '(l, st') := alloc_dict ∅ st in
          set_obj o (mkGraphObj (<[n := l]> (node_ref obj)) (edge_ref obj)) st'
      end
  | None => st
  end.

(** [G.add_edge(u, v, **attrs)] on the graph object [o]. *)
Definition h_add_edge (o : nat) (u v : Node) (attrs : Attrs) (st : Store)
    : Store :=
  let st := h_ensure_node o v (h_ensure_node o u st) in
  match graphs st !! o with
  | Some obj =>
      match edge_ref obj !! (u, v) with
      | Some l => update_dict l attrs st
      | None =>
          let '(l, st') := alloc_dict attrs st in
          set_obj o (mkGraphObj (node_ref obj) (<[(u, v) := l]> (edge_ref obj)))
                  st'
      end
  | None => st
  end.

(** [G.remove_node(n)] on the graph object [o]. *)
Definition h_remove_node (o : nat) (n : Node) (st : Store) : Store :=
  match graphs st !! o with
  | Some obj =>
      set_obj o (mkGraphObj (delete n (node_ref obj))
                   (filter (λ e, e.1.1 ≠ n ∧ e.1.2 ≠ n) (edge_ref obj))) st
  | None => st
  end.

(** [G.remove_edge(u, v)] on the graph object [o]. *)
Definition h_remove_edge (o : nat) (u v : Node) (st : Store) : Store :=
  match graphs st !! o with
  | Some obj =>
      set_obj o (mkGraphObj (node_ref obj) (delete (u, v) (edge_ref obj))) st
  | None => st
  end.

(** The [ReactionGraph] whose [self.graph] is the object [o]. *)
Definition object_store (o : nat) : GraphStore Expr Reaction Store := {|
  snapshot st := view st o;
  st_add_node := h_add_node o;
  st_add_edge := h_add_edge o;
  st_remove_node := h_remove_node o;
  st_remove_edge := h_remove_edge o;
|}.

(** A new dictionary for each entry of [kds]. *)
Fixpoint alloc_all `{Countable K} (kds : list (K * Attrs))
    (ds : gmap nat Attrs) : gmap K nat * gmap nat Attrs :=
  match kds with
  | [] => (∅, ds)
  | kd :: rest =>
      let '(refs, ds') := alloc_all rest ds in
      let l := fresh (dom ds') in
      (<[kd.1 := l]> refs, <[l := kd.2]> ds')
  end.

(** [ReactionGraph(init)], that is [nx.DiGraph(init)] for [init] a view of
    another graph: the constructor makes a graph object of its own, adds
    the nodes and the edges of [init], which creates a dictionary for each
    of them, and updates these dictionaries from those of [init].
    [content] is what the view shows. *)
Definition new_graph (content : DiGraph) (st : Store) : nat * Store :=
  let '(nrefs, ds1) := alloc_all (map_to_list (nodes content)) (dicts st) in
  let '(erefs, ds2) := alloc_all (map_to_list (edges content)) ds1 in
  let o := fresh (dom (graphs st)) in
  (o, mkStore (<[o := mkGraphObj nrefs erefs]> (graphs st)) ds2).

(** The five subgraph filters. *)
Inductive subgraph_filter :=
  | MinimallyReoccurring (min_occurrences : Val)
  | Reduction
  | LongerFormulae (min_length : Z)
  | WithoutSubstrates
  | FromReactions (reactions : gset Node).

(** What the filter selects from a graph. *)
Definition filter_content (f : subgraph_filter) (g : DiGraph) : res DiGraph :=
  match f with
  | MinimallyReoccurring min_occurrences =>
      get_minimally_reoccurring_subgraph g min_occurrences
  | Reduction => get_reduction_subgraph g
  | LongerFormulae min_length => get_longer_formulae_subgraph g min_length
  | WithoutSubstrates => get_without_substrates_subgraph g
  | FromReactions reactions => get_subgraph_from_reactions g reactions
  end.

(** The filter as a method of the [ReactionGraph] at [o]: it returns the
    identity of a new [ReactionGraph]. *)
Definition h_filter (f : subgraph_filter) (o : nat) : M Store nat := λ st,
  match filter_content f (view st o) with
  | Ok content => let '(o', st') := new_graph content st in (st', Ok o')
  | Raise e => (st, Raise e)
  | OutOfFuel => (st, OutOfFuel)
  end.

(** The four mutators. *)
Inductive mutation :=
  | AddReaction (reaction_node : Reaction)
  | RemoveFoodEdges
  | RemoveSelfloop
  | TrimShortFormulae (max_len : Z).

Definition run_mutation `{!GraphStore Expr Reaction St} (m : mutation)
    : M St unit :=
  match m with
  | AddReaction reaction_node => add_reaction reaction_node
  | RemoveFoodEdges => remove_food_edges
  | RemoveSelfloop => remove_selfloop
  | TrimShortFormulae max_len => trim_short_formulae max_len
  end.

(** A sequence of mutator calls on the [ReactionGraph] at [o]; a call that
    raises leaves the store as it is at that point, and the next call goes
    on from there. *)
Definition h_mutate (o : nat) (ms : list mutation) (st : Store) : Store :=
  foldl (λ st m, (run_mutation (GraphStore0 := object_store o) m st).1) st ms.

(** Every address held by a graph object of the store is in use. *)
Definition store_ok (st : Store) : Prop :=
  map_Forall (λ _ obj, obj_locs obj ⊆ dom (dicts st)) (graphs st).

(** The graph object [obj'] at [o'] is out of reach of the graph at [o]:
    its dictionaries are those of [ds], and the graph at [o] holds none of
    their addresses. *)
Record frame_inv (o o' : nat) (obj' : GraphObj) (ds : gmap nat Attrs)
    (st : Store) : Prop := {
  fr_obj : graphs st !! o' = Some obj';
  fr_dicts : ∀ l, l ∈ obj_locs obj' →
    is_Some (ds !! l) ∧ dicts st !! l = ds !! l;
  fr_sep : ∀ obj, graphs st !! o = Some obj → obj_locs obj ## obj_locs obj';
}.

(** A graph object by itself: its addresses are in use, and no two of its
    nodes or edges share a dictionary. *)
Record obj_wf (st : Store) (obj : GraphObj) : Prop := {
  wf_in_use : obj_locs obj ⊆ dom (dicts st);
  wf_nodes_inj : ∀ n1 n2 l,
    node_ref obj !! n1 = Some l → node_ref obj !! n2 = Some l → n1 = n2;
  wf_edges_inj : ∀ e1 e2 l,
    edge_ref obj !! e1 = Some l → edge_ref obj !! e2 = Some l → e1 = e2;
  wf_disjoint : ∀ n e l,
    node_ref obj !! n = Some l → edge_ref obj !! e = Some l → False;
}.

(** The graph object at [o] shows the graph [g]. *)
Definition refines (o : nat) (st : Store) (g : DiGraph) : Prop :=
  ∃ obj, graphs st !! o = Some obj ∧ obj_wf st obj ∧
         view_obj (dicts st) obj = g.

(** The same sequence of mutator calls on a graph held by value. *)
Definition pure_mutate (ms : list mutation) (g : DiGraph) : DiGraph :=
  foldl (λ g m, (run_mutation m g).1) g ms.

End store.

(** Two methods on two stores that go in step: from related stores they
    leave related stores and have the same outcome. *)
Definition simulates {StA StB A} (R : StA → StB → Prop)
    (mA : M StA A) (mB : M StB A) : Prop :=
  ∀ s g, R s g → R (mA s).1 (mB g).1 ∧ (mA s).2 = (mB g).2.

(** ** ReactionGraph: further queries *)

Section more_queries.
Context `{ReactionModel Expr Reaction} `{!ExpressionModel Expr}.

Local Abbreviation Node := (Node Expr Reaction).
Local Abbreviation DiGraph := (DiGraph Expr Reaction).

(** [nx.get_node_attributes(G, name)]: a dictionary of the nodes that carry
    the attribute, each with its value. *)
Definition get_node_attributes (g : DiGraph) (name : string)
    : gmap Node Val :=
  omap (λ d : Attrs, d !! name) (nodes g).

(** [table[n]] on such a dictionary. *)
Definition item (table : gmap Node Val) (n : Node) : res Val :=
  match table !! n with
  | Some v => Ok v
  | None => Raise KeyError
  end.

(** [filter_reducing_reactions(nodes)]; [nodes] is given in the order the
    comprehension traverses it. *)
Definition filter_reducing_reactions (g : DiGraph) (ns : list Node)
    : res (gset Node) :=
  let node_types := get_node_attributes g "node_type" in
  let reaction_types := get_node_attributes g "reaction_type" in
  list_to_set <$>
    filter_res (λ n,
      nt ← item node_types n;
      if py_eq nt (VStr "reaction")
      then rt ← item reaction_types n; Ok (py_eq rt (VStr "reduce"))
      else Ok false) ns.

End more_queries.

(** ** Further vocabulary *)

Section more_vocabulary.
Context `{ReactionModel Expr Reaction} `{!ExpressionModel Expr}.

Local Abbreviation Node := (Node Expr Reaction).
Local Abbreviation DiGraph := (DiGraph Expr Reaction).

(** How many times a reaction occurs in a sequence of submissions. *)
Definition submissions (r : Reaction) (rs : list Reaction) : nat :=
  length (filter (λ r', r' = r) rs).

(** The graphs a user can reach: from the empty graph, by calls of the
    four mutators (whether they return or raise) and by taking the result
    of a subgraph filter. *)
Inductive derived : DiGraph → Prop :=
  | derived_empty : derived empty_graph
  | derived_mutation g (m : mutation) :
      derived g → derived (run_mutation m g).1
  | derived_filter g (f : subgraph_filter) content :
      derived g → filter_content f g = Ok content → derived content.

(** Whether [get_reduction_subgraph] keeps a key. *)
Definition keeps_reduction (n : Node) : bool :=
  match n with
  | inl _ => true
  | inr r => bool_decide (rtype r = "reduce")
  end.

(** Whether [get_longer_formulae_subgraph] keeps a key. *)
Definition keeps_longer (min_length : Z) (n : Node) : bool :=
  match n with
  | inl x => bool_decide (min_length ≤ Z.of_nat (len x))%Z
  | inr _ => true
  end.

(** Whether [trim_short_formulae] removes a key. *)
Definition is_short (max_len : Z) (n : Node) : bool :=
  match n with
  | inl x => bool_decide (Z.of_nat (len x) ≤ max_len)%Z
  | inr _ => false
  end.

(** Whether [get_minimally_reoccurring_subgraph] keeps a key of the graph
    built from the submissions [rs]. *)
Definition keeps_reoccurring (min_occurrences : Z) (rs : list Reaction)
    (n : Node) : bool :=
  match n with
  | inl _ => true
  | inr r => bool_decide (min_occurrences ≤ Z.of_nat (submissions r rs))%Z
  end.

(** The edge [remove_food_edges] takes from a reaction node: the one from
    its first shortest reactive, when the reaction reduces and has more than
    one reactive. *)
Definition food_edge (r : Reaction) : option (Node * Node) :=
  if bool_decide (rtype r = "reduce")
     && bool_decide (1 < length (reactives r))
  then (λ x, (inl x, inr r)) <$> min_by_len (reactives r)
  else None.

(** Whether an edge is the food edge of the reaction it enters. *)
Definition is_food_edge (e : Node * Node) : bool :=
  match e.2 with
  | inr r => bool_decide (food_edge r = Some e)
  | inl _ => false
  end.

(** The induced subgraph on the keys that [keep] accepts. *)
Definition induced (keep : Node → bool) (g : DiGraph) : DiGraph :=
  mkDiGraph (filter (λ nd, keep nd.1 = true) (nodes g))
            (filter (λ e, keep e.1.1 = true ∧ keep e.1.2 = true) (edges g)).

End more_vocabulary.

(** ** A concrete chemistry, for running the definitions

    Expressions are formula strings whose atoms are their characters;
    reactions are records compared by value. *)

Module Sample.

Record Reaction := mkReaction {
  r_type : string;
  r_reactives : list string;
  r_substrate : option string;
  r_products : list string;
}.

#[global] Instance Reaction_eq_dec : EqDecision Reaction.
Proof. solve_decision. Defined.

#[global] Instance Reaction_countable : Countable Reaction :=
  inj_countable'
    (λ r, (r_type r, r_reactives r, r_substrate r, r_products r))
    (λ t, mkReaction t.1.1.1 t.1.1.2 t.1.2 t.2)
    (λ r, match r with mkReaction _ _ _ _ => eq_refl end).

#[global] Instance string_expression : ExpressionModel string := {|
  atoms e := (λ c, String c EmptyString) <$> String.list_ascii_of_string e;
  len e := String.length e;
|}.

#[global] Instance sample_reaction : ReactionModel string Reaction := {|
  rtype := r_type;
  reactives := r_reactives;
  products := r_products;
  get_substrate := r_substrate;
|}.

(** [A + B -> C] with substrate [A], and [C -> A]. *)
Definition r1 : Reaction := mkReaction "reduce" ["A"; "B"] (Some "A") ["C"].
Definition r2 : Reaction := mkReaction "reduce" ["C"] (Some "C") ["A"].

(** [B + A -> A + B]: the products are the reactives in another order. *)
Definition r_swap : Reaction :=
  mkReaction "reduce" ["B"; "A"] (Some "B") ["A"; "B"].

(** [C ->] nothing, and nothing [-> B]. *)
Definition r_decay : Reaction := mkReaction "reduce" ["C"] (Some "C") [].
Definition r_spawn : Reaction := mkReaction "reduce" [] None ["B"].

(** A store with one [ReactionGraph], at identity 0, to which [r1] and
    [r2] have been submitted; and the store after taking its reduction
    subgraph, which is the graph at identity 1. *)
Definition st_two : Store (Expr := string) (Reaction := Reaction) :=
  h_mutate 0 [AddReaction r1; AddReaction r2]
    (new_graph empty_graph (mkStore ∅ ∅)).2.

Definition st_filtered : Store (Expr := string) (Reaction := Reaction) :=
  (h_filter Reduction 0 st_two).1.

(** [A -> A], which changes nothing. *)
Definition r_idle : Reaction := mkReaction "reduce" ["A"] (Some "A") ["A"].

End Sample.

(** ** Outcomes and mutating methods *)

Lemma res_bind_Ok {A B} (m : res A) (f : A → res B) b :
  m ≫= f = Ok b ↔ ∃ a, m = Ok a ∧ f a = Ok b.
Proof.
  destruct m as [a| |]; cbn; split; try done; try (by intros (? & [=] & _)).
  - eauto.
  - by intros (? & [= <-] & ?).
Qed.

Lemma res_fmap_Ok {A B} (m : res A) (f : A → B) b :
  f <$> m = Ok b ↔ ∃ a, m = Ok a ∧ f a = b.
Proof.
  destruct m as [a| |]; cbn; split; try done; try (by intros (? & [=] & _)).
  - intros [= <-]. eauto.
  - by intros (? & [= <-] & <-).
Qed.

Lemma lift_fuel_Ok {A} (o : option A) a : lift_fuel o = Ok a ↔ o = Some a.
Proof. destruct o; cbn; split; congruence. Qed.

Lemma filter_res_Ok {A} (cond : A → res bool) (f : A → bool) (l : list A) :
  (∀ x, x ∈ l → cond x = Ok (f x)) →
  filter_res cond l = Ok (filter (λ x, f x = true) l).
Proof.
  induction l as [|x l IH]; intros Hc; [done|].
  rewrite filter_cons. cbn [filter_res].
  rewrite (Hc x) by left. rewrite IH by (intros; apply Hc; by right).
  destruct (f x); case_decide; done.
Qed.

Lemma map_res_Ok {A B} (f : A → res B) (h : A → B) (l : list A) :
  (∀ x, x ∈ l → f x = Ok (h x)) → map_res f l = Ok (h <$> l).
Proof.
  induction l as [|x l IH]; intros Hc; [done|].
  cbn. rewrite (Hc x) by left. cbn. rewrite IH by (intros; apply Hc; by right).
  done.
Qed.

Lemma m_write_bind {St} (f h : St → St) (s : St) :
  (m_write f;; m_write h) s = (h (f s), Ok tt).
Proof. done. Qed.

(** A loop whose body only writes is a left fold of the writes. *)
Lemma for_each_write {St A} (body : A → M St unit) (f : St → A → St) l s :
  (∀ x s', body x s' = (f s' x, Ok tt)) →
  for_each l body s = (foldl f s l, Ok tt).
Proof.
  intros Hb. revert s. induction l as [|x l IH]; intros s; [done|].
  cbn. unfold mbind, M_bind, m_bind. rewrite Hb. apply IH.
Qed.

(** Whatever every store update maintains, a loop maintains. *)
Lemma for_each_preserves {St A} (P : St → Prop) (body : A → M St unit) l s :
  (∀ x s', P s' → P (body x s').1) → P s → P (for_each l body s).1.
Proof.
  intros Hb. revert s. induction l as [|x l IH]; intros s Hs; [done|].
  cbn. unfold mbind, M_bind, m_bind.
  specialize (Hb x s Hs). destruct (body x s) as [s' [[]| |]]; cbn in *; auto.
Qed.

Section closure_facts.
Context `{ReactionModel Expr Reaction} `{!ExpressionModel Expr}.
Implicit Types (s t : gset Expr) (r : Reaction) (rs : list Reaction).

Lemma closure_fires_true s r :
  closure_fires s r = true ↔
    (∃ p, p ∈ products r ∧ p ∉ s) ∧ ∀ x, x ∈ reactives r → x ∈ s.
Proof.
  unfold closure_fires. rewrite andb_true_iff, existsb_exists, forallb_forall.
  setoid_rewrite bool_decide_eq_true. setoid_rewrite <- list_elem_of_In.
  done.
Qed.

Lemma closure_fires_false s r :
  closure_fires s r = false →
  (∀ x, x ∈ reactives r → x ∈ s) → ∀ p, p ∈ products r → p ∈ s.
Proof.
  intros Hf Hall p Hp. destruct (decide (p ∈ s)) as [|Hn]; [done|].
  assert (closure_fires s r = true) as Ht; [|congruence].
  apply closure_fires_true. eauto.
Qed.

Lemma closure_pass_cons r rs st :
  closure_pass (r :: rs) st =
  closure_pass rs (if closure_fires st.1 r
                   then (st.1 ∪ list_to_set (products r), true) else st).
Proof. done. Qed.

Lemma closure_pass_mono rs st : st.1 ⊆ (closure_pass rs st).1.
Proof.
  revert st. induction rs as [|r rs IH]; intros st; [done|].
  rewrite closure_pass_cons. etrans; [|apply IH].
  destruct (closure_fires st.1 r); simpl; set_solver.
Qed.

Lemma closure_pass_bound rs st :
  (closure_pass rs st).1 ⊆ st.1 ∪ all_products_of rs.
Proof.
  revert st. induction rs as [|r rs IH]; intros st; [set_solver|].
  rewrite closure_pass_cons. etrans; [apply IH|].
  unfold all_products_of. rewrite fmap_cons, union_list_cons.
  destruct (closure_fires st.1 r); simpl; set_solver.
Qed.

Lemma closure_pass_within rs st t :
  closed_under t rs → st.1 ⊆ t → (closure_pass rs st).1 ⊆ t.
Proof.
  revert st. induction rs as [|r rs IH]; intros st Hcl Hst; [done|].
  rewrite closure_pass_cons. apply IH.
  - intros r' Hr'. apply Hcl. by right.
  - destruct (closure_fires st.1 r) eqn:Hf; [|done]. simpl.
    apply closure_fires_true in Hf as [_ Hall].
    intros p [Hp|Hp%elem_of_list_to_set]%elem_of_union; [by apply Hst|].
    eapply (Hcl r); [by left| |done]. intros x Hx. apply Hst. by apply Hall.
Qed.

(** A pass that leaves the flag down changed nothing and found no reaction
    to fire. *)
Lemma closure_pass_quiet rs st :
  (closure_pass rs st).2 = false →
  st.2 = false ∧ (closure_pass rs st).1 = st.1 ∧
  ∀ r, r ∈ rs → closure_fires st.1 r = false.
Proof.
  revert st. induction rs as [|r rs IH]; intros st Hq.
  - split_and!; [done..|]. intros r Hr. by apply elem_of_nil in Hr.
  - rewrite closure_pass_cons in *.
    apply IH in Hq as (Hflag & Hs & Hrs).
    destruct (closure_fires st.1 r) eqn:Hf; [done|].
    split_and!; [done..|]. intros r' [->|Hr']%elem_of_cons; auto.
Qed.

(** A pass that raises the flag added an element. *)
Lemma closure_pass_grows rs st :
  st.2 = false → (closure_pass rs st).2 = true →
  ∃ p, p ∈ (closure_pass rs st).1 ∧ p ∉ st.1.
Proof.
  revert st. induction rs as [|r rs IH]; intros st Hst Hup.
  - simpl in Hup. congruence.
  - rewrite closure_pass_cons in *.
    destruct (closure_fires st.1 r) eqn:Hf.
    + apply closure_fires_true in Hf as [(p & Hp & Hn) _].
      exists p. split; [|done]. apply closure_pass_mono. simpl.
      apply elem_of_union_r. by apply elem_of_list_to_set.
    + by apply IH.
Qed.

Lemma closure_loop_spec fuel rs s0 s :
  s0 ⊆ s →
  size (all_products_of rs ∖ s) < fuel →
  ∃ t, closure_loop fuel rs s = Some t ∧
       s ⊆ t ∧ closed_under t rs ∧
       ∀ u, s ⊆ u → closed_under u rs → t ⊆ u.
Proof.
  revert s. induction fuel as [|fuel IH]; intros s Hs0 Hfuel; [lia|].
  simpl. destruct (closure_pass rs (s, false)) as [s' upd] eqn:Hpass.
  pose proof (closure_pass_mono rs (s, false)) as Hmono.
  pose proof (closure_pass_bound rs (s, false)) as Hbound.
  rewrite Hpass in Hmono, Hbound. simpl in *.
  destruct upd.
  - pose proof (closure_pass_grows rs (s, false) eq_refl) as Hg.
    rewrite Hpass in Hg. destruct (Hg eq_refl) as (p & Hp & Hn). simpl in *.
    destruct (IH s') as (t & Ht & Hst & Hcl & Hleast).
    + set_solver.
    + assert (all_products_of rs ∖ s' ⊂ all_products_of rs ∖ s) as Hlt.
      { split; [set_solver|]. intros Hsub. apply Hn.
        assert (p ∈ all_products_of rs ∖ s') as Hp'; [|set_solver].
        apply Hsub. set_solver. }
      apply subset_size in Hlt. lia.
    + exists t. split_and!; [done|set_solver|done|].
      intros u Hu Hucl. apply Hleast; [|done].
      pose proof (closure_pass_within rs (s, false) u Hucl Hu) as Hw.
      by rewrite Hpass in Hw.
  - pose proof (closure_pass_quiet rs (s, false)) as Hq.
    rewrite Hpass in Hq. simpl in Hq. destruct (Hq eq_refl) as (_ & -> & Hnf).
    exists s. split_and!; [done..| |done].
    intros r Hr. apply closure_fires_false. by apply Hnf.
Qed.

Lemma get_set_closure_Some (s : gset Expr) (rs : list Reaction) :
  ∃ t, get_set_closure s rs = Some t ∧ s ⊆ t ∧ closed_under t rs ∧
       ∀ u, s ⊆ u → closed_under u rs → t ⊆ u.
Proof.
  unfold get_set_closure.
  apply (closure_loop_spec _ rs s s); [done|lia].
Qed.

(** C2: [get_set_closure] returns, and the set it returns is the least set
    that contains the seed set and holds the products of every reaction
    whose reactives it holds. *)
Theorem get_set_closure_least (s : gset Expr) (rs : list Reaction) :
  ∃ t, get_set_closure s rs = Some t ∧
       s ⊆ t ∧
       (∀ r, r ∈ rs → (∀ x, x ∈ reactives r → x ∈ t) →
             ∀ p, p ∈ products r → p ∈ t) ∧
       ∀ u : gset Expr, s ⊆ u →
         (∀ r, r ∈ rs → (∀ x, x ∈ reactives r → x ∈ u) →
               ∀ p, p ∈ products r → p ∈ u) →
         t ⊆ u.
Proof. apply get_set_closure_Some. Qed.

End closure_facts.

Lemma get_set_closure_least_witness :
  ∃ t, get_set_closure {["A"; "B"]} [Sample.r1; Sample.r2] = Some t ∧
       {["A"; "B"]} ⊆ t ∧
       (∀ r, r ∈ [Sample.r1; Sample.r2] →
          (∀ x, x ∈ reactives r → x ∈ t) → ∀ p, p ∈ products r → p ∈ t) ∧
       ∀ u : gset string, {["A"; "B"]} ⊆ u →
         (∀ r, r ∈ [Sample.r1; Sample.r2] →
            (∀ x, x ∈ reactives r → x ∈ u) → ∀ p, p ∈ products r → p ∈ u) →
         t ⊆ u.
Proof. exact (get_set_closure_least {["A"; "B"]} [Sample.r1; Sample.r2]). Defined.

Section raf_facts.
Context `{ReactionModel Expr Reaction} `{!ExpressionModel Expr}.
Implicit Types (raf : gset Reaction) (food_cl : gset Expr).

Lemma raf_step_subseteq food_cl raf : raf_step food_cl raf ⊆ raf.
Proof. unfold raf_step. intros r Hr. by apply elem_of_filter in Hr as [_ ?]. Qed.

Lemma raf_step_elem food_cl raf r :
  r ∈ raf_step food_cl raf ↔
  r ∈ raf ∧ all_reactives_produced food_cl (all_products raf) r = true
          ∧ product_non_trivial food_cl (all_reactives raf) r = true.
Proof.
  unfold raf_step. rewrite elem_of_filter, andb_true_iff. tauto.
Qed.

Lemma elem_of_all_products raf x :
  x ∈ all_products raf ↔ ∃ r, r ∈ raf ∧ x ∈ products r.
Proof.
  unfold all_products. rewrite elem_of_union_list. split.
  - intros (X & HX & Hx). apply list_elem_of_fmap in HX as (r & -> & Hr).
    exists r. split; [by apply elem_of_elements|by apply elem_of_list_to_set in Hx].
  - intros (r & Hr & Hx). exists (list_to_set (products r)). split.
    + apply list_elem_of_fmap. exists r. split; [done|by apply elem_of_elements].
    + by apply elem_of_list_to_set.
Qed.

Lemma elem_of_all_reactives raf x :
  x ∈ all_reactives raf ↔ ∃ r, r ∈ raf ∧ x ∈ reactives r.
Proof.
  unfold all_reactives. rewrite elem_of_union_list. split.
  - intros (X & HX & Hx). apply list_elem_of_fmap in HX as (r & -> & Hr).
    exists r. split; [by apply elem_of_elements|by apply elem_of_list_to_set in Hx].
  - intros (r & Hr & Hx). exists (list_to_set (reactives r)). split.
    + apply list_elem_of_fmap. exists r. split; [done|by apply elem_of_elements].
    + by apply elem_of_list_to_set.
Qed.

Lemma all_reactives_produced_true food_cl prods r :
  all_reactives_produced food_cl prods r = true ↔
  ∀ x, x ∈ reactives r → x ∈ food_cl ∨ x ∈ prods.
Proof.
  unfold all_reactives_produced. rewrite forallb_forall.
  setoid_rewrite orb_true_iff. setoid_rewrite bool_decide_eq_true.
  by setoid_rewrite <- list_elem_of_In.
Qed.

Lemma product_non_trivial_true food_cl reacts r :
  product_non_trivial food_cl reacts r = true ↔
  ∃ x, x ∈ products r ∧ x ∈ reacts ∧ x ∉ food_cl.
Proof.
  unfold product_non_trivial. rewrite existsb_exists.
  setoid_rewrite andb_true_iff. setoid_rewrite bool_decide_eq_true.
  by setoid_rewrite <- list_elem_of_In.
Qed.

(** Once the loop has gone round, [raf] is what the body made of [old_raf];
    it stops on a set that the body leaves as it is. *)
Lemma raf_loop_spec fuel food_cl old raf :
  raf = raf_step food_cl old → size old < fuel →
  ∃ result, raf_loop fuel food_cl (Some old) raf = Some result ∧
            raf_step food_cl result = result ∧ result ⊆ old.
Proof.
  revert old raf. induction fuel as [|fuel IH]; intros old raf Hraf Hfuel; [lia|].
  simpl. destruct (decide (Some raf = Some old)) as [[= Heq]|Hne].
  - exists raf. subst old. split_and!; [done|congruence|done].
  - assert (raf ⊆ old) as Hsub by (subst raf; apply raf_step_subseteq).
    assert (raf ⊂ old) as Hlt.
    { split; [done|]. intros Hsub'. apply Hne. f_equal. set_solver. }
    apply subset_size in Hlt.
    destruct (IH raf (raf_step food_cl raf)) as (result & Hres & Hfix & Hsub2);
      [done|lia|].
    exists result. split_and!; [done..|set_solver].
Qed.

Lemma raf_loop_start food_cl reductions :
  ∃ result, raf_loop (size reductions + 2) food_cl None reductions = Some result
            ∧ raf_step food_cl result = result ∧ result ⊆ reductions.
Proof.
  replace (size reductions + 2) with (S (size reductions + 1)) by lia.
  cbn [raf_loop]. destruct (decide (Some reductions = None)) as [?|_]; [done|].
  apply raf_loop_spec; [done|lia].
Qed.

(** What a call of [get_raf] that returns has gone through. *)
Lemma get_raf_Ok (g : DiGraph Expr Reaction) food raf :
  get_raf g food = Ok raf →
  ∃ nodes_red reductions food_cl,
    get_all_reducing_reactions g = Ok nodes_red ∧
    as_reactions nodes_red = Ok reductions ∧
    get_set_closure food (elements reductions) = Some food_cl ∧
    raf_step food_cl raf = raf ∧ raf ⊆ reductions.
Proof.
  unfold get_raf. intros Hraf.
  apply res_bind_Ok in Hraf as (nodes_red & Hn & Hraf).
  apply res_bind_Ok in Hraf as (reductions & Hr & Hraf).
  apply res_bind_Ok in Hraf as (food_cl & Hcl%lift_fuel_Ok & Hraf).
  apply lift_fuel_Ok in Hraf.
  destruct (raf_loop_start food_cl reductions) as (result & Hres & Hfix & Hsub).
  rewrite Hres in Hraf. injection Hraf as <-.
  by exists nodes_red, reductions, food_cl.
Qed.

(** The two loops of [get_raf] always finish. *)
Lemma get_raf_total (g : DiGraph Expr Reaction) food nodes_red reductions :
  get_all_reducing_reactions g = Ok nodes_red →
  as_reactions nodes_red = Ok reductions →
  ∃ raf, get_raf g food = Ok raf.
Proof.
  intros Hn Hr. unfold get_raf. rewrite Hn. cbn [mbind res_bind].
  rewrite Hr. cbn [mbind res_bind].
  destruct (get_set_closure_Some food (elements reductions))
    as (food_cl & -> & _). cbn [mbind res_bind lift_fuel from_option].
  destruct (raf_loop_start food_cl reductions) as (result & -> & _).
  by exists result.
Qed.

End raf_facts.

Section build_facts.
Context `{ReactionModel Expr Reaction} `{!ExpressionModel Expr}.
Local Abbreviation Node := (Node Expr Reaction).
Local Abbreviation DiGraph := (DiGraph Expr Reaction).
Implicit Types (g : DiGraph) (rn : Reaction) (x p : Expr) (d : Attrs).

(** *** Running [add_reaction] *)

Lemma add_reaction_run `{!GraphStore Expr Reaction St} rn (s : St) :
  add_reaction rn s =
  match get_occurrences (snapshot s) (inr rn) ≫= λ o, py_add o (VInt 1) with
  | Ok o1 =>
      (foldl (product_step rn)
         (foldl (reactive_step rn)
            (st_add_node (inr rn) (reaction_attrs rn o1) s) (reactives rn))
         (products rn), Ok tt)
  | Raise e => (s, Raise e)
  | OutOfFuel => (s, OutOfFuel)
  end.
Proof.
  unfold add_reaction, mbind, M_bind, m_bind, m_read, m_lift.
  destruct (get_occurrences (snapshot s) (inr rn)) as [o| |]; cbn; [|done..].
  destruct (py_add o (VInt 1)) as [o1| |]; cbn; [|done..].
  rewrite (for_each_write _ (reactive_step rn)) by done.
  by rewrite (for_each_write _ (product_step rn)) by done.
Qed.

(** *** Attribute dictionaries *)

Lemma union_same_dom (d1 d2 : Attrs) : dom d2 ⊆ dom d1 → d1 ∪ d2 = d1.
Proof.
  intros Hdom. apply map_eq. intros k. rewrite lookup_union.
  destruct (d1 !! k) as [v|] eqn:Hk1; [by destruct (d2 !! k)|].
  apply not_elem_of_dom in Hk1.
  assert (d2 !! k = None) as ->; [|done]. apply not_elem_of_dom. set_solver.
Qed.

Lemma dom_reaction_attrs rn v :
  dom (reaction_attrs rn v)
  = ({[ "reaction_type"; "occurrences"; "node_type" ]} : gset string).
Proof. unfold reaction_attrs. rewrite !dom_insert_L, dom_singleton_L. set_solver. Qed.

Lemma reaction_attrs_union rn v d :
  (d = ∅ ∨ ∃ v', d = reaction_attrs rn v') →
  reaction_attrs rn v ∪ d = reaction_attrs rn v.
Proof.
  intros [->|[v' ->]]; [by rewrite (right_id_L ∅ (∪))|].
  apply union_same_dom. by rewrite !dom_reaction_attrs.
Qed.

Lemma expression_attrs_union d :
  (d = ∅ ∨ d = expression_attrs) → expression_attrs ∪ d = expression_attrs.
Proof.
  intros [->| ->]; [by rewrite (right_id_L ∅ (∪))|]. by apply union_same_dom.
Qed.

Lemma substrate_attrs_union b d :
  (d = ∅ ∨ ∃ b', d = substrate_attrs b') →
  substrate_attrs b ∪ d = substrate_attrs b.
Proof.
  intros [->|[b' ->]]; [by rewrite (right_id_L ∅ (∪))|].
  apply union_same_dom. unfold substrate_attrs. by rewrite !dom_singleton_L.
Qed.

Lemma reaction_attrs_occurrences rn v :
  reaction_attrs rn v !! "occurrences" = Some v.
Proof. done. Qed.

Lemma reaction_attrs_node_type rn v :
  reaction_attrs rn v !! "node_type" = Some (VStr "reaction").
Proof. done. Qed.

Lemma reaction_attrs_reaction_type rn v :
  reaction_attrs rn v !! "reaction_type" = Some (VStr (rtype rn)).
Proof. done. Qed.

Lemma ensure_node_present (n : Node) (ns : gmap Node Attrs) :
  is_Some (ns !! n) → ensure_node n ns = ns.
Proof. intros [d Hd]. unfold ensure_node. by rewrite Hd. Qed.

(** *** The loops of [add_reaction] on a graph that satisfies the invariant *)

Lemma reactive_step_inv g rn x :
  built_inv g → is_Some (nodes g !! inr rn) →
  reactive_step rn g x =
  mkDiGraph (<[inl x := expression_attrs]> (nodes g))
            (<[(inl x, inr rn) :=
                 substrate_attrs (bool_decide (Some x = get_substrate rn))]>
               (edges g)).
Proof.
  intros [He _ Hed] Hrn. unfold reactive_step.
  cbn [st_add_edge st_add_node DiGraph_store].
  unfold add_edge, add_node. cbn [nodes edges]. f_equal.
  - rewrite expression_attrs_union.
    + rewrite (ensure_node_present (inl x)) by (rewrite lookup_insert_eq; eauto).
      by rewrite ensure_node_present by (by rewrite lookup_insert_ne).
    + destruct (nodes g !! inl x) as [d|] eqn:Hd; cbn [default from_option]; [right|by left].
      by eapply He.
  - f_equal. apply substrate_attrs_union.
    destruct (edges g !! (inl x, inr rn)) as [d|] eqn:Hd; cbn [default from_option]; [right|by left].
    by apply Hed in Hd as (_ & ? & _).
Qed.

Lemma product_step_inv g rn p :
  built_inv g → is_Some (nodes g !! inr rn) →
  product_step rn g p =
  mkDiGraph (<[inl p := expression_attrs]> (nodes g))
            (<[(inr rn, inl p) := substrate_attrs false]> (edges g)).
Proof.
  intros [He _ Hed] Hrn. unfold product_step.
  cbn [st_add_edge st_add_node DiGraph_store].
  unfold add_edge, add_node. cbn [nodes edges]. f_equal.
  - rewrite expression_attrs_union.
    + rewrite (ensure_node_present (inr rn)) by (by rewrite lookup_insert_ne).
      by rewrite ensure_node_present by (rewrite lookup_insert_eq; eauto).
    + destruct (nodes g !! inl p) as [d|] eqn:Hd; cbn [default from_option]; [right|by left].
      by eapply He.
  - f_equal. apply substrate_attrs_union.
    destruct (edges g !! (inr rn, inl p)) as [d|] eqn:Hd; cbn [default from_option]; [right|by left].
    by apply Hed in Hd as (_ & ? & _).
Qed.

(** Adding an expression node and an edge between it and a reaction node
    keeps the invariant. *)
Lemma built_inv_insert g x (u v : Node) b :
  built_inv g →
  (∃ rn, is_Some (nodes g !! inr rn) ∧
         ((u = inl x ∧ v = inr rn) ∨ (u = inr rn ∧ v = inl x))) →
  built_inv (mkDiGraph (<[inl x := expression_attrs]> (nodes g))
                       (<[(u, v) := substrate_attrs b]> (edges g))).
Proof.
  intros [He Hr Hed] (rn & Hrn & Huv). split; cbn.
  - intros y d. rewrite lookup_insert. case_decide; [congruence|]. apply He.
  - intros r d. rewrite lookup_insert_ne by done. apply Hr.
  - intros u' v' d. rewrite lookup_insert. case_decide as Heq.
    + injection Heq as <- <-. intros [= <-]. split_and!.
      * exists x, rn. tauto.
      * eauto.
      * rewrite dom_insert_L. destruct Huv as [[-> _]|[-> _]]; [set_solver|].
        apply elem_of_union_r. by apply elem_of_dom.
      * rewrite dom_insert_L. destruct Huv as [[_ ->]|[_ ->]]; [|set_solver].
        apply elem_of_union_r. by apply elem_of_dom.
    + intros Hd. apply Hed in Hd as (? & ? & ? & ?).
      rewrite dom_insert_L. split_and!; [done..|set_solver|set_solver].
Qed.

Lemma reactive_steps_inv g rn l :
  built_inv g → is_Some (nodes g !! inr rn) →
  built_inv (foldl (reactive_step rn) g l) ∧
  nodes (foldl (reactive_step rn) g l) !! inr rn = nodes g !! inr rn.
Proof.
  revert g. induction l as [|x l IH]; intros g Hinv Hrn; [done|].
  cbn [foldl]. rewrite reactive_step_inv by done.
  destruct (IH (mkDiGraph (<[inl x := expression_attrs]> (nodes g))
             (<[(inl x, inr rn) :=
                  substrate_attrs (bool_decide (Some x = get_substrate rn))]>
                (edges g)))) as [Hinv' Hrn'].
  - apply built_inv_insert; [done|]. exists rn. auto.
  - cbn. by rewrite lookup_insert_ne.
  - split; [done|]. rewrite Hrn'. cbn. by rewrite lookup_insert_ne.
Qed.

Lemma product_steps_inv g rn l :
  built_inv g → is_Some (nodes g !! inr rn) →
  built_inv (foldl (product_step rn) g l) ∧
  nodes (foldl (product_step rn) g l) !! inr rn = nodes g !! inr rn.
Proof.
  revert g. induction l as [|p l IH]; intros g Hinv Hrn; [done|].
  cbn [foldl]. rewrite product_step_inv by done.
  destruct (IH (mkDiGraph (<[inl p := expression_attrs]> (nodes g))
             (<[(inr rn, inl p) := substrate_attrs false]> (edges g))))
    as [Hinv' Hrn'].
  - apply built_inv_insert; [done|]. exists rn. auto.
  - cbn. by rewrite lookup_insert_ne.
  - split; [done|]. rewrite Hrn'. cbn. by rewrite lookup_insert_ne.
Qed.

Lemma built_inv_empty : built_inv (empty_graph : DiGraph).
Proof. split; cbn; intros *; by rewrite lookup_empty. Qed.

Lemma built_inv_add_reaction_node g rn (k : Z) :
  built_inv g → (1 ≤ k)%Z →
  built_inv (add_node (inr rn) (reaction_attrs rn (VInt k)) g).
Proof.
  intros [He Hr Hed] Hk. split; cbn.
  - intros x d. rewrite lookup_insert_ne by done. apply He.
  - intros r d. rewrite lookup_insert. case_decide as Heq; [|apply Hr].
    injection Heq as ->. intros [= <-]. exists k. split; [done|].
    apply reaction_attrs_union.
    destruct (nodes g !! inr r) as [d|] eqn:Hd; cbn [default from_option]; [right|by left].
    apply Hr in Hd as (k' & _ & ->). eauto.
  - intros u v d Hd. apply Hed in Hd as (? & ? & ? & ?).
    rewrite dom_insert_L. split_and!; [done..|set_solver|set_solver].
Qed.

(** The count [add_reaction] reads on a graph that satisfies the invariant. *)
Lemma get_occurrences_inv g rn :
  built_inv g →
  ∃ k : Z, (0 ≤ k)%Z ∧ get_occurrences g (inr rn) = Ok (VInt k) ∧
    (k = 0%Z ↔ nodes g !! inr rn = None) ∧
    (∀ d, nodes g !! inr rn = Some d → d = reaction_attrs rn (VInt k)).
Proof.
  intros [_ Hr _]. unfold get_occurrences, get_node_attribute.
  destruct (nodes g !! inr rn) as [d|] eqn:Hd.
  - apply Hr in Hd as (k & Hk & ->). exists k.
    rewrite reaction_attrs_occurrences. cbn.
    split_and!; [lia|done| |by intros ? [= <-]]. split; [lia|done].
  - exists 0%Z. case_decide; [done|]. split_and!; done.
Qed.

Lemma add_reaction_inv g rn :
  built_inv g →
  ∃ k : Z, (0 ≤ k)%Z ∧ get_occurrences g (inr rn) = Ok (VInt k) ∧
    add_reaction rn g =
      (foldl (product_step rn)
         (foldl (reactive_step rn)
            (add_node (inr rn) (reaction_attrs rn (VInt (k + 1))) g)
            (reactives rn))
         (products rn), Ok tt) ∧
    built_inv (add_reaction rn g).1 ∧
    nodes (add_reaction rn g).1 !! inr rn
      = Some (reaction_attrs rn (VInt (k + 1))).
Proof.
  intros Hinv. destruct (get_occurrences_inv g rn Hinv) as (k & Hk & Hocc & _ & Hd).
  exists k. rewrite add_reaction_run. cbn [snapshot DiGraph_store].
  rewrite Hocc. cbn [mbind res_bind py_add py_int st_add_node].
  split_and!; [done..| |]; cbn [fst].
  all: pose proof (built_inv_add_reaction_node g rn (k + 1) Hinv ltac:(lia)) as Ha.
  all: assert (nodes (add_node (inr rn) (reaction_attrs rn (VInt (k + 1))) g)
               !! inr rn = Some (reaction_attrs rn (VInt (k + 1)))) as Hn.
  1,3: cbn; rewrite lookup_insert_eq; f_equal; apply reaction_attrs_union;
       destruct (nodes g !! inr rn) as [d|] eqn:Hdd; cbn [default from_option]; [right|by left];
       specialize (Hd d eq_refl); eauto.
  all: destruct (reactive_steps_inv _ rn (reactives rn) Ha) as [Hb Hbn]; [by eauto|].
  all: destruct (product_steps_inv _ rn (products rn) Hb) as [Hc Hcn];
         [rewrite Hbn; by eauto|].
  - done.
  - exact (eq_trans Hcn (eq_trans Hbn Hn)).
Qed.

Lemma built_snoc rs rn : built (rs ++ [rn]) = (add_reaction rn (built rs)).1.
Proof. unfold built. by rewrite foldl_snoc. Qed.

Lemma built_built_inv rs : built_inv (built rs).
Proof.
  induction rs as [|rn rs IH] using rev_ind; [apply built_inv_empty|].
  rewrite built_snoc. by destruct (add_reaction_inv (built rs) rn IH) as (? & ? & ? & ? & ? & ?).
Qed.

End build_facts.

(** *** Writing a list of entries *)

Section insert_all_facts.
Context `{Countable K} {V : Type}.
Implicit Types (kvs : list (K * V)) (m : gmap K V).

Lemma insert_all_snoc kvs kv m :
  insert_all (kvs ++ [kv]) m = <[kv.1 := kv.2]> (insert_all kvs m).
Proof. unfold insert_all. by rewrite foldl_snoc. Qed.

Lemma insert_all_app kvs1 kvs2 m :
  insert_all (kvs1 ++ kvs2) m = insert_all kvs2 (insert_all kvs1 m).
Proof. unfold insert_all. by rewrite foldl_app. Qed.

Lemma insert_all_lookup_notin kvs m i :
  i ∉ kvs.*1 → insert_all kvs m !! i = m !! i.
Proof.
  induction kvs as [|kv kvs IH] using rev_ind; intros Hi; [done|].
  rewrite insert_all_snoc. rewrite fmap_app in Hi.
  rewrite lookup_insert_ne by set_solver. apply IH. set_solver.
Qed.

(** When equal keys come with equal values, any entry of the list is what
    the dictionary holds for its key. *)
Lemma insert_all_lookup_in kvs m i v :
  (∀ i v1 v2, (i, v1) ∈ kvs → (i, v2) ∈ kvs → v1 = v2) →
  (i, v) ∈ kvs → insert_all kvs m !! i = Some v.
Proof.
  induction kvs as [|kv kvs IH] using rev_ind; intros Hfun Hi.
  - by apply elem_of_nil in Hi.
  - rewrite insert_all_snoc. rewrite lookup_insert. case_decide as Hk.
    + f_equal. apply (Hfun i); [|done]. subst i.
      destruct kv. set_solver.
    + apply IH.
      * intros j v1 v2 ??. apply (Hfun j); set_solver.
      * apply elem_of_app in Hi as [?|Hi]; [done|].
        apply list_elem_of_singleton in Hi. subst kv. done.
Qed.

Lemma insert_all_dom kvs m :
  dom (insert_all kvs m) = list_to_set kvs.*1 ∪ dom m.
Proof.
  induction kvs as [|kv kvs IH] using rev_ind; [set_solver|].
  rewrite insert_all_snoc, dom_insert_L, IH, fmap_app, list_to_set_app_L.
  set_solver.
Qed.

(** Writing the same entries again changes nothing. *)
Lemma insert_all_again kvs m m' :
  (∀ i v1 v2, (i, v1) ∈ kvs → (i, v2) ∈ kvs → v1 = v2) →
  (∀ i, i ∉ kvs.*1 → m' !! i = m !! i) →
  insert_all kvs m' = insert_all kvs m.
Proof.
  intros Hfun Hm. apply map_eq. intros i.
  destruct (decide (i ∈ kvs.*1)) as [Hi|Hi].
  - apply list_elem_of_fmap in Hi as ([j v] & -> & Hi).
    by rewrite !(insert_all_lookup_in _ _ j v).
  - rewrite !insert_all_lookup_notin by done. by apply Hm.
Qed.
End insert_all_facts.

Section closed_form.
Context `{ReactionModel Expr Reaction} `{!ExpressionModel Expr}.
Local Abbreviation Node := (Node Expr Reaction).
Local Abbreviation DiGraph := (DiGraph Expr Reaction).
Implicit Types (g : DiGraph) (rn : Reaction) (x p : Expr) (d : Attrs).

Lemma reactive_steps_closed g rn l :
  built_inv g → is_Some (nodes g !! inr rn) →
  foldl (reactive_step rn) g l =
  mkDiGraph
    (insert_all ((λ x, (inl x, expression_attrs)) <$> l) (nodes g))
    (insert_all ((λ x, ((inl x, inr rn),
        substrate_attrs (bool_decide (Some x = get_substrate rn)))) <$> l)
       (edges g)).
Proof.
  induction l as [|x l IH] using rev_ind; intros Hinv Hrn; [by destruct g|].
  rewrite foldl_snoc, !fmap_app, !insert_all_app.
  destruct (reactive_steps_inv g rn l Hinv Hrn) as [Hinv' Hrn'].
  rewrite reactive_step_inv; [|done|by rewrite Hrn'].
  by rewrite IH.
Qed.

Lemma product_steps_closed g rn l :
  built_inv g → is_Some (nodes g !! inr rn) →
  foldl (product_step rn) g l =
  mkDiGraph
    (insert_all ((λ p, (inl p, expression_attrs)) <$> l) (nodes g))
    (insert_all ((λ p, ((inr rn, inl p), substrate_attrs false)) <$> l)
       (edges g)).
Proof.
  induction l as [|x l IH] using rev_ind; intros Hinv Hrn; [by destruct g|].
  rewrite foldl_snoc, !fmap_app, !insert_all_app.
  destruct (product_steps_inv g rn l Hinv Hrn) as [Hinv' Hrn'].
  rewrite product_step_inv; [|done|by rewrite Hrn'].
  by rewrite IH.
Qed.

(** What a call of [add_reaction] that finds the count [k] leaves. *)
Lemma add_reaction_closed g rn :
  built_inv g →
  ∃ k : Z, (0 ≤ k)%Z ∧ get_occurrences g (inr rn) = Ok (VInt k) ∧
    add_reaction rn g =
      (mkDiGraph
         (insert_all (reaction_exprs rn)
            (<[inr rn := reaction_attrs rn (VInt (k + 1))]> (nodes g)))
         (insert_all (reaction_edges rn) (edges g)), Ok tt).
Proof.
  intros Hinv.
  destruct (add_reaction_inv g rn Hinv) as (k & Hk & Hocc & Hrun & _ & _).
  destruct (get_occurrences_inv g rn Hinv) as (k' & _ & Hocc' & _ & Hd).
  assert (k' = k) as -> by congruence.
  exists k. split_and!; [done..|]. rewrite Hrun. f_equal.
  pose proof (built_inv_add_reaction_node g rn (k + 1) Hinv ltac:(lia)) as Ha.
  assert (nodes (add_node (inr rn) (reaction_attrs rn (VInt (k + 1))) g)
          = <[inr rn := reaction_attrs rn (VInt (k + 1))]> (nodes g)) as Hn.
  { unfold add_node. cbn [nodes]. f_equal. apply reaction_attrs_union.
    destruct (nodes g !! inr rn) as [d|] eqn:Hdd; cbn [default from_option];
      [right|by left]. specialize (Hd d eq_refl). eauto. }
  assert (is_Some (nodes (add_node (inr rn)
            (reaction_attrs rn (VInt (k + 1))) g) !! inr rn)) as Hs.
  { rewrite Hn, lookup_insert_eq. eauto. }
  destruct (reactive_steps_inv _ rn (reactives rn) Ha Hs) as [Hb Hbn].
  rewrite product_steps_closed; [|done|by rewrite Hbn].
  rewrite reactive_steps_closed by done. cbn [nodes edges]. rewrite Hn.
  unfold reaction_exprs, reaction_edges.
  by rewrite !fmap_app, !insert_all_app.
Qed.

Lemma reaction_edges_functional rn (e : Node * Node) (v1 v2 : Attrs) :
  (e, v1) ∈ reaction_edges rn → (e, v2) ∈ reaction_edges rn → v1 = v2.
Proof.
  unfold reaction_edges. rewrite !elem_of_app, !list_elem_of_fmap.
  intros [(x & [= -> ->] & _)|(x & [= -> ->] & _)]
         [(y & [= <-] & _)|(y & [=] & _)]; done.
Qed.

Lemma reaction_exprs_functional rn (n : Node) (v1 v2 : Attrs) :
  (n, v1) ∈ reaction_exprs rn → (n, v2) ∈ reaction_exprs rn → v1 = v2.
Proof.
  unfold reaction_exprs. rewrite !list_elem_of_fmap.
  intros (x & [= -> ->] & _) (y & [= _ ->] & _). done.
Qed.

Lemma reaction_exprs_keys rn (n : Node) :
  n ∈ (reaction_exprs rn).*1 → ∃ x, n = inl x.
Proof.
  unfold reaction_exprs. rewrite <- list_fmap_compose, list_elem_of_fmap.
  intros (x & -> & _). by exists x.
Qed.

(** The graph after [k] submissions of one reaction to an empty graph. *)
Lemma built_replicate rn (k : nat) :
  1 ≤ k →
  built (replicate k rn) =
  mkDiGraph
    (insert_all (reaction_exprs rn)
       {[ inr rn := reaction_attrs rn (VInt (Z.of_nat k)) ]})
    (insert_all (reaction_edges rn) ∅).
Proof.
  induction k as [|k IH]; intros Hk; [lia|].
  rewrite replicate_S_end, built_snoc.
  destruct (add_reaction_closed (built (replicate k rn)) rn
              (built_built_inv _)) as (o & Ho & Hocc & ->).
  cbn [fst]. destruct (decide (k = 0)) as [->|Hk0].
  - cbn in Hocc. injection Hocc as <-. cbn [replicate built foldl].
    cbn [empty_graph nodes edges]. by rewrite insert_empty.
  - rewrite IH in Hocc |- * by lia. cbn [nodes edges].
    assert (o = Z.of_nat k) as ->.
    { unfold get_occurrences, get_node_attribute in Hocc. cbn [nodes] in Hocc.
      rewrite insert_all_lookup_notin in Hocc.
      - rewrite lookup_singleton_eq in Hocc.
        rewrite reaction_attrs_occurrences in Hocc. cbn in Hocc. congruence.
      - intros (x & [=])%reaction_exprs_keys. }
    replace (Z.of_nat k + 1)%Z with (Z.of_nat (S k)) by lia. f_equal.
    + apply insert_all_again; [apply reaction_exprs_functional|].
      intros i Hi. rewrite lookup_insert. case_decide as Hir.
      * subst i. by rewrite lookup_singleton_eq.
      * rewrite insert_all_lookup_notin by done.
        by rewrite !lookup_singleton_ne.
    + apply insert_all_again; [apply reaction_edges_functional|].
      intros i Hi. by rewrite insert_all_lookup_notin.
Qed.

End closed_form.

Section removal_facts.
Context `{ReactionModel Expr Reaction} `{!ExpressionModel Expr}.
Local Abbreviation Node := (Node Expr Reaction).
Local Abbreviation DiGraph := (DiGraph Expr Reaction).
Implicit Types (g : DiGraph) (rn : Reaction) (x p : Expr) (d : Attrs) (n : Node).

Lemma built_inv_edges_closed g : built_inv g → edges_closed g.
Proof.
  intros [_ _ Hed] u v [d Hd]%elem_of_dom.
  by apply Hed in Hd as (_ & _ & ? & ?).
Qed.

Lemma edges_closed_remove_node g n :
  edges_closed g → edges_closed (remove_node n g).
Proof.
  intros Hcl u v. unfold remove_node. cbn [nodes edges].
  intros [d Hd]%elem_of_dom. apply map_lookup_filter_Some in Hd as [Hd [Hu Hv]].
  cbn in Hu, Hv. destruct (Hcl u v) as [??]; [by apply elem_of_dom|].
  rewrite dom_delete_L. set_solver.
Qed.

Lemma remove_node_absent g n :
  edges_closed g → n ∉ dom (nodes g) → remove_node n g = g.
Proof.
  intros Hcl Hn. destruct g as [ns es]. unfold remove_node. cbn [nodes edges] in *.
  f_equal.
  - apply delete_id. by apply not_elem_of_dom.
  - apply map_filter_id. intros [u v] d Hd. cbn.
    destruct (Hcl u v) as [??]; [by apply elem_of_dom|]. cbn in *.
    split; congruence.
Qed.

Lemma without_nodes_empty g : without_nodes ∅ g = g.
Proof.
  destruct g as [ns es]. unfold without_nodes. cbn [nodes edges]. f_equal.
  - apply map_filter_id. set_solver.
  - apply map_filter_id. set_solver.
Qed.

Lemma remove_node_without_nodes g n (ns : gset Node) :
  remove_node n (without_nodes ns g) = without_nodes (ns ∪ {[n]}) g.
Proof.
  unfold remove_node, without_nodes. cbn [nodes edges]. f_equal.
  - apply map_eq. intros i. rewrite lookup_delete.
    case_decide as Hi.
    + subst i. symmetry. apply map_lookup_filter_None. right. intros d _.
      cbn. set_solver.
    + destruct (nodes g !! i) as [d|] eqn:Hd.
      * destruct (decide (i ∈ ns)).
        -- rewrite !map_lookup_filter_None_2; [done|right|right];
             intros ? _; cbn; set_solver.
        -- rewrite !(map_lookup_filter_Some_2 _ _ i d); [done|done|..];
             cbn; set_solver.
      * rewrite !map_lookup_filter_None_2; [done|by left|by left].
  - rewrite map_filter_filter. apply map_filter_ext. intros [u v] d _. cbn.
    set_solver.
Qed.

Lemma remove_nodes_fold g (l : list Node) (ns : gset Node) :
  foldl (λ g' n, remove_node n g') (without_nodes ns g) l
  = without_nodes (ns ∪ list_to_set l) g.
Proof.
  revert ns. induction l as [|n l IH]; intros ns.
  - cbn. f_equal. set_solver.
  - cbn [foldl]. rewrite remove_node_without_nodes, IH. f_equal.
    rewrite list_to_set_cons. set_solver.
Qed.

Lemma remove_present_fold g (l : list Node) :
  edges_closed g →
  foldl (λ g' n, if bool_decide (n ∈ dom (nodes g'))
                 then remove_node n g' else g') g l
  = foldl (λ g' n, remove_node n g') g l.
Proof.
  revert g. induction l as [|n l IH]; intros g Hcl; [done|].
  cbn [foldl]. case_bool_decide as Hn.
  - apply IH. by apply edges_closed_remove_node.
  - rewrite remove_node_absent by done. by apply IH.
Qed.

Lemma remove_nodes_from_run g (l : list Node) :
  edges_closed g →
  m_remove_nodes_from l g = (without_nodes (list_to_set l) g, Ok tt).
Proof.
  intros Hcl. unfold m_remove_nodes_from.
  rewrite (for_each_write _
    (λ g' n, if bool_decide (n ∈ dom (nodes g')) then remove_node n g' else g')).
  - rewrite remove_present_fold by done.
    rewrite <- (without_nodes_empty g) at 1.
    rewrite remove_nodes_fold. do 2 f_equal. set_solver.
  - intros n g'. unfold mbind, M_bind, m_bind, m_read.
    cbn [snapshot DiGraph_store]. by case_bool_decide.
Qed.

Lemma built_inv_well_tagged g : built_inv g → well_tagged g.
Proof.
  intros Hinv. split; [by apply built_inv_edges_closed|].
  destruct Hinv as [He Hr _]. intros [x|rn] d Hd; cbn.
  - by apply He in Hd as ->.
  - by apply Hr in Hd as (k & _ & ->).
Qed.

(** On a well-tagged graph the selection of [remove_selfloop] does not
    raise. *)
Lemma selfloop_cond_tagged g n d :
  well_tagged g → nodes g !! n = Some d →
  selfloop_cond n d = Ok (is_selfloop n).
Proof.
  intros [_ Htag] Hd. apply Htag in Hd. unfold selfloop_cond, attr.
  cbn in Hd. rewrite Hd. by destruct n.
Qed.

Lemma get_nodes_Ok g (cond : Node → Attrs → res bool) (f : Node → bool) :
  (∀ n d, nodes g !! n = Some d → cond n d = Ok (f n)) →
  ∃ l, get_nodes cond g = Ok l ∧ NoDup l ∧
       ∀ n, n ∈ l ↔ n ∈ dom (nodes g) ∧ f n = true.
Proof.
  intros Hc. unfold get_nodes.
  rewrite (filter_res_Ok _ (λ nd, f nd.1)).
  - eexists. split; [done|]. split.
    + apply NoDup_fmap_fst.
      * intros n d1 d2 [_ Hd1]%list_elem_of_filter [_ Hd2]%list_elem_of_filter.
        apply elem_of_map_to_list in Hd1, Hd2. congruence.
      * apply list.NoDup_filter, NoDup_map_to_list.
    + intros n. rewrite list_elem_of_fmap. split.
      * intros ([n' d] & -> & [Hf Hd%elem_of_map_to_list]%list_elem_of_filter).
        cbn in *. split; [|done]. apply elem_of_dom. eauto.
      * intros [[d Hd]%elem_of_dom Hf]. exists (n, d). split; [done|].
        apply list_elem_of_filter. split; [done|]. by apply elem_of_map_to_list.
  - intros [n d] Hnd%elem_of_map_to_list. cbn. by apply Hc.
Qed.

Lemma remove_selfloop_tagged g :
  well_tagged g →
  remove_selfloop g =
  (mkDiGraph
     (filter (λ nd, is_selfloop nd.1 = false) (nodes g))
     (filter (λ e, is_selfloop e.1.1 = false ∧ is_selfloop e.1.2 = false)
        (edges g)), Ok tt).
Proof.
  intros Htag. pose proof (proj1 Htag) as Hcl.
  unfold remove_selfloop, mbind, M_bind, m_bind, m_read.
  cbn [snapshot DiGraph_store].
  destruct (get_nodes_Ok g selfloop_cond is_selfloop) as (l & -> & _ & Hl).
  { intros n d. by apply selfloop_cond_tagged. }
  rewrite remove_nodes_from_run by done.
  f_equal. unfold without_nodes. f_equal.
  - apply map_filter_ext. intros n d Hd. cbn.
    rewrite elem_of_list_to_set, elem_of_elements, elem_of_list_to_set, Hl.
    assert (n ∈ dom (nodes g)) by (apply elem_of_dom; eauto).
    destruct (is_selfloop n); naive_solver.
  - apply map_filter_ext. intros [u v] d Hd. cbn.
    rewrite !elem_of_list_to_set, !elem_of_elements, !elem_of_list_to_set, !Hl.
    destruct (Hcl u v) as [??]; [apply elem_of_dom; eauto|].
    destruct (is_selfloop u), (is_selfloop v); naive_solver.
Qed.

End removal_facts.

Section graph_properties.
Context `{ReactionModel Expr Reaction} `{!ExpressionModel Expr}.
Local Abbreviation Node := (Node Expr Reaction).
Local Abbreviation DiGraph := (DiGraph Expr Reaction).
Implicit Types (g : DiGraph) (rn : Reaction) (d : Attrs) (n : Node).

Lemma map_res_total {A B} (f : A → res B) (l : list A) :
  (∀ x, x ∈ l → ∃ y, f x = Ok y) → ∃ l', map_res f l = Ok l'.
Proof.
  induction l as [|x l IH]; intros Hf; [by eexists|].
  destruct (Hf x) as [y Hy]; [by left|].
  destruct IH as [l' Hl']; [intros; apply Hf; by right|].
  exists (y :: l'). cbn. by rewrite Hy, Hl'.
Qed.

Lemma reducing_cond_inv g n d :
  built_inv g → nodes g !! n = Some d →
  reducing_cond n d =
  Ok (match n with
      | inr rn => bool_decide (rtype rn = "reduce")
      | inl _ => false
      end).
Proof.
  intros [He Hr _] Hd. destruct n as [x|rn].
  - apply He in Hd as ->. done.
  - apply Hr in Hd as (k & _ & ->). done.
Qed.

(** On a graph that satisfies the invariant the solver returns. *)
Lemma get_raf_inv g food : built_inv g → ∃ raf, get_raf g food = Ok raf.
Proof.
  intros Hinv.
  destruct (get_nodes_Ok g reducing_cond
    (λ n, match n with
          | inr rn => bool_decide (rtype rn = "reduce")
          | inl _ => false
          end)) as (l & Hl & _ & Hmem).
  { intros n d. by apply reducing_cond_inv. }
  assert (get_all_reducing_reactions g = Ok (list_to_set l)) as Hred.
  { unfold get_all_reducing_reactions. by rewrite Hl. }
  destruct (map_res_total as_reaction (elements (list_to_set l : gset Node)))
    as [l' Hl'].
  { intros n [Hn Hf]%elem_of_elements%elem_of_list_to_set%Hmem.
    destruct n as [x|rn]; [done|]. by exists rn. }
  eapply get_raf_total; [done|]. unfold as_reactions. by rewrite Hl'.
Qed.

(** ** The RAF solver *)

(** C1: whenever [get_raf] returns a set, every reactive of every reaction
    of that set is in the closure of the food set under the reduce-type
    reactions of the graph, or is a product of a reaction of the set. *)
Theorem get_raf_reactives_supplied g (food : gset Expr) (raf : gset Reaction) :
  get_raf g food = Ok raf →
  ∃ reductions food_cl,
    get_all_reducing_reactions g ≫= as_reactions = Ok reductions ∧
    get_set_closure food (elements reductions) = Some food_cl ∧
    ∀ r x, r ∈ raf → x ∈ reactives r →
      x ∈ food_cl ∨ ∃ r', r' ∈ raf ∧ x ∈ products r'.
Proof.
  intros (nodes_red & reductions & food_cl & Hn & Hr & Hcl & Hfix & _)%get_raf_Ok.
  exists reductions, food_cl. split_and!; [by rewrite Hn|done|].
  intros r x Hr' Hx. rewrite <- Hfix in Hr'.
  apply raf_step_elem in Hr' as (_ & Hall & _).
  rewrite all_reactives_produced_true in Hall.
  destruct (Hall x Hx) as [?|Hp]; [by left|right].
  by apply elem_of_all_products.
Qed.

(** C8: a reaction without products is never in the set [get_raf] returns,
    and on every graph built by [add_reaction], whatever the reactions
    submitted, [get_raf] returns a set. *)
Theorem get_raf_drops_empty_products (food : gset Expr) :
  (∀ g raf r, get_raf g food = Ok raf → r ∈ raf → products r ≠ []) ∧
  (∀ rs : list Reaction, ∃ raf, get_raf (built rs) food = Ok raf).
Proof.
  split.
  - intros g raf r (nr & reds & food_cl & _ & _ & _ & Hfix & _)%get_raf_Ok Hr.
    rewrite <- Hfix in Hr. apply raf_step_elem in Hr as (_ & _ & Hnt).
    apply product_non_trivial_true in Hnt as (x & Hx & _).
    intros Hnil. rewrite Hnil in Hx. by apply elem_of_nil in Hx.
  - intros rs. apply get_raf_inv, built_built_inv.
Qed.

(** ** Building the graph *)

(** C3: in a graph built from the empty graph by calls of [add_reaction],
    every edge joins a node of type expression and a node of type
    reaction. *)
Theorem add_reaction_bipartite (rs : list Reaction) (u v : Node) :
  (u, v) ∈ dom (edges (built rs)) →
  (node_type_of (built rs) u = Some (VStr "expression") ∧
   node_type_of (built rs) v = Some (VStr "reaction")) ∨
  (node_type_of (built rs) u = Some (VStr "reaction") ∧
   node_type_of (built rs) v = Some (VStr "expression")).
Proof.
  destruct (built_built_inv rs) as [He Hr Hed].
  intros [d Hd]%elem_of_dom.
  apply Hed in Hd as ((x & rn & Huv) & _ & [du Hu]%elem_of_dom & [dv Hv]%elem_of_dom).
  unfold node_type_of. rewrite Hu, Hv. cbn [mbind option_bind].
  destruct Huv as [[-> ->]|[-> ->]]; [left|right].
  - apply He in Hu as ->. by apply Hr in Hv as (k & _ & ->).
  - apply He in Hv as ->. by apply Hr in Hu as (k & _ & ->).
Qed.

(** C4: submitting a reaction [k >= 1] times to an empty graph gives the
    nodes, the edges and the attributes that submitting it once gives,
    except that the reaction node's [occurrences] is [k], which is what
    [get_occurrences] returns. *)
Theorem add_reaction_repeated rn (k : nat) :
  1 ≤ k →
  let g1 := built [rn] in
  let gk := built (replicate k rn) in
  dom (nodes gk) = dom (nodes g1) ∧
  edges gk = edges g1 ∧
  (∀ n, n ≠ inr rn → nodes gk !! n = nodes g1 !! n) ∧
  (∃ d1, nodes g1 !! inr rn = Some d1 ∧
         nodes gk !! inr rn
         = Some (<["occurrences" := VInt (Z.of_nat k)]> d1)) ∧
  get_occurrences gk (inr rn) = Ok (VInt (Z.of_nat k)).
Proof.
  intros Hk g1 gk. subst g1 gk.
  rewrite (built_replicate rn k Hk).
  change [rn] with (replicate 1 rn). rewrite (built_replicate rn 1) by lia.
  cbn [nodes edges].
  assert (∀ j : Z, insert_all (reaction_exprs rn)
            ({[inr rn := reaction_attrs rn (VInt j)]} : gmap Node Attrs)
            !! inr rn = Some (reaction_attrs rn (VInt j))) as Hrn.
  { intros j. rewrite insert_all_lookup_notin.
    - apply lookup_singleton_eq.
    - intros (x & [=])%reaction_exprs_keys. }
  split_and!.
  - by rewrite !insert_all_dom, !dom_singleton_L.
  - done.
  - intros n Hn. destruct (decide (n ∈ (reaction_exprs rn).*1)) as [Hin|Hin].
    + apply list_elem_of_fmap in Hin as ([n' d] & -> & Hin).
      rewrite !(insert_all_lookup_in _ _ n' d); auto.
      all: intros ???; apply reaction_exprs_functional.
    + rewrite !insert_all_lookup_notin by done.
      by rewrite !lookup_singleton_ne.
  - exists (reaction_attrs rn (VInt (Z.of_nat 1))). split; [apply Hrn|].
    rewrite Hrn. apply (f_equal Some). unfold reaction_attrs.
    apply map_eq. intros i. rewrite !lookup_insert.
    repeat case_decide; simplify_eq; done.
  - unfold get_occurrences, get_node_attribute. cbn [nodes].
    by rewrite Hrn, reaction_attrs_occurrences.
Qed.

(** ** Attribute lookup *)

(** A node of the graph that lacks the attribute: the view answers [None],
    with or without a default. *)
Lemma get_node_attribute_missing g n (attribute : string) (dflt : Val) d :
  nodes g !! n = Some d → d !! attribute = None →
  get_node_attribute g n attribute dflt = Ok VNone.
Proof. unfold get_node_attribute. by intros -> ->. Qed.

(** C6, as the code has it: a node that is not in the graph raises
    [KeyError] when no default is supplied and yields the default when one
    is; for a node of the graph that has the attribute, the stored value is
    returned. *)
Theorem get_node_attribute_cases g n (attribute : string) (dflt : Val) :
  (nodes g !! n = None → dflt = VNone →
     get_node_attribute g n attribute dflt = Raise KeyError) ∧
  (nodes g !! n = None → dflt ≠ VNone →
     get_node_attribute g n attribute dflt = Ok dflt) ∧
  (∀ d v, nodes g !! n = Some d → d !! attribute = Some v →
     get_node_attribute g n attribute dflt = Ok v).
Proof.
  unfold get_node_attribute. split_and!.
  - intros -> ->. done.
  - intros -> ?. by case_decide.
  - by intros d v -> ->.
Qed.

(** ** Removing no-op reactions *)

(** C7, as the code has it: on a well-tagged graph [remove_selfloop]
    removes exactly the reaction nodes whose list of reactives is equal to
    their list of products, with the edges that touch them, and leaves
    every other node and edge as it is. *)
Theorem remove_selfloop_equal_lists g :
  well_tagged g →
  remove_selfloop g =
  (mkDiGraph
     (filter (λ nd, is_selfloop nd.1 = false) (nodes g))
     (filter (λ e, is_selfloop e.1.1 = false ∧ is_selfloop e.1.2 = false)
        (edges g)), Ok tt).
Proof. apply remove_selfloop_tagged. Qed.

End graph_properties.

Import Sample.

Lemma get_raf_reactives_supplied_witness :
  ∃ reductions food_cl,
    get_all_reducing_reactions (built [r1; r2]) ≫= as_reactions
      = Ok reductions ∧
    get_set_closure {["B"]} (elements reductions) = Some food_cl ∧
    ∀ r x, r ∈ ({[r1; r2]} : gset Reaction) → x ∈ reactives r →
      x ∈ food_cl ∨ ∃ r', r' ∈ ({[r1; r2]} : gset Reaction) ∧ x ∈ products r'.
Proof.
  apply (get_raf_reactives_supplied (built [r1; r2]) {["B"]} {[r1; r2]}).
  compute_done.
Defined.

Lemma get_raf_drops_empty_products_witness :
  get_raf (built [r1; r2; r_decay; r_spawn]) ∅ = Ok {[r1; r2]} ∧
  products r1 ≠ [].
Proof.
  assert (get_raf (built [r1; r2; r_decay; r_spawn]) ∅ = Ok {[r1; r2]}) as Hraf
    by compute_done.
  split; [exact Hraf|].
  apply (proj1 (get_raf_drops_empty_products ∅) _ {[r1; r2]} r1 Hraf).
  compute_done.
Defined.

Lemma add_reaction_bipartite_witness :
  (node_type_of (built [r1; r2]) (inl "A") = Some (VStr "expression") ∧
   node_type_of (built [r1; r2]) (inr r1) = Some (VStr "reaction")) ∨
  (node_type_of (built [r1; r2]) (inl "A") = Some (VStr "reaction") ∧
   node_type_of (built [r1; r2]) (inr r1) = Some (VStr "expression")).
Proof.
  apply (add_reaction_bipartite [r1; r2] (inl "A") (inr r1)).
  compute_done.
Defined.

Lemma add_reaction_repeated_witness :
  get_occurrences (built (replicate 3 r1)) (inr r1) = Ok (VInt 3) ∧
  edges (built (replicate 3 r1)) = edges (built [r1]).
Proof.
  destruct (add_reaction_repeated r1 3 ltac:(lia)) as (_ & He & _ & _ & Ho).
  split; [exact Ho|exact He].
Defined.

Lemma get_node_attribute_cases_witness :
  get_node_attribute (built [r1]) (inr r2) "occurrences" VNone
    = Raise KeyError ∧
  get_node_attribute (built [r1]) (inr r2) "occurrences" (VInt 0)
    = Ok (VInt 0) ∧
  get_node_attribute (built [r1]) (inr r1) "occurrences" (VInt 0)
    = Ok (VInt 1).
Proof.
  split_and!.
  - apply (get_node_attribute_cases (built [r1]) (inr r2) "occurrences" VNone);
      compute_done.
  - apply (get_node_attribute_cases (built [r1]) (inr r2) "occurrences" (VInt 0));
      compute_done.
  - apply (proj2 (proj2 (get_node_attribute_cases (built [r1]) (inr r1)
                           "occurrences" (VInt 0)))
             (reaction_attrs r1 (VInt 1))); compute_done.
Defined.

Lemma remove_selfloop_equal_lists_witness :
  dom (nodes (remove_selfloop (built [r1; r_idle; r_swap])).1)
  = {[ inl "A"; inl "B"; inl "C"; inr r1; inr r_swap ]}.
Proof.
  rewrite (remove_selfloop_equal_lists (built [r1; r_idle; r_swap]))
    by compute_done.
  compute_done.
Defined.

(** C6 as stated fails for an expression node, which has no [occurrences]:
    with no default nothing is raised. *)
Lemma get_node_attribute_not_found_fails :
  ¬ get_node_attribute_not_found (built [r1]) (inl "A") "occurrences" VNone.
Proof.
  intros (Hraise & _ & _).
  assert (get_node_attribute (built [r1]) (inl "A") "occurrences" VNone
          = Ok VNone) as Hok by compute_done.
  rewrite Hraise in Hok; [discriminate Hok| |done].
  right. exists expression_attrs. split; compute_done.
Qed.

(** C7 as stated fails for [B + A -> A + B]: the products are a permutation
    of the reactives, and the reaction stays. *)
Lemma remove_selfloop_multiset_fails :
  ¬ remove_selfloop_multiset (built [r_swap]).
Proof.
  intros Hc. specialize (Hc r_swap).
  assert (inr r_swap ∈ dom (nodes (built [r_swap]))) as Hin by compute_done.
  apply Hc in Hin. apply Hin.
  - apply (Permutation_swap "A" "B" []).
  - compute_done.
Qed.

(** ** Shortest paths and cycles *)

Section cycle_facts.
Context `{ReactionModel Expr Reaction} `{!ExpressionModel Expr}.
Local Abbreviation Node := (Node Expr Reaction).
Local Abbreviation DiGraph := (DiGraph Expr Reaction).
Implicit Types (g : DiGraph) (n m : Node) (paths : gmap Node nat)
  (level : gset Node).

Lemma elem_of_successors g n m :
  m ∈ successors g n ↔ (n, m) ∈ dom (edges g).
Proof.
  unfold successors. rewrite elem_of_map. split.
  - intros ([u v] & -> & [Hu He]%elem_of_filter). cbn in *. by subst u.
  - intros He. exists (n, m). split; [done|]. by apply elem_of_filter.
Qed.

Lemma elem_of_predecessors g n m :
  m ∈ predecessors g n ↔ (m, n) ∈ dom (edges g).
Proof.
  unfold predecessors. rewrite elem_of_map. split.
  - intros ([u v] & -> & [Hu He]%elem_of_filter). cbn in *. by subst v.
  - intros He. exists (m, n). split; [done|]. by apply elem_of_filter.
Qed.

Lemma walk_inv_0 g n m : walk g n m 0 → m = n.
Proof. by inversion 1. Qed.

Lemma walk_inv_S g n p k :
  walk g n p (S k) → ∃ m, walk g n m k ∧ (m, p) ∈ dom (edges g).
Proof. inversion 1; subst. eauto. Qed.

Lemma walk_in_nodes g n m k :
  edges_closed g → n ∈ dom (nodes g) → walk g n m k → m ∈ dom (nodes g).
Proof.
  intros Hcl Hn. induction 1 as [|n m p k _ _ He]; [done|].
  by apply Hcl in He as [_ ?].
Qed.

(** *** One level of the search *)

Lemma bfs_inv_start g n : bfs_inv g n {[ n := 1 ]} {[ n ]} 0.
Proof.
  split.
  - intros m x [<- <-]%lookup_singleton_Some. exists 0.
    split_and!; [done|constructor|done].
  - intros m j Hw Hj. assert (j = 0) as -> by lia.
    apply walk_inv_0 in Hw as ->. exists 0. by rewrite lookup_singleton_eq.
  - intros m. rewrite elem_of_singleton, lookup_singleton_Some. naive_solver.
Qed.

Lemma bfs_inv_step g n paths level k :
  bfs_inv g n paths level k →
  let found : gset Node :=
    filter (λ w, paths !! w = None) (⋃ (successors g <$> elements level)) in
  bfs_inv g n (gset_to_gmap (S (S k)) found ∪ paths) found (S k) ∧
  dom (gset_to_gmap (S (S k)) found ∪ paths) = found ∪ dom paths ∧
  found ## dom paths.
Proof.
  intros [Hsound Hcomplete Hlevel] found.
  assert (∀ w, w ∈ found ↔
    paths !! w = None ∧ ∃ v, paths !! v = Some (S k) ∧ (v, w) ∈ dom (edges g))
    as Hfound.
  { intros w. unfold found. rewrite elem_of_filter, elem_of_union_list.
    split.
    - intros (Hnone & X & (v & -> & Hv%elem_of_elements)%list_elem_of_fmap & Hw).
      split; [done|]. exists v. split; [by apply Hlevel|].
      by apply elem_of_successors.
    - intros (Hnone & v & Hv & He). split; [done|].
      exists (successors g v). split; [|by apply elem_of_successors].
      apply list_elem_of_fmap. exists v. split; [done|].
      by apply elem_of_elements, Hlevel. }
  assert (∀ m, (gset_to_gmap (S (S k)) found ∪ paths) !! m =
     if decide (m ∈ found) then Some (S (S k)) else paths !! m) as Hlook.
  { intros m. rewrite lookup_union, lookup_gset_to_gmap.
    case_decide as Hm.
    - rewrite option_guard_True by done. by destruct (paths !! m).
    - rewrite option_guard_False by done. by destruct (paths !! m). }
  split_and!.
  - split.
    + intros m x. rewrite Hlook. case_decide as Hm.
      * intros [= <-]. apply Hfound in Hm as (_ & v & Hv & He).
        apply Hsound in Hv as (d & [= <-] & Hw & _).
        exists (S k). split_and!; [done| |done]. by econstructor.
      * intros (d & -> & Hw & Hd)%Hsound. exists d. split_and!; [done..|lia].
    + intros m j Hw Hj. rewrite Hlook.
      destruct (decide (j ≤ k)) as [Hjk|Hjk].
      * destruct (Hcomplete m j Hw Hjk) as (d & Hd & Hp).
        exists d. split; [done|]. case_decide as Hm; [|done].
        apply Hfound in Hm as [Hnone _]. congruence.
      * assert (j = S k) as -> by lia.
        apply walk_inv_S in Hw as (m0 & Hw0 & He).
        destruct (Hcomplete m0 k Hw0) as (d0 & Hd0 & Hp0); [done|].
        destruct (paths !! m) as [x|] eqn:Hpm.
        -- rewrite decide_False by (intros [? _]%Hfound; congruence).
           apply Hsound in Hpm as (d & -> & _ & Hd). exists d.
           split; [lia|done].
        -- destruct (decide (d0 = k)) as [->|Hne].
           ++ rewrite decide_True by (apply Hfound; eauto). eauto.
           ++ apply Hsound in Hp0 as (d0' & [= <-] & Hw0' & _).
              destruct (Hcomplete m (S d0)) as (d & _ & Hp);
                [by econstructor|lia|congruence].
    + intros m. rewrite Hlook. case_decide as Hm; [done|].
      split; [done|]. intros (d & [= <-] & _ & Hd)%Hsound. lia.
  - rewrite dom_union_L, dom_gset_to_gmap. done.
  - intros m [Hnone _]%Hfound [x Hx]%elem_of_dom. congruence.
Qed.

(** With no node left in the level, the table is final. *)
Lemma bfs_inv_final g n paths k :
  bfs_inv g n paths ∅ k →
  ∀ m x, paths !! m = Some x ↔ ∃ d, x = S d ∧ dist g n m d.
Proof.
  intros [Hsound Hcomplete Hlevel].
  assert (∀ j m, walk g n m j → ∃ d, d ≤ j ∧ paths !! m = Some (S d)) as Hall.
  { induction j as [|j IH]; intros m Hw; [by apply Hcomplete; [|lia]|].
    destruct (decide (S j ≤ k)) as [?|Hjk]; [by apply Hcomplete|].
    apply walk_inv_S in Hw as (m0 & Hw0 & He).
    destruct (IH m0 Hw0) as (d0 & Hd0 & Hp0).
    destruct (Hsound _ _ Hp0) as (d0' & [= <-] & Hw0' & Hk).
    assert (d0 ≠ k) as Hne.
    { intros ->. apply Hlevel in Hp0. set_solver. }
    destruct (Hcomplete m (S d0)) as (d & Hd & Hp); [by econstructor|lia|].
    exists d. split; [lia|done]. }
  intros m x. split.
  - intros Hp. destruct (Hsound _ _ Hp) as (d & -> & Hw & _).
    exists d. split; [done|]. split; [done|].
    intros j Hj. destruct (Hall j m Hj) as (d' & Hd' & Hp'). 
    assert (d' = d) by congruence. lia.
  - intros (d & -> & Hw & Hmin).
    destruct (Hall d m Hw) as (d' & Hd' & Hp').
    destruct (Hsound _ _ Hp') as (d'' & [= <-] & Hw' & _).
    apply Hmin in Hw'. by replace d with d' by lia.
Qed.

Lemma bfs_levels_empty fuel g paths plen :
  bfs_levels fuel g paths ∅ plen = paths.
Proof. destruct fuel; [done|]. cbn. by rewrite decide_True. Qed.

Lemma bfs_levels_spec fuel g n paths level k :
  edges_closed g → n ∈ dom (nodes g) →
  bfs_inv g n paths level k →
  size (dom (nodes g)) < fuel + size (dom paths) →
  ∀ m x, bfs_levels fuel g paths level (S k) !! m = Some x ↔
         ∃ d, x = S d ∧ dist g n m d.
Proof.
  intros Hcl Hn. revert paths level k.
  induction fuel as [|fuel IH]; intros paths level k Hinv Hfuel.
  - assert (dom paths ⊆ dom (nodes g)) as Hsub.
    { intros m [x Hx]%elem_of_dom.
      apply (bfs_sound _ _ _ _ _ Hinv) in Hx as (d & _ & Hw & _).
      by eapply walk_in_nodes. }
    apply subseteq_size in Hsub. lia.
  - cbn [bfs_levels]. case_decide as Hlev.
    + subst level. by eapply bfs_inv_final.
    + destruct (bfs_inv_step g n paths level k Hinv) as (Hinv' & Hdom & Hdisj).
      set (found := filter (λ w, paths !! w = None)
                      (⋃ (successors g <$> elements level))) in *.
      destruct (decide (found = ∅)) as [Hemp|Hne].
      * rewrite Hemp in Hinv' |- *. rewrite bfs_levels_empty.
        by eapply bfs_inv_final.
      * apply IH; [done|]. rewrite Hdom, size_union by done.
        assert (size found ≠ 0); [|lia].
        apply size_non_empty_iff. by intros ?%leibniz_equiv.
Qed.

Lemma shortest_path_lens_spec g n :
  edges_closed g → n ∈ dom (nodes g) →
  ∀ m x, shortest_path_lens g n !! m = Some x ↔ ∃ d, x = S d ∧ dist g n m d.
Proof.
  intros Hcl Hn. unfold shortest_path_lens.
  apply bfs_levels_spec; [done..|apply bfs_inv_start|].
  rewrite dom_singleton_L, size_singleton, size_dom. lia.
Qed.

End cycle_facts.

Section level_facts.
Context `{ReactionModel Expr Reaction} `{!ExpressionModel Expr}.
Local Abbreviation Node := (Node Expr Reaction).
Local Abbreviation DiGraph := (DiGraph Expr Reaction).
Implicit Types (g : DiGraph) (n m : Node).

(** *** [np.argmin] *)

Lemma argmin_from_spec (pre l : list nat) best_i best :
  pre !! best_i = Some best → (∀ y, y ∈ pre → best ≤ y) →
  ∃ least, (pre ++ l) !! argmin_from best_i best (length pre) l = Some least ∧
           ∀ y, y ∈ pre ++ l → least ≤ y.
Proof.
  revert pre best_i best. induction l as [|x l IH]; intros pre best_i best Hb Hmin.
  - exists best. rewrite (right_id_L [] (++)). done.
  - cbn [argmin_from]. rewrite (cons_middle x pre l), (assoc_L (++)).
    replace (S (length pre)) with (length (pre ++ [x]))
      by (rewrite length_app; cbn; lia).
    case_bool_decide as Hx; apply IH.
    + rewrite lookup_app_r by lia. by rewrite Nat.sub_diag.
    + intros y [Hy| ->%list_elem_of_singleton]%elem_of_app; [|done].
      apply Hmin in Hy. lia.
    + by apply lookup_app_l_Some.
    + intros y [Hy| ->%list_elem_of_singleton]%elem_of_app; [by apply Hmin|lia].
Qed.

Lemma np_argmin_spec (l : list nat) :
  l ≠ [] →
  ∃ idx least, np_argmin l = Ok idx ∧ l !! idx = Some least ∧
               ∀ y, y ∈ l → least ≤ y.
Proof.
  destruct l as [|x l]; [done|]. intros _.
  destruct (argmin_from_spec [x] l 0 x) as (least & Hl & Hmin); [done| |].
  { by intros y ->%list_elem_of_singleton. }
  exists (argmin_from 0 x 1 l), least. done.
Qed.

(** *** The cycle through one node *)

Lemma elem_of_predecessor_path_lens g n c :
  edges_closed g → n ∈ dom (nodes g) →
  c ∈ predecessor_path_lens g n ↔ ∃ n0, cycle_via g n n0 c.
Proof.
  intros Hcl Hn. unfold predecessor_path_lens, cycle_via.
  rewrite list_elem_of_omap. split.
  - intros (n0 & Hn0%elem_of_elements%elem_of_predecessors & Hp).
    apply shortest_path_lens_spec in Hp as (d & -> & Hd); [|done..].
    exists n0. split; [done|]. exists d. split; [done|lia].
  - intros (n0 & He & d & Hd & ->). exists n0. split.
    + by apply elem_of_elements, elem_of_predecessors.
    + apply shortest_path_lens_spec; [done..|]. exists d. split; [lia|done].
Qed.

Lemma node_cycle_length_Some g n c :
  edges_closed g → n ∈ dom (nodes g) →
  node_cycle_length g n = Some c ↔ minimal_cycle g n c.
Proof.
  intros Hcl Hn. unfold node_cycle_length, minimal_cycle.
  pose proof (elem_of_predecessor_path_lens g n) as Hmem.
  destruct (predecessor_path_lens g n) as [|x l] eqn:Hl.
  - cbn. split; [done|]. intros [[n0 Hc] _].
    assert (c ∈ ([] : list nat)) as Hin by (apply Hmem; eauto).
    by apply elem_of_nil in Hin.
  - destruct (np_argmin_spec (x :: l)) as (idx & least & -> & Hleast & Hmin);
      [done|]. rewrite Hleast. split.
    + intros [= <-]. split.
      * apply Hmem; [done..|]. by eapply list_elem_of_lookup_2.
      * intros n0 c' Hc'. apply Hmin, Hmem; eauto.
    + intros [[n0 Hc] Hcmin]. f_equal.
      assert (least ≤ c) by (apply Hmin, Hmem; eauto).
      assert (least ∈ x :: l) as Hin by (by eapply list_elem_of_lookup_2).
      apply Hmem in Hin as [n1 Hn1]; [|done..]. apply Hcmin in Hn1. lia.
Qed.

Lemma node_cycle_length_None g n :
  edges_closed g → n ∈ dom (nodes g) →
  node_cycle_length g n = None ↔ ∀ n0 c, ¬ cycle_via g n n0 c.
Proof.
  intros Hcl Hn. split.
  - intros Hnone n0 c Hc.
    assert (c ∈ predecessor_path_lens g n) as Hin
      by (apply elem_of_predecessor_path_lens; eauto).
    unfold node_cycle_length in Hnone.
    destruct (predecessor_path_lens g n) as [|x l] eqn:Hl;
      [by apply elem_of_nil in Hin|].
    destruct (np_argmin_spec (x :: l)) as (idx & least & Hidx & Hleast & _);
      [done|]. rewrite Hidx, Hleast in Hnone. done.
  - intros Hno. destruct (node_cycle_length g n) as [c|] eqn:Hc; [|done].
    apply node_cycle_length_Some in Hc as [[n0 Hc] _]; [|done..].
    by apply Hno in Hc.
Qed.

Lemma elem_of_cycle_lengths g c :
  edges_closed g →
  c ∈ cycle_lengths g ↔ ∃ n, n ∈ dom (nodes g) ∧ minimal_cycle g n c.
Proof.
  intros Hcl. unfold cycle_lengths. rewrite list_elem_of_omap. split.
  - intros (n & Hn%elem_of_elements & Hc). exists n. split; [done|].
    by apply node_cycle_length_Some.
  - intros (n & Hn & Hc). exists n. split; [by apply elem_of_elements|].
    by apply node_cycle_length_Some.
Qed.

Lemma get_maximal_cycle_length_nil g :
  cycle_lengths g = [] → get_maximal_cycle_length g = 0.
Proof. unfold get_maximal_cycle_length. by intros ->. Qed.

Lemma get_maximal_cycle_length_cons g :
  cycle_lengths g ≠ [] →
  get_maximal_cycle_length g = (max_list (cycle_lengths g) + 1) / 2.
Proof.
  unfold get_maximal_cycle_length. by destruct (cycle_lengths g).
Qed.

(** C5: in a graph whose edges run between its nodes,
    [get_maximal_cycle_length] returns [(L + 1) / 2] rounded down when [L]
    is the greatest, over the nodes that lie on a cycle, of the least
    length of a cycle through the node, a cycle through [n] being a
    shortest path from [n] to a predecessor closed by the edge back to
    [n]; it returns 0 when no node lies on a cycle; and one of the two is
    always the case. *)
Theorem get_maximal_cycle_length_level g :
  edges_closed g →
  (∀ L, maximal_minimal_cycle g L →
        get_maximal_cycle_length g = (L + 1) / 2) ∧
  ((∀ n n0 c, n ∈ dom (nodes g) → ¬ cycle_via g n n0 c) →
   get_maximal_cycle_length g = 0) ∧
  ((∃ L, maximal_minimal_cycle g L) ∨
   (∀ n n0 c, n ∈ dom (nodes g) → ¬ cycle_via g n n0 c)).
Proof.
  intros Hcl.
  assert (∀ L, maximal_minimal_cycle g L ↔
               cycle_lengths g ≠ [] ∧ L = max_list (cycle_lengths g)) as Hmax.
  { intros L. unfold maximal_minimal_cycle. split.
    - intros [Hex Hub]. apply elem_of_cycle_lengths in Hex; [|done].
      split; [by intros Hnil; rewrite Hnil in Hex; apply elem_of_nil in Hex|].
      apply Nat.le_antisymm; [by apply max_list_elem_of_le|].
      assert (max_list (cycle_lengths g) ∈ cycle_lengths g) as Hin.
      { apply max_list_elem_of. intros Hnil. rewrite Hnil in Hex.
        by apply elem_of_nil in Hex. }
      apply elem_of_cycle_lengths in Hin as (n & Hn & Hc); [|done]. eauto.
    - intros [Hne ->]. split.
      + apply elem_of_cycle_lengths; [done|]. by apply max_list_elem_of.
      + intros n c Hn Hc. apply max_list_elem_of_le.
        apply elem_of_cycle_lengths; eauto. }
  split_and!.
  - intros L [Hne ->]%Hmax. by apply get_maximal_cycle_length_cons.
  - intros Hno. apply get_maximal_cycle_length_nil.
    destruct (cycle_lengths g) as [|c l] eqn:Hcl'; [done|].
    assert (c ∈ cycle_lengths g) as Hin by (rewrite Hcl'; left).
    apply elem_of_cycle_lengths in Hin as (n & Hn & [[n0 Hc] _]); [|done].
    by apply Hno in Hc.
  - destruct (cycle_lengths g) as [|c l] eqn:Hcl'.
    + right. intros n n0 c Hn Hc.
      assert (is_Some (node_cycle_length g n)) as [c' Hc'].
      { destruct (node_cycle_length g n) eqn:Hnc; [eauto|].
        rewrite node_cycle_length_None in Hnc by done. by apply Hnc in Hc. }
      assert (c' ∈ cycle_lengths g) as Hin.
      { apply elem_of_cycle_lengths; [done|]. exists n. split; [done|].
        by apply node_cycle_length_Some. }
      rewrite Hcl' in Hin. by apply elem_of_nil in Hin.
    + left. exists (max_list (cycle_lengths g)). apply Hmax.
      by rewrite Hcl'.
Qed.

End level_facts.

Import Sample.

Lemma get_maximal_cycle_length_level_witness :
  ∃ L, maximal_minimal_cycle (built [r1; r2]) L ∧
       get_maximal_cycle_length (built [r1; r2]) = (L + 1) / 2 ∧
       (L + 1) / 2 = 2.
Proof.
  destruct (get_maximal_cycle_length_level (built [r1; r2]))
    as (Hlevel & Hnone & Hcases); [compute_done|].
  assert (get_maximal_cycle_length (built [r1; r2]) = 2) as Hrun
    by compute_done.
  destruct Hcases as [[L HL]|Hno].
  - exists L. split; [exact HL|]. split; [exact (Hlevel L HL)|].
    rewrite <- (Hlevel L HL). exact Hrun.
  - rewrite (Hnone Hno) in Hrun. discriminate Hrun.
Defined.

(** ** The pool feeder *)

Section pool_facts.
Context `{ExpressionModel Expr}.
Implicit Types (pool : list Expr) (a f : Expr).

Lemma list_remove_Some a pool pool' :
  list_remove a pool = Some pool' → pool ≡ₚ a :: pool'.
Proof.
  revert pool'. induction pool as [|x pool IH]; intros pool' Hr; [done|].
  cbn in Hr. case_decide as Hx.
  - injection Hr as <-. by subst x.
  - destruct (list_remove a pool) as [rest|]; [|done].
    injection Hr as <-. rewrite (IH rest eq_refl). apply Permutation_swap.
Qed.

Lemma remove_atoms_Ok (l : list Expr) pool pool' :
  for_each l pool_remove pool = (pool', Ok tt) → pool ≡ₚ l ++ pool'.
Proof.
  revert pool. induction l as [|a l IH]; intros pool Hr.
  - cbn in Hr. by injection Hr as ->.
  - cbn in Hr. unfold mbind, M_bind, m_bind, pool_remove in Hr.
    destruct (list_remove a pool) as [rest|] eqn:Ha; [|done].
    apply list_remove_Some in Ha. apply IH in Hr. by rewrite Ha, Hr.
Qed.

Lemma feed_molecule_Ok f pool pool' :
  feed_molecule f pool = (pool', Ok tt) → pool' ++ atoms f ≡ₚ pool ++ [f].
Proof.
  unfold feed_molecule, mbind, M_bind, m_bind.
  destruct (for_each (atoms f) pool_remove pool) as [rest [[]| |]] eqn:Hr; [|done..].
  unfold pool_append, m_write. intros [= <-].
  apply remove_atoms_Ok in Hr. rewrite Hr.
  rewrite (Permutation_app_comm (atoms f) rest).
  rewrite <- !(assoc_L (++)). f_equiv. apply Permutation_app_comm.
Qed.

Lemma feed_all_Ok (fs : list Expr) pool pool' :
  for_each fs feed_molecule pool = (pool', Ok tt) →
  pool' ++ (fs ≫= atoms) ≡ₚ pool ++ fs.
Proof.
  revert pool. induction fs as [|f fs IH]; intros pool Hr.
  - cbn in Hr. injection Hr as ->. done.
  - cbn [for_each] in Hr. unfold mbind at 1, M_bind, m_bind in Hr.
    destruct (feed_molecule f pool) as [mid [[]| |]] eqn:Hf; [|done..].
    apply feed_molecule_Ok in Hf. apply IH in Hr.
    rewrite bind_cons.
    rewrite (Permutation_app_comm (atoms f)), (assoc_L (++)), Hr.
    rewrite (Permutation_app_comm mid fs), <- (assoc_L (++)), Hf.
    rewrite (assoc_L (++)), (Permutation_app_comm fs pool).
    rewrite <- !(assoc_L (++)). f_equiv. apply Permutation_app_comm.
Qed.

(** C10: for a period of at least 1, [on_step_computed] leaves the pool as
    it is unless [ticks] is positive and a multiple of the period; then it
    does for each food molecule in turn what [feed_molecule] does, and when
    that returns the pool has lost the atoms of the food and gained the
    food. *)
Theorem on_step_computed_frame (self : PoolFeeder Expr) (ticks : Z) pool :
  (1 ≤ period self)%Z →
  (¬ ((0 < ticks)%Z ∧ (period self | ticks)%Z) →
     on_step_computed self ticks pool = (pool, Ok tt)) ∧
  ((0 < ticks)%Z → (period self | ticks)%Z →
     on_step_computed self ticks pool
       = for_each (food self) feed_molecule pool ∧
     ∀ pool', on_step_computed self ticks pool = (pool', Ok tt) →
       pool' ++ (food self ≫= atoms) ≡ₚ pool ++ food self).
Proof.
  intros Hperiod. unfold on_step_computed, py_mod.
  assert ((ticks `mod` period self = 0)%Z ↔ (period self | ticks)%Z) as Hdiv.
  { rewrite Z.mod_divide by lia. done. }
  split.
  - intros Hno. case_bool_decide as Hpos; [|done].
    unfold mbind, M_bind, m_bind, m_lift. case_decide; [lia|].
    case_bool_decide as Hrem; [|done]. tauto.
  - intros Hpos Hmul.
    assert ((if bool_decide (0 < ticks)%Z
             then rem ← m_lift (if decide (period self = 0%Z)
                                then Raise ZeroDivisionError
                                else Ok (ticks `mod` period self)%Z);
                  if bool_decide (rem = 0%Z)
                  then for_each (food self)
                         (λ f, for_each (atoms f) pool_remove;; pool_append f)
                  else m_ret tt
             else m_ret tt) pool
            = for_each (food self) feed_molecule pool) as Heq.
    { rewrite bool_decide_eq_true_2 by done.
      unfold mbind at 1. unfold M_bind, m_bind, m_lift. case_decide; [lia|].
      by rewrite bool_decide_eq_true_2 by tauto. }
    split; [exact Heq|]. intros pool'. rewrite Heq. apply feed_all_Ok.
Qed.

End pool_facts.

Import Sample.

Lemma on_step_computed_frame_witness :
  on_step_computed (mkPoolFeeder ["AB"] 2) 3 ["A"; "C"; "B"]
    = (["A"; "C"; "B"], Ok tt) ∧
  on_step_computed (mkPoolFeeder ["AB"] 2) 4 ["A"; "C"; "B"]
    = (["C"; "AB"], Ok tt).
Proof.
  split.
  - apply (on_step_computed_frame (mkPoolFeeder ["AB"] 2) 3
             ["A"; "C"; "B"]); [cbn; lia|].
    intros [_ [q Hq]]. cbn in Hq. lia.
  - destruct (on_step_computed_frame (mkPoolFeeder ["AB"] 2) 4
                ["A"; "C"; "B"]) as [_ Hfire]; [cbn; lia|].
    destruct Hfire as [-> _]; [lia|by exists 2%Z|]. reflexivity.
Defined.

(** ** Mutators only act through the graph interface *)

Section mutator_frame.
Context `{ReactionModel Expr Reaction} `{!ExpressionModel Expr}.
Context `{!GraphStore Expr Reaction St}.
Local Abbreviation Node := (Node Expr Reaction).
Variable P : St → Prop.
Hypothesis P_add_node : ∀ n a s, P s → P (st_add_node n a s).
Hypothesis P_add_edge : ∀ u v a s, P s → P (st_add_edge u v a s).
Hypothesis P_remove_node : ∀ n s, P s → P (st_remove_node n s).
Hypothesis P_remove_edge : ∀ u v s, P s → P (st_remove_edge u v s).

Lemma bind_preserves {A B} (m : M St A) (k : A → M St B) s :
  (∀ s', P s' → P (m s').1) → (∀ a s', P s' → P (k a s').1) →
  P s → P ((m ≫= k) s).1.
Proof.
  intros Hm Hk Hs. unfold mbind, M_bind, m_bind.
  specialize (Hm s Hs). destruct (m s) as [s' [a| |]]; cbn in *; auto.
Qed.

Lemma m_remove_node_preserves (n : Node) s : P s → P (m_remove_node n s).1.
Proof.
  intros Hs. unfold m_remove_node. apply bind_preserves; [done| |done].
  intros [] s' Hs'; cbn; auto.
Qed.

Lemma m_remove_edge_preserves (u v : Node) s :
  P s → P (m_remove_edge u v s).1.
Proof.
  intros Hs. unfold m_remove_edge. apply bind_preserves; [done| |done].
  intros [] s' Hs'; cbn; auto.
Qed.

Lemma m_remove_nodes_from_preserves (ns : list Node) s :
  P s → P (m_remove_nodes_from ns s).1.
Proof.
  intros Hs. unfold m_remove_nodes_from. apply for_each_preserves; [|done].
  intros n s' Hs'. apply bind_preserves; [done| |done].
  intros [] s'' Hs''; cbn; auto.
Qed.

Lemma add_reaction_preserves rn s : P s → P (add_reaction rn s).1.
Proof.
  intros Hs. rewrite add_reaction_run.
  destruct (_ ≫= _) as [o1| |]; [|done..]. cbn [fst].
  assert (∀ l s', P s' → P (foldl (product_step rn) s' l)) as Hprod.
  { induction l as [|p l IH]; intros s' Hs'; [done|].
    cbn [foldl]. apply IH. unfold product_step. auto. }
  assert (∀ l s', P s' → P (foldl (reactive_step rn) s' l)) as Hreac.
  { induction l as [|p l IH]; intros s' Hs'; [done|].
    cbn [foldl]. apply IH. unfold reactive_step. auto. }
  auto.
Qed.

Lemma remove_food_edges_preserves s : P s → P (remove_food_edges s).1.
Proof.
  intros Hs. unfold remove_food_edges. apply bind_preserves; [done| |done].
  intros ns s' Hs'. apply for_each_preserves; [|done].
  intros nd s1 Hs1. apply bind_preserves; [done| |done].
  intros [] s2 Hs2; [|done]. apply bind_preserves; [done| |done].
  intros r s3 Hs3. case_bool_decide; [|done].
  destruct (min_by_len (reactives r)); [|done].
  by apply m_remove_edge_preserves.
Qed.

Lemma remove_selfloop_preserves s : P s → P (remove_selfloop s).1.
Proof.
  intros Hs. unfold remove_selfloop. apply bind_preserves; [done| |done].
  intros l s' Hs'. by apply m_remove_nodes_from_preserves.
Qed.

Lemma trim_short_formulae_preserves max_len s :
  P s → P (trim_short_formulae max_len s).1.
Proof.
  intros Hs. unfold trim_short_formulae. apply bind_preserves; [done| |done].
  intros ns s' Hs'. apply for_each_preserves; [|done].
  intros nd s1 Hs1. apply bind_preserves; [done| |done].
  intros [] s2 Hs2; [|done]. by apply m_remove_node_preserves.
Qed.

Lemma run_mutation_preserves (m : mutation) s : P s → P (run_mutation m s).1.
Proof.
  destruct m; cbn [run_mutation].
  - apply add_reaction_preserves.
  - apply remove_food_edges_preserves.
  - apply remove_selfloop_preserves.
  - apply trim_short_formulae_preserves.
Qed.

End mutator_frame.

(** ** Graph objects that share no dictionary *)

Section store_facts.
Context `{ReactionModel Expr Reaction} `{!ExpressionModel Expr}.
Local Abbreviation Node := (Node Expr Reaction).
Local Abbreviation DiGraph := (DiGraph Expr Reaction).
Local Abbreviation GraphObj := (@GraphObj Expr Reaction _ _ _ _).
Local Abbreviation Store := (@Store Expr Reaction _ _ _ _).
Implicit Types (st : Store) (obj : GraphObj) (ds : gmap nat Attrs)
  (o l : nat) (n : Node).

Lemma view_obj_ext ds ds' obj :
  (∀ l, l ∈ obj_locs obj → ds !! l = ds' !! l) →
  view_obj ds obj = view_obj ds' obj.
Proof.
  intros Hds. unfold view_obj. f_equal.
  - apply map_fmap_ext. intros n l Hn. rewrite Hds; [done|].
    unfold obj_locs. apply elem_of_union_l, elem_of_map_img. eauto.
  - apply map_fmap_ext. intros e l He. rewrite Hds; [done|].
    unfold obj_locs. apply elem_of_union_r, elem_of_map_img. eauto.
Qed.

Lemma frame_inv_view o o' obj' ds st :
  frame_inv o o' obj' ds st → view st o' = view_obj ds obj'.
Proof.
  intros [Hobj Hds _]. unfold view. rewrite Hobj.
  apply view_obj_ext. intros l Hl. by apply Hds.
Qed.

(** *** The three store updates *)

Lemma frame_inv_update_dict o o' obj' ds st l attrs obj :
  frame_inv o o' obj' ds st →
  graphs st !! o = Some obj → l ∈ obj_locs obj →
  frame_inv o o' obj' ds (update_dict l attrs st).
Proof.
  intros [Hobj Hds Hsep] Ho Hl. split; cbn [graphs dicts update_dict].
  - done.
  - intros l' Hl'. destruct (Hds l' Hl') as [Hsome Heq]. split; [exact Hsome|].
    rewrite <- Heq. apply lookup_insert_ne. intros ->.
    by apply (Hsep obj Ho l').
  - done.
Qed.

Lemma alloc_dict_fresh attrs st :
  (alloc_dict attrs st).1 ∉ dom (dicts st).
Proof. cbn. apply is_fresh. Qed.

Lemma frame_inv_fresh o o' obj' ds st attrs :
  frame_inv o o' obj' ds st → (alloc_dict attrs st).1 ∉ obj_locs obj'.
Proof.
  intros [_ Hds _] Hl. destruct (Hds _ Hl) as [Hsome Heq].
  apply (alloc_dict_fresh attrs st). apply elem_of_dom. by rewrite Heq.
Qed.

Lemma frame_inv_alloc_set o o' obj' ds st attrs obj obj_new :
  o ≠ o' →
  frame_inv o o' obj' ds st →
  graphs st !! o = Some obj →
  obj_locs obj_new ⊆ obj_locs obj ∪ {[ (alloc_dict attrs st).1 ]} →
  frame_inv o o' obj' ds (set_obj o obj_new (alloc_dict attrs st).2).
Proof.
  intros Hne Hinv Ho Hlocs. pose proof (frame_inv_fresh _ _ _ _ _ attrs Hinv) as Hfr.
  destruct Hinv as [Hobj Hds Hsep].
  split; cbn [graphs dicts set_obj alloc_dict snd].
  - by rewrite lookup_insert_ne.
  - intros l' Hl'. destruct (Hds l' Hl') as [Hsome Heq]. split; [exact Hsome|].
    rewrite <- Heq. apply lookup_insert_ne. intros Hl. subst l'. by apply Hfr.
  - intros obj0. rewrite lookup_insert_eq. intros [= <-].
    specialize (Hsep obj Ho). cbn in Hfr, Hlocs. set_solver.
Qed.

Lemma frame_inv_set_smaller o o' obj' ds st obj obj_new :
  o ≠ o' →
  frame_inv o o' obj' ds st →
  graphs st !! o = Some obj →
  obj_locs obj_new ⊆ obj_locs obj →
  frame_inv o o' obj' ds (set_obj o obj_new st).
Proof.
  intros Hne [Hobj Hds Hsep] Ho Hlocs. split; cbn [graphs dicts set_obj].
  - by rewrite lookup_insert_ne.
  - done.
  - intros obj0. rewrite lookup_insert_eq. intros [= <-].
    specialize (Hsep obj Ho). set_solver.
Qed.

Lemma map_img_insert_subseteq `{Countable K} (m : gmap K nat) k l :
  map_img (<[k := l]> m) ⊆ (map_img m ∪ {[ l ]} : gset nat).
Proof.
  intros x (k' & Hk')%elem_of_map_img. rewrite lookup_insert in Hk'.
  case_decide; simplify_eq; [set_solver|].
  apply elem_of_union_l, elem_of_map_img. eauto.
Qed.

Lemma map_img_delete_subseteq `{Countable K} (m : gmap K nat) k :
  map_img (delete k m) ⊆ (map_img m : gset nat).
Proof.
  intros x (k' & Hk')%elem_of_map_img. apply elem_of_map_img. exists k'.
  by apply lookup_delete_Some in Hk' as [_ ?].
Qed.

Lemma map_img_filter_subseteq `{Countable K} (m : gmap K nat)
    (Q : K * nat → Prop) `{∀ x, Decision (Q x)} :
  map_img (filter Q m) ⊆ (map_img m : gset nat).
Proof.
  intros x (k' & Hk')%elem_of_map_img. apply elem_of_map_img. exists k'.
  by apply map_lookup_filter_Some in Hk' as [? _].
Qed.

(** *** The calls of the graph interface on one object leave the other *)

Lemma frame_inv_add_node o o' obj' ds st n attrs :
  o ≠ o' → frame_inv o o' obj' ds st →
  frame_inv o o' obj' ds (h_add_node o n attrs st).
Proof.
  intros Hne Hinv. unfold h_add_node.
  destruct (graphs st !! o) as [obj|] eqn:Ho; [|done].
  destruct (node_ref obj !! n) as [l|] eqn:Hn.
  - eapply frame_inv_update_dict; [done..|].
    apply elem_of_union_l, elem_of_map_img. eauto.
  - change (alloc_dict attrs st) with
      ((alloc_dict attrs st).1, (alloc_dict attrs st).2).
    eapply frame_inv_alloc_set; [done..|].
    unfold obj_locs. cbn [node_ref edge_ref].
    pose proof (map_img_insert_subseteq (node_ref obj) n
                  (alloc_dict attrs st).1). set_solver.
Qed.

Lemma frame_inv_ensure_node o o' obj' ds st n :
  o ≠ o' → frame_inv o o' obj' ds st →
  frame_inv o o' obj' ds (h_ensure_node o n st).
Proof.
  intros Hne Hinv. unfold h_ensure_node.
  destruct (graphs st !! o) as [obj|] eqn:Ho; [|done].
  destruct (node_ref obj !! n) as [l|] eqn:Hn; [done|].
  change (alloc_dict ∅ st) with ((alloc_dict ∅ st).1, (alloc_dict ∅ st).2).
  eapply frame_inv_alloc_set; [done..|].
  unfold obj_locs. cbn [node_ref edge_ref].
  pose proof (map_img_insert_subseteq (node_ref obj) n (alloc_dict ∅ st).1).
  set_solver.
Qed.

Lemma frame_inv_add_edge o o' obj' ds st u v attrs :
  o ≠ o' → frame_inv o o' obj' ds st →
  frame_inv o o' obj' ds (h_add_edge o u v attrs st).
Proof.
  intros Hne Hinv. unfold h_add_edge.
  pose proof (frame_inv_ensure_node o o' obj' ds _ v Hne
                (frame_inv_ensure_node o o' obj' ds st u Hne Hinv)) as Hinv'.
  set (st1 := h_ensure_node o v (h_ensure_node o u st)) in *.
  destruct (graphs st1 !! o) as [obj|] eqn:Ho; [|done].
  destruct (edge_ref obj !! (u, v)) as [l|] eqn:He.
  - eapply frame_inv_update_dict; [done..|].
    apply elem_of_union_r, elem_of_map_img. eauto.
  - change (alloc_dict attrs st1) with
      ((alloc_dict attrs st1).1, (alloc_dict attrs st1).2).
    eapply frame_inv_alloc_set; [done..|].
    unfold obj_locs. cbn [node_ref edge_ref].
    pose proof (map_img_insert_subseteq (edge_ref obj) (u, v)
                  (alloc_dict attrs st1).1). set_solver.
Qed.

Lemma frame_inv_remove_node o o' obj' ds st n :
  o ≠ o' → frame_inv o o' obj' ds st →
  frame_inv o o' obj' ds (h_remove_node o n st).
Proof.
  intros Hne Hinv. unfold h_remove_node.
  destruct (graphs st !! o) as [obj|] eqn:Ho; [|done].
  eapply frame_inv_set_smaller; [done..|].
  unfold obj_locs. cbn [node_ref edge_ref].
  pose proof (map_img_delete_subseteq (node_ref obj) n).
  pose proof (map_img_filter_subseteq (edge_ref obj)
                (λ e, e.1.1 ≠ n ∧ e.1.2 ≠ n)).
  set_solver.
Qed.

Lemma frame_inv_remove_edge o o' obj' ds st u v :
  o ≠ o' → frame_inv o o' obj' ds st →
  frame_inv o o' obj' ds (h_remove_edge o u v st).
Proof.
  intros Hne Hinv. unfold h_remove_edge.
  destruct (graphs st !! o) as [obj|] eqn:Ho; [|done].
  eapply frame_inv_set_smaller; [done..|].
  unfold obj_locs. cbn [node_ref edge_ref].
  pose proof (map_img_delete_subseteq (edge_ref obj) (u, v)). set_solver.
Qed.

(** Any sequence of mutator calls on the graph at [o] leaves the object at
    [o'] and its dictionaries as they are. *)
Lemma frame_inv_mutate o o' obj' ds st (ms : list mutation) :
  o ≠ o' → frame_inv o o' obj' ds st →
  frame_inv o o' obj' ds (h_mutate o ms st).
Proof.
  intros Hne. revert st. unfold h_mutate.
  induction ms as [|m ms IH]; intros st Hinv; [done|].
  cbn [foldl]. apply IH.
  apply (run_mutation_preserves (GraphStore0 := object_store o)
           (frame_inv o o' obj' ds)); [..|done]; cbn.
  - intros. by apply frame_inv_add_node.
  - intros. by apply frame_inv_add_edge.
  - intros. by apply frame_inv_remove_node.
  - intros. by apply frame_inv_remove_edge.
Qed.

End store_facts.

Section new_graph_facts.
Context `{ReactionModel Expr Reaction} `{!ExpressionModel Expr}.
Local Abbreviation Node := (Node Expr Reaction).
Local Abbreviation DiGraph := (DiGraph Expr Reaction).
Local Abbreviation GraphObj := (@GraphObj Expr Reaction _ _ _ _).
Local Abbreviation Store := (@Store Expr Reaction _ _ _ _).
Implicit Types (st : Store) (obj : GraphObj) (ds : gmap nat Attrs)
  (o l : nat) (n : Node).

(** *** Allocating the dictionaries of a new graph *)

Lemma alloc_all_spec `{Countable K} (kds : list (K * Attrs)) ds :
  dom ds ⊆ dom (alloc_all kds ds).2 ∧
  (∀ l, l ∈ dom ds → (alloc_all kds ds).2 !! l = ds !! l) ∧
  (∀ k l, (alloc_all kds ds).1 !! k = Some l →
     (l ∉ dom ds) ∧ ∃ d, (k, d) ∈ kds ∧ (alloc_all kds ds).2 !! l = Some d) ∧
  (∀ k d, (k, d) ∈ kds → is_Some ((alloc_all kds ds).1 !! k)).
Proof.
  induction kds as [|[k0 d0] rest IH].
  - cbn. split_and!; [done..| |]; intros *; [by rewrite lookup_empty|].
    by intros ?%elem_of_nil.
  - cbn [alloc_all]. destruct (alloc_all rest ds) as [refs ds'] eqn:Hrest.
    cbn [fst snd] in *. destruct IH as (Hsub & Hold & Hnew & Hall).
    pose proof (is_fresh (dom ds')) as Hfresh.
    split_and!.
    + rewrite dom_insert_L. set_solver.
    + intros l Hl. rewrite lookup_insert_ne; [by apply Hold|].
      intros <-. apply Hfresh. by apply Hsub.
    + intros k l. rewrite lookup_insert. case_decide as Hk.
      * subst k0. intros [= <-]. split; [set_solver|].
        exists d0. split; [by left|]. by rewrite lookup_insert_eq.
      * intros (Hl & d & Hd & Hds)%Hnew. split; [done|].
        exists d. split; [by right|]. rewrite lookup_insert_ne; [done|].
        intros <-. apply Hfresh. apply elem_of_dom. eauto.
    + intros k d [[= -> ->]|Hin]%elem_of_cons.
      * rewrite lookup_insert_eq. eauto.
      * cbn [fst]. rewrite lookup_insert. case_decide; [eauto|]. by eapply Hall.
Qed.

Lemma alloc_all_view `{Countable K} (m : gmap K Attrs) ds ds' :
  (∀ l, l ∈ dom (alloc_all (map_to_list m) ds).2 →
        ds' !! l = (alloc_all (map_to_list m) ds).2 !! l) →
  (λ l, default ∅ (ds' !! l)) <$> (alloc_all (map_to_list m) ds).1 = m.
Proof.
  intros Hds'.
  destruct (alloc_all_spec (map_to_list m) ds) as (_ & _ & Hnew & Hall).
  apply map_eq. intros k. rewrite lookup_fmap.
  destruct ((alloc_all (map_to_list m) ds).1 !! k) as [l|] eqn:Hk; cbn.
  - apply Hnew in Hk as (_ & d & Hd%elem_of_map_to_list & Hl).
    rewrite Hds' by (apply elem_of_dom; eauto). by rewrite Hl, Hd.
  - destruct (m !! k) as [d|] eqn:Hm; [|done].
    apply elem_of_map_to_list, Hall in Hm as [l Hl]. congruence.
Qed.

(** *** The new graph and the graph it was taken from *)

Lemma new_graph_spec (content : DiGraph) st o1 obj1 :
  store_ok st → graphs st !! o1 = Some obj1 →
  ∃ obj2,
    let o2 := (new_graph content st).1 in
    let st' := (new_graph content st).2 in
    o1 ≠ o2 ∧
    view st' o2 = content ∧
    view st' o1 = view st o1 ∧
    frame_inv o1 o2 obj2 (dicts st') st' ∧
    frame_inv o2 o1 obj1 (dicts st') st'.
Proof.
  intros Hok Ho1. unfold new_graph.
  pose proof (alloc_all_spec (map_to_list (nodes content)) (dicts st))
    as (Hsub1 & Hold1 & Hnew1 & _).
  pose proof (alloc_all_view (nodes content) (dicts st)) as Hview1.
  destruct (alloc_all (map_to_list (nodes content)) (dicts st))
    as [nrefs ds1] eqn:Hn. cbn [fst snd] in *.
  pose proof (alloc_all_spec (map_to_list (edges content)) ds1)
    as (Hsub2 & Hold2 & Hnew2 & _).
  pose proof (alloc_all_view (edges content) ds1) as Hview2.
  destruct (alloc_all (map_to_list (edges content)) ds1)
    as [erefs ds2] eqn:He. cbn [fst snd] in *.
  set (o2 := fresh (dom (graphs st))).
  assert (o1 ≠ o2) as Hne.
  { intros ->. apply (is_fresh (dom (graphs st))). apply elem_of_dom. eauto. }
  assert (obj_locs obj1 ⊆ dom (dicts st)) as Hlocs1 by (by eapply Hok).
  assert (∀ l, l ∈ obj_locs (mkGraphObj nrefs erefs) →
            (l ∉ dom (dicts st)) ∧ is_Some (ds2 !! l)) as Hlocs2.
  { intros l Hl. unfold obj_locs in Hl. cbn [node_ref edge_ref] in Hl.
    apply elem_of_union in Hl
      as [(k & Hk)%elem_of_map_img|(k & Hk)%elem_of_map_img].
    - apply Hnew1 in Hk as (Hl & d & _ & Hd). split; [done|].
      rewrite Hold2 by (apply elem_of_dom; eauto). eauto.
    - apply Hnew2 in Hk as (Hl & d & _ & Hd). split; [set_solver|eauto]. }
  exists (mkGraphObj nrefs erefs). cbn zeta. cbn [fst snd].
  split_and!.
  - done.
  - unfold view. cbn [graphs dicts]. rewrite lookup_insert_eq.
    unfold view_obj. cbn [node_ref edge_ref].
    destruct content as [cn ce]. cbn [nodes edges] in *. f_equal.
    + apply Hview1. intros l Hl. by apply Hold2.
    + by apply Hview2.
  - unfold view. cbn [graphs dicts]. rewrite lookup_insert_ne by done.
    rewrite Ho1. apply view_obj_ext. intros l Hl.
    rewrite Hold2 by set_solver. apply Hold1. set_solver.
  - split; cbn [graphs dicts].
    + by rewrite lookup_insert_eq.
    + intros l Hl. split; [by apply Hlocs2|done].
    + intros obj. rewrite lookup_insert_ne by done. intros Hobj.
      assert (obj_locs obj ⊆ dom (dicts st)) by (by eapply Hok).
      intros l Hl1 [Hl2 _]%Hlocs2. set_solver.
  - split; cbn [graphs dicts].
    + by rewrite lookup_insert_ne.
    + intros l Hl. split; [|done]. apply elem_of_dom. set_solver.
    + intros obj. rewrite lookup_insert_eq. intros [= <-].
      intros l [Hl2 _]%Hlocs2 Hl1. set_solver.
Qed.

(** C9: the graph a subgraph filter returns holds what the filter selects
    and has dictionaries of its own. Whatever sequence of [add_reaction],
    [remove_food_edges], [remove_selfloop] and [trim_short_formulae] is
    then run on the source graph, the nodes, the edges and the attributes
    of the filter result stay as they are, and the other way round. *)
Theorem filter_result_independent (f : subgraph_filter) (o1 o2 : nat)
    (st st' : Store) :
  store_ok st → is_Some (graphs st !! o1) →
  h_filter f o1 st = (st', Ok o2) →
  filter_content f (view st o1) = Ok (view st' o2) ∧
  view st' o1 = view st o1 ∧
  (∀ ms, view (h_mutate o1 ms st') o2 = view st' o2) ∧
  (∀ ms, view (h_mutate o2 ms st') o1 = view st' o1).
Proof.
  intros Hok [obj1 Ho1]. unfold h_filter.
  destruct (filter_content f (view st o1)) as [content| |] eqn:Hf; [|done..].
  destruct (new_graph_spec content st o1 obj1 Hok Ho1)
    as (obj2 & Hne & Hv2 & Hv1 & Hfr2 & Hfr1).
  destruct (new_graph content st) as [o2' st2] eqn:Hnew. cbn [fst snd] in *.
  intros [= <- <-]. split_and!.
  - by rewrite Hv2.
  - done.
  - intros ms.
    rewrite (frame_inv_view o1 o2' obj2 (dicts st2) (h_mutate o1 ms st2)).
    + symmetry. by eapply frame_inv_view.
    + by apply frame_inv_mutate.
  - intros ms.
    rewrite (frame_inv_view o2' o1 obj1 (dicts st2) (h_mutate o2' ms st2)).
    + symmetry. by eapply frame_inv_view.
    + by apply frame_inv_mutate.
Qed.

End new_graph_facts.

Import Sample.

Lemma filter_result_independent_witness :
  filter_content Reduction (view st_two 0) = Ok (view st_filtered 1) ∧
  view st_filtered 0 = view st_two 0 ∧
  (∀ ms, view (h_mutate 0 ms st_filtered) 1 = view st_filtered 1) ∧
  (∀ ms, view (h_mutate 1 ms st_filtered) 0 = view st_filtered 0).
Proof.
  apply (filter_result_independent Reduction 0 1 st_two st_filtered).
  - compute_done.
  - compute_done.
  - assert ((h_filter Reduction 0 st_two).2 = Ok 1) as Hres by compute_done.
    unfold st_filtered. rewrite <- Hres. apply surjective_pairing.
Defined.

(** ** Mutators on two stores that agree *)

Section simulation.
Context `{ReactionModel Expr Reaction} `{!ExpressionModel Expr}.
Context {StA StB : Type}.
Context (SA : GraphStore Expr Reaction StA) (SB : GraphStore Expr Reaction StB).
Local Abbreviation Node := (Node Expr Reaction).
Variable R : StA → StB → Prop.
Hypothesis R_snapshot : ∀ s g, R s g → snapshot s = snapshot g.
Hypothesis R_add_node :
  ∀ n a s g, R s g → R (st_add_node n a s) (st_add_node n a g).
Hypothesis R_add_edge :
  ∀ u v a s g, R s g → R (st_add_edge u v a s) (st_add_edge u v a g).
Hypothesis R_remove_node :
  ∀ n s g, n ∈ dom (nodes (snapshot g)) →
    R s g → R (st_remove_node n s) (st_remove_node n g).
Hypothesis R_remove_edge :
  ∀ u v s g, R s g → R (st_remove_edge u v s) (st_remove_edge u v g).

Lemma simulates_bind {A B} (mA : M StA A) (mB : M StB A)
    (kA : A → M StA B) (kB : A → M StB B) :
  simulates R mA mB → (∀ a, simulates R (kA a) (kB a)) →
  simulates R (mA ≫= kA) (mB ≫= kB).
Proof.
  intros Hm Hk s g Hsg. unfold mbind, M_bind, m_bind.
  destruct (Hm s g Hsg) as [HR Hout].
  destruct (mA s) as [s' ra], (mB g) as [g' rb]. cbn in *. subst rb.
  destruct ra as [a| |]; [by apply Hk|done..].
Qed.

Lemma simulates_ret {A} (a : A) : simulates R (m_ret a) (m_ret a).
Proof. by intros s g Hsg. Qed.

Lemma simulates_raise {A} e :
  simulates R (m_raise (A := A) e) (m_raise e).
Proof. by intros s g Hsg. Qed.

Lemma simulates_lift {A} (r : res A) : simulates R (m_lift r) (m_lift r).
Proof. by intros s g Hsg. Qed.

Lemma simulates_read {A} (q : DiGraph Expr Reaction → res A) :
  simulates R (m_read q) (m_read q).
Proof.
  intros s g Hsg. unfold m_read. cbn. split; [done|].
  by rewrite (R_snapshot s g).
Qed.

Lemma simulates_for_each {A} (l : list A)
    (bA : A → M StA unit) (bB : A → M StB unit) :
  (∀ x, simulates R (bA x) (bB x)) →
  simulates R (for_each l bA) (for_each l bB).
Proof.
  intros Hb. induction l as [|x l IH]; [apply simulates_ret|].
  cbn [for_each]. apply simulates_bind; [apply Hb|]. by intros _.
Qed.

Lemma simulates_add_node n a :
  simulates R (m_add_node n a) (m_add_node n a).
Proof. intros s g Hsg. split; [|done]. by apply R_add_node. Qed.

Lemma simulates_add_edge u v a :
  simulates R (m_add_edge u v a) (m_add_edge u v a).
Proof. intros s g Hsg. split; [|done]. by apply R_add_edge. Qed.

Lemma simulates_remove_node n :
  simulates R (m_remove_node n) (m_remove_node n).
Proof.
  intros s g Hsg. unfold m_remove_node, mbind, M_bind, m_bind, m_read.
  cbn [fst snd]. rewrite (R_snapshot s g Hsg).
  case_bool_decide; [|done]. split; [|done]. by apply R_remove_node.
Qed.

Lemma simulates_remove_edge u v :
  simulates R (m_remove_edge u v) (m_remove_edge u v).
Proof.
  intros s g Hsg. unfold m_remove_edge, mbind, M_bind, m_bind, m_read.
  cbn [fst snd]. rewrite (R_snapshot s g Hsg).
  case_bool_decide; [|done]. split; [|done]. by apply R_remove_edge.
Qed.

Lemma simulates_remove_nodes_from ns :
  simulates R (m_remove_nodes_from ns) (m_remove_nodes_from ns).
Proof.
  apply simulates_for_each. intros n s g Hsg.
  unfold mbind, M_bind, m_bind, m_read.
  cbn [fst snd]. rewrite (R_snapshot s g Hsg).
  case_bool_decide; [|done]. split; [|done]. by apply R_remove_node.
Qed.

Lemma simulates_add_reaction rn :
  simulates R (add_reaction rn) (add_reaction rn).
Proof.
  unfold add_reaction.
  apply simulates_bind; [apply simulates_read|]. intros occ.
  apply simulates_bind; [apply simulates_lift|]. intros occ1.
  apply simulates_bind; [apply simulates_add_node|]. intros _.
  apply simulates_bind.
  - apply simulates_for_each. intros r.
    apply simulates_bind; [apply simulates_add_node|]. intros _.
    apply simulates_add_edge.
  - intros _. apply simulates_for_each. intros p.
    apply simulates_bind; [apply simulates_add_node|]. intros _.
    apply simulates_add_edge.
Qed.

Lemma simulates_remove_food_edges :
  simulates R remove_food_edges remove_food_edges.
Proof.
  unfold remove_food_edges.
  apply simulates_bind; [apply simulates_read|]. intros ns.
  apply simulates_for_each. intros nd.
  apply simulates_bind; [apply simulates_lift|]. intros [].
  - apply simulates_bind; [apply simulates_lift|]. intros r.
    case_bool_decide; [|apply simulates_ret].
    destruct (min_by_len (reactives r));
      [apply simulates_remove_edge|apply simulates_raise].
  - apply simulates_ret.
Qed.

Lemma simulates_remove_selfloop :
  simulates R remove_selfloop remove_selfloop.
Proof.
  unfold remove_selfloop.
  apply simulates_bind; [apply simulates_read|]. intros l.
  apply simulates_remove_nodes_from.
Qed.

Lemma simulates_trim_short_formulae max_len :
  simulates R (trim_short_formulae max_len) (trim_short_formulae max_len).
Proof.
  unfold trim_short_formulae.
  apply simulates_bind; [apply simulates_read|]. intros ns.
  apply simulates_for_each. intros nd.
  apply simulates_bind; [apply simulates_lift|]. intros [].
  - apply simulates_remove_node.
  - apply simulates_ret.
Qed.

Lemma simulates_run_mutation (m : mutation) :
  simulates R (run_mutation m) (run_mutation m).
Proof.
  destruct m; cbn [run_mutation].
  - apply simulates_add_reaction.
  - apply simulates_remove_food_edges.
  - apply simulates_remove_selfloop.
  - apply simulates_trim_short_formulae.
Qed.

End simulation.

(** ** A graph object behaves as the graph it shows *)

Section refinement.
Context `{ReactionModel Expr Reaction} `{!ExpressionModel Expr}.
Local Abbreviation Node := (Node Expr Reaction).
Local Abbreviation DiGraph := (DiGraph Expr Reaction).
Local Abbreviation GraphObj := (@GraphObj Expr Reaction _ _ _ _).
Local Abbreviation Store := (@Store Expr Reaction _ _ _ _).
Implicit Types (st : Store) (obj : GraphObj) (ds : gmap nat Attrs)
  (o l : nat) (n : Node) (g : DiGraph).

Lemma refines_view o st g : refines o st g → view st o = g.
Proof. intros (obj & Ho & _ & Hv). unfold view. by rewrite Ho. Qed.

Lemma elem_of_obj_locs_node obj n l :
  node_ref obj !! n = Some l → l ∈ obj_locs obj.
Proof. intros Hn. apply elem_of_union_l, elem_of_map_img. eauto. Qed.

Lemma elem_of_obj_locs_edge obj (e : Node * Node) l :
  edge_ref obj !! e = Some l → l ∈ obj_locs obj.
Proof. intros He. apply elem_of_union_r, elem_of_map_img. eauto. Qed.

(** Updating the dictionary of one key in place. *)
Lemma fmap_update_dict `{Countable K} (refs : gmap K nat) ds k l attrs :
  refs !! k = Some l →
  (∀ k', refs !! k' = Some l → k' = k) →
  (λ l', default ∅ (<[l := attrs ∪ default ∅ (ds !! l)]> ds !! l')) <$> refs
  = <[k := attrs ∪ default ∅ (((λ l', default ∅ (ds !! l')) <$> refs) !! k)]>
      ((λ l', default ∅ (ds !! l')) <$> refs).
Proof.
  intros Hk Hinj. apply map_eq. intros k'.
  rewrite lookup_insert, !lookup_fmap. case_decide as Hkk.
  - subst k'. rewrite Hk. cbn. by rewrite lookup_insert_eq.
  - destruct (refs !! k') as [l'|] eqn:Hk'; [|done]. cbn.
    rewrite lookup_insert_ne; [done|]. intros <-. by apply Hkk, eq_sym, Hinj.
Qed.

(** A dictionary that is not one of [refs] was written. *)
Lemma fmap_other_dict `{Countable K} (refs : gmap K nat) ds l d :
  (∀ k, refs !! k ≠ Some l) →
  (λ l', default ∅ (<[l := d]> ds !! l')) <$> refs
  = (λ l', default ∅ (ds !! l')) <$> refs.
Proof.
  intros Hl. apply map_fmap_ext. intros k l' Hk.
  rewrite lookup_insert_ne; [done|]. intros <-. by apply (Hl k).
Qed.

(** A key with a new dictionary. *)
Lemma fmap_alloc_dict `{Countable K} (refs : gmap K nat) ds k l attrs :
  refs !! k = None → (∀ k', refs !! k' ≠ Some l) →
  (λ l', default ∅ (<[l := attrs]> ds !! l')) <$> <[k := l]> refs
  = <[k := attrs ∪ default ∅ (((λ l', default ∅ (ds !! l')) <$> refs) !! k)]>
      ((λ l', default ∅ (ds !! l')) <$> refs).
Proof.
  intros Hk Hl. rewrite fmap_insert, lookup_fmap, Hk. cbn.
  rewrite lookup_insert_eq, (right_id_L ∅ (∪)). cbn. f_equal.
  by apply fmap_other_dict.
Qed.

Lemma obj_wf_update_dict st obj l attrs :
  obj_wf st obj → obj_wf (update_dict l attrs st) obj.
Proof.
  intros [Huse Hn He Hd]. split; [|done..].
  cbn [dicts update_dict]. rewrite dom_insert_L. set_solver.
Qed.

Lemma fresh_not_in_obj st obj attrs :
  obj_wf st obj → (alloc_dict attrs st).1 ∉ obj_locs obj.
Proof.
  intros [Huse _ _ _] Hl. apply (is_fresh (dom (dicts st))). by apply Huse.
Qed.

Lemma obj_wf_alloc_node st obj n attrs :
  obj_wf st obj → node_ref obj !! n = None →
  obj_wf (alloc_dict attrs st).2
    (mkGraphObj (<[n := (alloc_dict attrs st).1]> (node_ref obj))
                (edge_ref obj)).
Proof.
  intros Hwf Hnone. pose proof (fresh_not_in_obj st obj attrs Hwf) as Hfr.
  destruct Hwf as [Huse Hn He Hd]. cbn in Hfr.
  split; cbn [node_ref edge_ref alloc_dict fst snd dicts].
  - unfold obj_locs. cbn [node_ref edge_ref]. rewrite dom_insert_L.
    intros l [(k & Hk)%elem_of_map_img|Hl]%elem_of_union.
    + rewrite lookup_insert in Hk. case_decide; simplify_eq; [set_solver|].
      apply elem_of_union_r, Huse. by eapply elem_of_obj_locs_node.
    + apply elem_of_union_r, Huse. by apply elem_of_union_r.
  - intros n1 n2 l. rewrite !lookup_insert.
    repeat case_decide; simplify_eq; try done.
    + intros [= <-] Hn2. exfalso. apply Hfr. by eapply elem_of_obj_locs_node.
    + intros Hn1 [= <-]. exfalso. apply Hfr. by eapply elem_of_obj_locs_node.
    + apply Hn.
  - done.
  - intros n' e l. rewrite lookup_insert. case_decide; [|apply Hd].
    intros [= <-] Hedge. apply Hfr. by eapply elem_of_obj_locs_edge.
Qed.

Lemma obj_wf_alloc_edge st obj (e : Node * Node) attrs :
  obj_wf st obj → edge_ref obj !! e = None →
  obj_wf (alloc_dict attrs st).2
    (mkGraphObj (node_ref obj)
                (<[e := (alloc_dict attrs st).1]> (edge_ref obj))).
Proof.
  intros Hwf Hnone. pose proof (fresh_not_in_obj st obj attrs Hwf) as Hfr.
  destruct Hwf as [Huse Hn He Hd]. cbn in Hfr.
  split; cbn [node_ref edge_ref alloc_dict fst snd dicts].
  - unfold obj_locs. cbn [node_ref edge_ref]. rewrite dom_insert_L.
    intros l [Hl|(k & Hk)%elem_of_map_img]%elem_of_union.
    + apply elem_of_union_r, Huse. by apply elem_of_union_l.
    + rewrite lookup_insert in Hk. case_decide; simplify_eq; [set_solver|].
      apply elem_of_union_r, Huse. by eapply elem_of_obj_locs_edge.
  - done.
  - intros e1 e2 l. rewrite !lookup_insert.
    repeat case_decide; simplify_eq; try done.
    + intros [= <-] He2. exfalso. apply Hfr. by eapply elem_of_obj_locs_edge.
    + intros He1 [= <-]. exfalso. apply Hfr. by eapply elem_of_obj_locs_edge.
    + apply He.
  - intros n' e' l Hnode. rewrite lookup_insert.
    case_decide; [|intros Hedge; by eapply Hd].
    intros [= <-]. apply Hfr. by eapply elem_of_obj_locs_node.
Qed.

Lemma refines_set_alloc o st obj obj' attrs g' :
  graphs st !! o = Some obj →
  obj_wf (alloc_dict attrs st).2 obj' →
  view_obj (dicts (alloc_dict attrs st).2) obj' = g' →
  refines o (set_obj o obj' (alloc_dict attrs st).2) g'.
Proof.
  intros Ho Hwf Hv. exists obj'. cbn [set_obj graphs dicts].
  rewrite lookup_insert_eq. split_and!; [done| |done].
  destruct Hwf. by split.
Qed.

Lemma refines_add_node o st g n attrs :
  refines o st g → refines o (h_add_node o n attrs st) (add_node n attrs g).
Proof.
  intros (obj & Ho & Hwf & <-). unfold h_add_node. rewrite Ho.
  destruct (node_ref obj !! n) as [l|] eqn:Hn.
  - exists obj. split_and!; [done|by apply obj_wf_update_dict|].
    unfold view_obj, add_node. cbn [nodes edges update_dict dicts]. f_equal.
    + apply fmap_update_dict; [done|]. intros n' Hn'.
      by eapply (wf_nodes_inj _ _ Hwf).
    + apply fmap_other_dict. intros e He. by eapply (wf_disjoint _ _ Hwf).
  - change (alloc_dict attrs st) with
      ((alloc_dict attrs st).1, (alloc_dict attrs st).2).
    apply (refines_set_alloc o st obj); [done|by apply obj_wf_alloc_node|].
    pose proof (fresh_not_in_obj st obj attrs Hwf) as Hfr.
    unfold view_obj, add_node. cbn [nodes edges alloc_dict fst snd dicts node_ref edge_ref].
    f_equal.
    + apply fmap_alloc_dict; [done|]. intros n' Hn'.
      apply Hfr. by eapply elem_of_obj_locs_node.
    + apply fmap_other_dict. intros e He.
      apply Hfr. by eapply elem_of_obj_locs_edge.
Qed.

Lemma refines_ensure_node o st g n :
  refines o st g →
  refines o (h_ensure_node o n st)
    (mkDiGraph (ensure_node n (nodes g)) (edges g)).
Proof.
  intros (obj & Ho & Hwf & <-). unfold h_ensure_node. rewrite Ho.
  unfold ensure_node, view_obj. cbn [nodes edges]. rewrite lookup_fmap.
  destruct (node_ref obj !! n) as [l|] eqn:Hn; cbn [fmap option_fmap option_map].
  - by exists obj.
  - change (alloc_dict ∅ st) with ((alloc_dict ∅ st).1, (alloc_dict ∅ st).2).
    apply (refines_set_alloc o st obj); [done|by apply obj_wf_alloc_node|].
    pose proof (fresh_not_in_obj st obj ∅ Hwf) as Hfr.
    unfold view_obj. cbn [nodes edges alloc_dict fst snd dicts node_ref edge_ref].
    f_equal.
    + rewrite fmap_alloc_dict; [|done|].
      * rewrite lookup_fmap, Hn. cbn. by rewrite (left_id_L ∅ (∪)).
      * intros n' Hn'. apply Hfr. by eapply elem_of_obj_locs_node.
    + apply fmap_other_dict. intros e He.
      apply Hfr. by eapply elem_of_obj_locs_edge.
Qed.

Lemma refines_write_edge o st g (u v : Node) attrs :
  refines o st g →
  refines o
    match graphs st !! o with
    | Some obj =>
        match edge_ref obj !! (u, v) with
        | Some l => update_dict l attrs st
        | None =>
            let '(l, st') := alloc_dict attrs st in
            set_obj o (mkGraphObj (node_ref obj)
                         (<[(u, v) := l]> (edge_ref obj))) st'
        end
    | None => st
    end
    (mkDiGraph (nodes g)
       (<[(u, v) := attrs ∪ default ∅ (edges g !! (u, v))]> (edges g))).
Proof.
  intros (obj & Ho & Hwf & <-). rewrite Ho.
  destruct (edge_ref obj !! (u, v)) as [l|] eqn:He.
  - exists obj. split_and!; [done|by apply obj_wf_update_dict|].
    unfold view_obj. cbn [nodes edges update_dict dicts]. f_equal.
    + apply fmap_other_dict. intros n Hn. by eapply (wf_disjoint _ _ Hwf).
    + apply fmap_update_dict; [done|]. intros e' He'.
      by eapply (wf_edges_inj _ _ Hwf).
  - change (alloc_dict attrs st) with
      ((alloc_dict attrs st).1, (alloc_dict attrs st).2).
    apply (refines_set_alloc o st obj); [done|by apply obj_wf_alloc_edge|].
    pose proof (fresh_not_in_obj st obj attrs Hwf) as Hfr.
    unfold view_obj. cbn [nodes edges alloc_dict fst snd dicts node_ref edge_ref].
    f_equal.
    + apply fmap_other_dict. intros n Hn.
      apply Hfr. by eapply elem_of_obj_locs_node.
    + apply fmap_alloc_dict; [done|]. intros e' He'.
      apply Hfr. by eapply elem_of_obj_locs_edge.
Qed.

Lemma refines_add_edge o st g (u v : Node) attrs :
  refines o st g →
  refines o (h_add_edge o u v attrs st) (add_edge u v attrs g).
Proof.
  intros Hr. unfold h_add_edge, add_edge.
  apply (refines_write_edge o _
           (mkDiGraph (ensure_node v (ensure_node u (nodes g))) (edges g))).
  apply (refines_ensure_node o _
           (mkDiGraph (ensure_node u (nodes g)) (edges g))).
  by apply refines_ensure_node.
Qed.

Lemma refines_set_smaller o st obj obj' g' :
  graphs st !! o = Some obj → obj_wf st obj →
  (∀ n l, node_ref obj' !! n = Some l → node_ref obj !! n = Some l) →
  (∀ e l, edge_ref obj' !! e = Some l → edge_ref obj !! e = Some l) →
  view_obj (dicts st) obj' = g' →
  refines o (set_obj o obj' st) g'.
Proof.
  intros Ho [Huse Hn He Hd] Hnodes Hedges Hv. exists obj'.
  cbn [set_obj graphs dicts]. rewrite lookup_insert_eq.
  split_and!; [done| |done]. split.
  - intros l Hl. unfold obj_locs in Hl.
    apply elem_of_union in Hl
      as [(k & Hk)%elem_of_map_img|(k & Hk)%elem_of_map_img]; apply Huse.
    + eapply elem_of_obj_locs_node; eauto.
    + eapply elem_of_obj_locs_edge; eauto.
  - intros n1 n2 l ?%Hnodes ?%Hnodes. by eapply Hn.
  - intros e1 e2 l ?%Hedges ?%Hedges. by eapply He.
  - intros n e l ?%Hnodes ?%Hedges. by eapply Hd.
Qed.

Lemma refines_remove_node o st g n :
  refines o st g →
  refines o (h_remove_node o n st) (remove_node n g).
Proof.
  intros (obj & Ho & Hwf & <-). unfold h_remove_node. rewrite Ho.
  eapply refines_set_smaller; [done..| | |]; cbn [node_ref edge_ref].
  - intros n' l. by intros [_ ?]%lookup_delete_Some.
  - intros e l. by intros [? _]%map_lookup_filter_Some.
  - unfold view_obj, remove_node. cbn [nodes edges node_ref edge_ref]. f_equal.
    + by rewrite fmap_delete.
    + rewrite map_filter_fmap. f_equal.
Qed.

Lemma refines_remove_edge o st g (u v : Node) :
  refines o st g →
  refines o (h_remove_edge o u v st) (remove_edge u v g).
Proof.
  intros (obj & Ho & Hwf & <-). unfold h_remove_edge. rewrite Ho.
  eapply refines_set_smaller; [done..| | |]; cbn [node_ref edge_ref].
  - done.
  - intros e l. by intros [_ ?]%lookup_delete_Some.
  - unfold view_obj, remove_edge. cbn [nodes edges node_ref edge_ref].
    by rewrite fmap_delete.
Qed.

(** Each mutator does to a graph object what it does to the graph the
    object shows, and has the same outcome. *)
Lemma run_mutation_refines o (m : mutation) st g :
  refines o st g →
  refines o (run_mutation (GraphStore0 := object_store o) m st).1
            (run_mutation m g).1 ∧
  (run_mutation (GraphStore0 := object_store o) m st).2
  = (run_mutation m g).2.
Proof.
  apply (simulates_run_mutation (object_store o) DiGraph_store (refines o)).
  - intros s g'. apply refines_view.
  - intros. by apply refines_add_node.
  - intros. by apply refines_add_edge.
  - intros. by apply refines_remove_node.
  - intros. by apply refines_remove_edge.
Qed.

Lemma h_mutate_refines o (ms : list mutation) st g :
  refines o st g → refines o (h_mutate o ms st) (pure_mutate ms g).
Proof.
  revert st g. unfold h_mutate, pure_mutate.
  induction ms as [|m ms IH]; intros st g Hr; [done|].
  cbn [foldl]. apply IH. by apply run_mutation_refines.
Qed.

(** After a filter, mutating the source changes the source as it would
    change a graph held by value, and nothing of the filter result. *)
Lemma filter_then_mutate (f : subgraph_filter) o1 o2 st st' g1
    (ms : list mutation) :
  store_ok st → refines o1 st g1 →
  h_filter f o1 st = (st', Ok o2) →
  view (h_mutate o1 ms st') o1 = pure_mutate ms g1 ∧
  view (h_mutate o1 ms st') o2 = view st' o2.
Proof.
  intros Hok (obj1 & Ho1 & Hwf & Hg1). unfold h_filter.
  destruct (filter_content f (view st o1)) as [content| |]; [|done..].
  destruct (new_graph_spec content st o1 obj1 Hok Ho1)
    as (obj2 & Hne & Hv2 & Hv1 & Hfr2 & Hfr1).
  destruct (new_graph content st) as [o2' st2]. cbn [fst snd] in *.
  intros [= <- <-]. split.
  - apply refines_view, h_mutate_refines. exists obj1.
    destruct Hfr1 as [Hobj Hds _]. split_and!; [done| |].
    + destruct Hwf as [_ Hn He Hd]. split; [|done..].
      intros l Hl. apply elem_of_dom. by destruct (Hds l Hl) as [? _].
    + rewrite <- Hg1. unfold view in Hv1. by rewrite Hobj, Ho1 in Hv1.
  - rewrite (frame_inv_view o1 o2' obj2 (dicts st2) (h_mutate o1 ms st2)).
    + symmetry. by eapply frame_inv_view.
    + by apply frame_inv_mutate.
Qed.

End refinement.

(** ** The food closure as a closure operator *)

Section closure_operator.
Context `{ReactionModel Expr Reaction} `{!ExpressionModel Expr}.
Implicit Types (s t : gset Expr) (r : Reaction) (rs : list Reaction).

Lemma closed_under_subseteq t rs rs' :
  (∀ r, r ∈ rs → r ∈ rs') → closed_under t rs' → closed_under t rs.
Proof. intros Hsub Hcl r Hr. apply Hcl. by apply Hsub. Qed.

(** X1: the closure does not depend on the order in which the reactions are
    traversed, nor on how often a reaction is met: two traversals of the
    same reactions give the same set. *)
Theorem get_set_closure_order s rs rs' :
  (∀ r, r ∈ rs ↔ r ∈ rs') → get_set_closure s rs = get_set_closure s rs'.
Proof.
  intros Hsame.
  destruct (get_set_closure_Some s rs) as (t & -> & Hs & Hcl & Hleast).
  destruct (get_set_closure_Some s rs') as (t' & -> & Hs' & Hcl' & Hleast').
  f_equal. apply set_eq. intros x. split.
  - apply Hleast; [done|]. eapply closed_under_subseteq; [|done].
    intros r. apply Hsame.
  - apply Hleast'; [done|]. eapply closed_under_subseteq; [|done].
    intros r. apply Hsame.
Qed.

(** X2: closing a closed set changes nothing: [get_set_closure] returns a
    set, and its closure under the same reactions is that same set. *)
Theorem get_set_closure_idempotent s rs :
  ∃ t, get_set_closure s rs = Some t ∧ get_set_closure t rs = Some t.
Proof.
  destruct (get_set_closure_Some s rs) as (t & Ht & Hs & Hcl & Hleast).
  exists t. split; [done|].
  destruct (get_set_closure_Some t rs) as (t' & -> & Hs' & Hcl' & Hleast').
  f_equal. apply set_eq. intros x. split; [|apply Hs'].
  by apply Hleast'.
Qed.

(** X3: the closure grows with the seed set and with the reactions: both
    closures are returned, and that of the larger seed under more reactions
    contains the other. *)
Theorem get_set_closure_mono s s' rs rs' :
  s ⊆ s' → (∀ r, r ∈ rs → r ∈ rs') →
  ∃ t t', get_set_closure s rs = Some t ∧
          get_set_closure s' rs' = Some t' ∧ t ⊆ t'.
Proof.
  intros Hss Hrs.
  destruct (get_set_closure_Some s rs) as (t & Ht & Hs & Hcl & Hleast).
  destruct (get_set_closure_Some s' rs') as (t' & Ht' & Hs' & Hcl' & _).
  exists t, t'. split; [done|]. split; [done|].
  apply Hleast; [set_solver|]. by eapply closed_under_subseteq.
Qed.

End closure_operator.

Import Sample.

Lemma get_set_closure_order_witness :
  get_set_closure {["A"; "B"]} [r1; r2]
  = get_set_closure {["A"; "B"]} [r2; r1; r2].
Proof.
  apply (get_set_closure_order {["A"; "B"]} [r1; r2] [r2; r1; r2]).
  intros r. rewrite !elem_of_cons, !elem_of_nil. tauto.
Defined.

Lemma get_set_closure_mono_witness :
  ∃ t t' : gset string,
    get_set_closure {["B"]} [r2] = Some t ∧
    get_set_closure {["A"; "B"]} [r1; r2] = Some t' ∧ t ⊆ t'.
Proof.
  apply (get_set_closure_mono {["B"]} {["A"; "B"]} [r2] [r1; r2]).
  - set_solver.
  - intros r. rewrite !elem_of_cons. tauto.
Defined.

(** ** What the RAF solver returns *)

Section raf_result.
Context `{ReactionModel Expr Reaction} `{!ExpressionModel Expr}.
Local Abbreviation Node := (Node Expr Reaction).
Local Abbreviation DiGraph := (DiGraph Expr Reaction).
Implicit Types (g : DiGraph) (raf : gset Reaction) (food_cl : gset Expr).

Lemma filter_res_elem {A} (cond : A → res bool) (l l' : list A) :
  filter_res cond l = Ok l' →
  ∀ x, x ∈ l' ↔ x ∈ l ∧ cond x = Ok true.
Proof.
  revert l'. induction l as [|y l IH]; intros l' Hl'.
  - injection Hl' as <-. intros x. rewrite elem_of_nil. tauto.
  - cbn [filter_res] in Hl'.
    apply res_bind_Ok in Hl' as (b & Hb & Hl').
    apply res_bind_Ok in Hl' as (rest & Hrest & Hl').
    injection Hl' as <-. specialize (IH rest Hrest). intros x.
    destruct b.
    + rewrite !elem_of_cons, IH. split; [|naive_solver].
      intros [->|[??]]; [|by auto]. auto.
    + rewrite elem_of_cons, IH. split; [naive_solver|].
      intros [[->|?] Hx]; [congruence|done].
Qed.

Lemma get_nodes_elem g (cond : Node → Attrs → res bool) l :
  get_nodes cond g = Ok l →
  ∀ n, n ∈ l ↔ ∃ d, nodes g !! n = Some d ∧ cond n d = Ok true.
Proof.
  unfold get_nodes. intros (l0 & Hl0 & <-)%res_fmap_Ok n.
  rewrite list_elem_of_fmap. split.
  - intros ([n' d] & -> & Hin).
    apply (filter_res_elem _ _ _ Hl0) in Hin as [Hin%elem_of_map_to_list Hc].
    eauto.
  - intros (d & Hd & Hc). exists (n, d). split; [done|].
    apply (filter_res_elem _ _ _ Hl0). split; [|done].
    by apply elem_of_map_to_list.
Qed.

Lemma map_res_elem {A B} (f : A → res B) (l : list A) (l' : list B) :
  map_res f l = Ok l' → ∀ y, y ∈ l' → ∃ x, x ∈ l ∧ f x = Ok y.
Proof.
  revert l'. induction l as [|x l IH]; intros l' Hl'.
  - injection Hl' as <-. by intros y ?%elem_of_nil.
  - cbn [map_res] in Hl'. apply res_bind_Ok in Hl' as (y0 & Hy0 & Hl').
    apply res_bind_Ok in Hl' as (rest & Hrest & Hl'). injection Hl' as <-.
    intros y [->|Hy]%elem_of_cons.
    + exists x. split; [by left|done].
    + destruct (IH rest Hrest y Hy) as (x' & ? & ?). exists x'.
      split; [by right|done].
Qed.

Lemma raf_step_mono food_cl (X Y : gset Reaction) :
  X ⊆ Y → raf_step food_cl X ⊆ raf_step food_cl Y.
Proof.
  intros HXY r (Hr & Hall & Hnt)%raf_step_elem. apply raf_step_elem.
  split_and!; [by apply HXY| |].
  - apply all_reactives_produced_true. intros x Hx.
    rewrite all_reactives_produced_true in Hall.
    destruct (Hall x Hx) as [?|(r' & Hr' & Hp)%elem_of_all_products];
      [by left|right].
    apply elem_of_all_products. exists r'. split; [by apply HXY|done].
  - apply product_non_trivial_true.
    apply product_non_trivial_true in Hnt
      as (p & Hp & (r' & Hr' & Hx)%elem_of_all_reactives & Hn).
    exists p. split_and!; [done| |done].
    apply elem_of_all_reactives. exists r'. split; [by apply HXY|done].
Qed.

(** Whatever the body of the loop keeps within itself stays in the
    candidate set to the end. *)
Lemma raf_loop_keeps fuel food_cl old raf result (S : gset Reaction) :
  raf_loop fuel food_cl old raf = Some result →
  S ⊆ raf_step food_cl S → S ⊆ raf → S ⊆ result.
Proof.
  revert old raf. induction fuel as [|fuel IH]; intros old raf Hloop HS Hsub;
    [done|].
  cbn [raf_loop] in Hloop. case_decide.
  - by injection Hloop as <-.
  - eapply IH; [done..|]. etrans; [exact HS|]. by apply raf_step_mono.
Qed.

(** X4: the reactions [get_raf] returns are reaction nodes of the graph
    whose [reaction_type] is [reduce]. *)
Theorem get_raf_members_reduce g (food : gset Expr) raf r :
  get_raf g food = Ok raf → r ∈ raf →
  ∃ d, nodes g !! inr r = Some d ∧
       reducing_cond (inr r : Node) d = Ok true.
Proof.
  intros (nodes_red & reductions & food_cl & Hn & Hr & _ & _ & Hsub)%get_raf_Ok
    Hin.
  apply Hsub in Hin. unfold as_reactions in Hr.
  apply res_fmap_Ok in Hr as (lr & Hlr & <-).
  apply elem_of_list_to_set in Hin.
  destruct (map_res_elem _ _ _ Hlr r Hin) as (n & Hnin & Hnr).
  destruct n as [x|r']; [done|]. injection Hnr as ->.
  unfold get_all_reducing_reactions in Hn.
  apply res_fmap_Ok in Hn as (ln & Hln & <-).
  apply elem_of_elements, elem_of_list_to_set in Hnin.
  by apply (get_nodes_elem _ _ _ Hln) in Hnin.
Qed.

(** X5: every reaction [get_raf] returns has a product that is outside the
    closure of the food set and is a reactive of a returned reaction; a
    reaction all of whose products the food closure holds is left out. *)
Theorem get_raf_non_trivial g (food : gset Expr) raf r :
  get_raf g food = Ok raf → r ∈ raf →
  ∃ nodes_red reductions food_cl p r',
    get_all_reducing_reactions g = Ok nodes_red ∧
    as_reactions nodes_red = Ok reductions ∧
    get_set_closure food (elements reductions) = Some food_cl ∧
    p ∈ products r ∧ (p ∉ food_cl) ∧ r' ∈ raf ∧ p ∈ reactives r'.
Proof.
  intros (nodes_red & reductions & food_cl & Hn & Hr & Hcl & Hfix & _)%get_raf_Ok
    Hin.
  rewrite <- Hfix in Hin. apply raf_step_elem in Hin as (_ & _ & Hnt).
  apply product_non_trivial_true in Hnt
    as (p & Hp & (r' & Hr' & Hx)%elem_of_all_reactives & Hnot).
  by exists nodes_red, reductions, food_cl, p, r'.
Qed.

(** X6: [get_raf] returns the largest set of its kind: a set of reduce
    reactions of the graph in which every reactive of every member is in
    the food closure or produced by a member, and every member has a
    product outside the food closure that a member consumes, is included
    in the returned set. *)
Theorem get_raf_greatest g (food : gset Expr) raf nodes_red reductions food_cl
    (S : gset Reaction) :
  get_raf g food = Ok raf →
  get_all_reducing_reactions g = Ok nodes_red →
  as_reactions nodes_red = Ok reductions →
  get_set_closure food (elements reductions) = Some food_cl →
  S ⊆ reductions →
  (∀ r, r ∈ S →
     (∀ x, x ∈ reactives r → x ∈ food_cl ∨ ∃ r', r' ∈ S ∧ x ∈ products r') ∧
     (∃ p r', p ∈ products r ∧ (p ∉ food_cl) ∧ r' ∈ S ∧ p ∈ reactives r')) →
  S ⊆ raf.
Proof.
  unfold get_raf. intros Hraf Hn Hr Hcl Hsub Hself.
  rewrite Hn in Hraf. cbn [mbind res_bind] in Hraf.
  rewrite Hr in Hraf. cbn [mbind res_bind] in Hraf.
  rewrite Hcl in Hraf. cbn [mbind res_bind lift_fuel from_option] in Hraf.
  apply lift_fuel_Ok in Hraf.
  eapply raf_loop_keeps; [exact Hraf| |exact Hsub].
  intros r Hin. destruct (Hself r Hin) as [Hall (p & r' & Hp & Hnot & Hr' & Hx)].
  apply raf_step_elem. split_and!; [done| |].
  - apply all_reactives_produced_true. intros x Hx'.
    destruct (Hall x Hx') as [?|?]; [by left|right].
    by apply elem_of_all_products.
  - apply product_non_trivial_true. exists p. split_and!; [done| |done].
    apply elem_of_all_reactives. eauto.
Qed.

End raf_result.

Import Sample.

Lemma get_raf_members_reduce_witness :
  ∃ d, nodes (built [r1; r2]) !! inr r1 = Some d ∧
       reducing_cond (inr r1 : Node string Reaction) d = Ok true.
Proof.
  apply (get_raf_members_reduce (built [r1; r2]) {["B"]} {[r1; r2]} r1);
    compute_done.
Defined.

Lemma get_raf_non_trivial_witness :
  ∃ nodes_red reductions food_cl p r',
    get_all_reducing_reactions (built [r1; r2]) = Ok nodes_red ∧
    as_reactions nodes_red = Ok reductions ∧
    get_set_closure {["B"]} (elements reductions) = Some food_cl ∧
    p ∈ products r1 ∧ (p ∉ food_cl) ∧ r' ∈ ({[r1; r2]} : gset Reaction) ∧
    p ∈ reactives r'.
Proof.
  apply (get_raf_non_trivial (built [r1; r2]) {["B"]} {[r1; r2]} r1);
    compute_done.
Defined.

Lemma get_raf_greatest_witness :
  ({[r1; r2]} : gset Reaction) ⊆ {[r1; r2]}.
Proof.
  apply (get_raf_greatest (built [r1; r2; r_decay]) {["B"]} {[r1; r2]}
           {[inr r1; inr r2; inr r_decay]} {[r1; r2; r_decay]} {["B"]}
           {[r1; r2]}).
  - compute_done.
  - compute_done.
  - compute_done.
  - compute_done.
  - compute_done.
  - intros r Hr. apply elem_of_union in Hr as [Hr|Hr];
      apply elem_of_singleton in Hr; subst r.
    + split.
      * intros x Hx. change (reactives r1) with ["A"; "B"] in Hx.
        apply elem_of_cons in Hx as [->|Hx].
        -- right. exists r2. split; compute_done.
        -- left. apply list_elem_of_singleton in Hx as ->. compute_done.
      * exists "C", r2. split_and!; compute_done.
    + split.
      * intros x Hx. change (reactives r2) with ["C"] in Hx.
        apply list_elem_of_singleton in Hx as ->.
        right. exists r1. split; compute_done.
      * exists "A", r1. split_and!; compute_done.
Defined.

(** ** What the built graph holds *)

Section built_graph.
Context `{ReactionModel Expr Reaction} `{!ExpressionModel Expr}.
Local Abbreviation Node := (Node Expr Reaction).
Local Abbreviation DiGraph := (DiGraph Expr Reaction).
Implicit Types (g : DiGraph) (rn r : Reaction) (x : Expr) (d : Attrs)
  (rs : list Reaction).

Lemma built_snoc_closed rs rn :
  ∃ k : Z, get_occurrences (built rs) (inr rn) = Ok (VInt k) ∧
    built (rs ++ [rn]) =
    mkDiGraph
      (insert_all (reaction_exprs rn)
         (<[inr rn := reaction_attrs rn (VInt (k + 1))]> (nodes (built rs))))
      (insert_all (reaction_edges rn) (edges (built rs))).
Proof.
  destruct (add_reaction_closed (built rs) rn (built_built_inv rs))
    as (k & _ & Hocc & Hrun).
  exists k. split; [done|]. by rewrite built_snoc, Hrun.
Qed.

Lemma reaction_edges_key rn rn' (e : Node * Node) d d' :
  (e, d) ∈ reaction_edges rn → (e, d') ∈ reaction_edges rn' →
  rn = rn' ∧ d = d'.
Proof.
  unfold reaction_edges. rewrite !elem_of_app, !list_elem_of_fmap.
  intros [(x & Heq & _)|(x & Heq & _)] [(y & Heq' & _)|(y & Heq' & _)];
    by simplify_eq.
Qed.

Lemma built_edges_lookup rs (e : Node * Node) d :
  edges (built rs) !! e = Some d ↔ ∃ r, r ∈ rs ∧ (e, d) ∈ reaction_edges r.
Proof.
  revert d. induction rs as [|rn rs IH] using rev_ind; intros d.
  - cbn. rewrite lookup_empty. split; [done|]. by intros (r & ?%elem_of_nil & _).
  - destruct (built_snoc_closed rs rn) as (k & _ & ->). cbn [edges].
    destruct (decide (e ∈ (reaction_edges rn).*1)) as [Hin|Hin].
    + apply list_elem_of_fmap in Hin as ([e' d'] & -> & Hin). cbn [fst].
      rewrite (insert_all_lookup_in _ _ e' d');
        [|intros ???; apply reaction_edges_functional|done].
      split.
      * intros [= <-]. exists rn. split; [set_solver|done].
      * intros (r & _ & Hr).
        by destruct (reaction_edges_key _ _ _ _ _ Hin Hr) as [_ ->].
    + rewrite insert_all_lookup_notin by done. rewrite IH. split.
      * intros (r & Hr & He). exists r. split; [set_solver|done].
      * intros (r & [Hr| ->%list_elem_of_singleton]%elem_of_app & He); [eauto|].
        exfalso. apply Hin. apply list_elem_of_fmap. by exists (e, d).
Qed.

Lemma submissions_snoc r rn rs :
  submissions r (rs ++ [rn])
  = submissions r rs + (if decide (rn = r) then 1 else 0).
Proof.
  unfold submissions. rewrite list.filter_app, length_app, list.filter_cons, list.filter_nil.
  by case_decide.
Qed.

Lemma submissions_pos r rs : 0 < submissions r rs ↔ r ∈ rs.
Proof.
  unfold submissions. split.
  - intros Hpos. destruct (filter (λ r', r' = r) rs) as [|y l] eqn:Hf;
      [cbn in Hpos; lia|].
    assert (y ∈ filter (λ r', r' = r) rs) as Hy by (rewrite Hf; left).
    by apply list_elem_of_filter in Hy as [-> ?].
  - intros Hin.
    assert (r ∈ filter (λ r', r' = r) rs) as Hr
      by (by apply list_elem_of_filter).
    destruct (filter (λ r', r' = r) rs); [by apply elem_of_nil in Hr|].
    cbn. lia.
Qed.

Lemma built_reaction_lookup rs r :
  nodes (built rs) !! inr r =
  if decide (submissions r rs = 0) then None
  else Some (reaction_attrs r (VInt (Z.of_nat (submissions r rs)))).
Proof.
  induction rs as [|rn rs IH] using rev_ind.
  - rewrite decide_True by done. apply lookup_empty.
  - destruct (built_snoc_closed rs rn) as (k & Hocc & ->). cbn [nodes].
    rewrite insert_all_lookup_notin
      by (intros (y & [=])%reaction_exprs_keys).
    rewrite submissions_snoc, lookup_insert.
    destruct (decide (rn = r)) as [->|Hne].
    + rewrite decide_True by done. rewrite decide_False by lia.
      do 3 f_equal.
      unfold get_occurrences, get_node_attribute in Hocc. rewrite IH in Hocc.
      destruct (decide (submissions r rs = 0)) as [Hc|Hc].
      * case_decide; [done|]. injection Hocc as <-. lia.
      * rewrite reaction_attrs_occurrences in Hocc. cbn in Hocc.
        injection Hocc as <-. lia.
    + rewrite decide_False by congruence. rewrite Nat.add_0_r. apply IH.
Qed.

Lemma built_expression_lookup rs x :
  nodes (built rs) !! inl x =
  if decide (Exists (λ r, x ∈ reactives r ++ products r) rs)
  then Some expression_attrs else None.
Proof.
  induction rs as [|rn rs IH] using rev_ind.
  - rewrite decide_False; [apply lookup_empty|]. by intros ?%Exists_nil.
  - destruct (built_snoc_closed rs rn) as (k & _ & ->). cbn [nodes].
    destruct (decide (x ∈ reactives rn ++ products rn)) as [Hx|Hx].
    + rewrite (insert_all_lookup_in _ _ (inl x) expression_attrs).
      * rewrite decide_True; [done|]. apply Exists_app. right. by left.
      * intros ???. apply reaction_exprs_functional.
      * unfold reaction_exprs. apply list_elem_of_fmap. by exists x.
    + rewrite insert_all_lookup_notin.
      * rewrite lookup_insert_ne by done. rewrite IH.
        destruct (decide (Exists (λ r, x ∈ reactives r ++ products r) rs))
          as [Hyes|Hno].
        -- rewrite decide_True; [done|]. apply Exists_app. by left.
        -- rewrite decide_False; [done|].
           intros [?|Hlast%Exists_cons]%Exists_app; [done|].
           destruct Hlast as [?|?%Exists_nil]; done.
      * unfold reaction_exprs. rewrite <- list_fmap_compose.
        intros (y & [= <-] & Hy)%list_elem_of_fmap. done.
Qed.

(** X7: on a graph built by [add_reaction], [get_occurrences] of a
    reaction is the number of times the reaction was submitted, in
    whatever order the submissions came; 0 for a reaction never
    submitted. *)
Theorem get_occurrences_counts rs r :
  get_occurrences (built rs) (inr r)
  = Ok (VInt (Z.of_nat (submissions r rs))).
Proof.
  unfold get_occurrences, get_node_attribute.
  rewrite built_reaction_lookup. case_decide as Hc.
  - case_decide; [done|]. by rewrite Hc.
  - by rewrite reaction_attrs_occurrences.
Qed.

Lemma built_edges_dom rs (u v : Node) :
  (u, v) ∈ dom (edges (built rs)) ↔
  ∃ r, r ∈ rs ∧
    ((∃ x, x ∈ reactives r ∧ u = inl x ∧ v = inr r) ∨
     (∃ p, p ∈ products r ∧ u = inr r ∧ v = inl p)).
Proof.
  rewrite elem_of_dom. unfold is_Some.
  setoid_rewrite built_edges_lookup. unfold reaction_edges.
  setoid_rewrite elem_of_app. setoid_rewrite list_elem_of_fmap. split.
  - intros (d & r & Hr & [(x & [= -> -> ->] & Hx)|(p & [= -> -> ->] & Hp)]);
      exists r; eauto 10.
  - intros (r & Hr & [(x & Hx & -> & ->)|(p & Hp & -> & ->)]).
    + eexists _, r. split; [done|]. left. by exists x.
    + eexists _, r. split; [done|]. right. by exists p.
Qed.

(** X8: the nodes of a built graph are the submitted reactions and the
    expressions that are a reactive or a product of one of them; its edges
    run from each reactive to its reaction and from each reaction to each
    of its products, and there are no others. *)
Theorem built_nodes_edges rs :
  (∀ r, inr r ∈ dom (nodes (built rs)) ↔ r ∈ rs) ∧
  (∀ x, inl x ∈ dom (nodes (built rs)) ↔
        ∃ r, r ∈ rs ∧ (x ∈ reactives r ∨ x ∈ products r)) ∧
  (∀ u v : Node, (u, v) ∈ dom (edges (built rs)) ↔
     ∃ r, r ∈ rs ∧
       ((∃ x, x ∈ reactives r ∧ u = inl x ∧ v = inr r) ∨
        (∃ p, p ∈ products r ∧ u = inr r ∧ v = inl p))).
Proof.
  split_and!.
  - intros r. rewrite elem_of_dom, built_reaction_lookup, <- submissions_pos.
    destruct (decide (submissions r rs = 0)) as [Hc|Hc].
    + split; [by intros [? [=]]|lia].
    + split; [lia|eauto].
  - intros x. rewrite elem_of_dom, built_expression_lookup.
    destruct (decide (Exists (λ r, x ∈ reactives r ++ products r) rs))
      as [Hx|Hx]; rewrite list.Exists_exists in Hx.
    + split; [|by eauto]. intros _.
      destruct Hx as (r & Hr & Hxr%elem_of_app). eauto.
    + split; [by intros [? [=]]|]. intros (r & Hr & Hxr). exfalso.
      apply Hx. exists r. by rewrite elem_of_app.
  - apply built_edges_dom.
Qed.

(** X9: a submitted reaction can be read back from the graph: the
    predecessors of its node are its reactives and the successors of its
    node are its products. *)
Theorem built_reaction_neighbours rs r :
  r ∈ rs →
  predecessors (built rs) (inr r) = list_to_set (inl <$> reactives r) ∧
  successors (built rs) (inr r) = list_to_set (inl <$> products r).
Proof.
  intros Hr. pose proof (built_edges_dom rs) as Hedges.
  split; apply set_eq; intros n.
  - rewrite elem_of_list_to_set, list_elem_of_fmap.
    unfold predecessors. rewrite elem_of_map. split.
    + intros ([u v] & -> & [Hv He]%elem_of_filter). cbn in *. subst v.
      apply Hedges in He as (r' & _ & [(x & Hx & -> & [= <-])|(p & _ & _ & [=])]).
      eauto.
    + intros (x & -> & Hx). exists (inl x, inr r). split; [done|].
      apply elem_of_filter. split; [done|]. apply Hedges. exists r.
      split; [done|]. left. eauto.
  - rewrite elem_of_list_to_set, list_elem_of_fmap.
    unfold successors. rewrite elem_of_map. split.
    + intros ([u v] & -> & [Hu He]%elem_of_filter). cbn in *. subst u.
      apply Hedges in He as (r' & _ & [(x & _ & [=] & _)|(p & Hp & [= <-] & ->)]).
      eauto.
    + intros (p & -> & Hp). exists (inr r, inl p). split; [done|].
      apply elem_of_filter. split; [done|]. apply Hedges. exists r.
      split; [done|]. right. eauto.
Qed.

(** X10: on a built graph the [substrate] flag of the edge from a reactive
    to its reaction tells whether the reactive is the substrate of the
    reaction, and the flag of every edge from a reaction to a product is
    false; resubmitting never changes a flag. *)
Theorem built_substrate_flags rs r :
  r ∈ rs →
  (∀ x, x ∈ reactives r →
     edges (built rs) !! (inl x, inr r)
     = Some (substrate_attrs (bool_decide (Some x = get_substrate r)))) ∧
  (∀ p, p ∈ products r →
     edges (built rs) !! (inr r, inl p) = Some (substrate_attrs false)).
Proof.
  intros Hr. split.
  - intros x Hx. apply built_edges_lookup. exists r. split; [done|].
    unfold reaction_edges. apply elem_of_app. left.
    apply list_elem_of_fmap. by exists x.
  - intros p Hp. apply built_edges_lookup. exists r. split; [done|].
    unfold reaction_edges. apply elem_of_app. right.
    apply list_elem_of_fmap. by exists p.
Qed.

(** X11: [add_reaction] on a graph in which the reaction is a node without
    a numeric [occurrences] raises [TypeError] before it changes
    anything. *)
Theorem add_reaction_type_error g rn d :
  nodes g !! inr rn = Some d →
  py_int (default VNone (d !! "occurrences")) = Raise TypeError →
  add_reaction rn g = (g, Raise TypeError).
Proof.
  intros Hd Hocc. rewrite add_reaction_run. cbn [snapshot DiGraph_store].
  unfold get_occurrences, get_node_attribute. rewrite Hd.
  cbn [mbind res_bind]. unfold py_add. rewrite Hocc. done.
Qed.

End built_graph.

Import Sample.

Lemma built_reaction_neighbours_witness :
  predecessors (built [r1; r2; r1]) (inr r1)
    = list_to_set (inl <$> reactives r1) ∧
  successors (built [r1; r2; r1]) (inr r1)
    = list_to_set (inl <$> products r1).
Proof.
  apply (built_reaction_neighbours [r1; r2; r1] r1). compute_done.
Defined.

Lemma built_substrate_flags_witness :
  edges (built [r1; r2]) !! (inl "A", inr r1) = Some (substrate_attrs true) ∧
  edges (built [r1; r2]) !! (inl "B", inr r1) = Some (substrate_attrs false).
Proof.
  destruct (built_substrate_flags [r1; r2] r1) as [Hflag _]; [compute_done|].
  split.
  - apply (Hflag "A"). compute_done.
  - apply (Hflag "B"). compute_done.
Defined.

Lemma add_reaction_type_error_witness :
  add_reaction r1 (mkDiGraph {[ inr r1 := ∅ ]} ∅)
  = (mkDiGraph {[ inr r1 := ∅ ]} ∅, Raise TypeError).
Proof.
  apply (add_reaction_type_error (mkDiGraph {[ inr r1 := ∅ ]} ∅) r1 ∅);
    compute_done.
Defined.

(** ** The invariant of the graph under filters and mutators *)

Section invariant.
Context `{ReactionModel Expr Reaction} `{!ExpressionModel Expr}.
Local Abbreviation Node := (Node Expr Reaction).
Local Abbreviation DiGraph := (DiGraph Expr Reaction).
Implicit Types (g : DiGraph) (rn r : Reaction) (x : Expr) (d : Attrs)
  (n : Node).

Lemma built_inv_subgraph g (ns : gset Node) :
  built_inv g → built_inv (subgraph ns g).
Proof.
  intros [He Hr Hed]. split; cbn [subgraph nodes edges].
  - intros x d [Hd _]%map_lookup_filter_Some. by eapply He.
  - intros r d [Hd _]%map_lookup_filter_Some. by apply Hr.
  - intros u v d [Hd [Hu Hv]]%map_lookup_filter_Some. cbn in Hu, Hv.
    destruct (Hed u v d Hd) as (Hshape & Hattr & [du Hdu]%elem_of_dom
                                & [dv Hdv]%elem_of_dom).
    split_and!; [done..| |]; apply elem_of_dom.
    + exists du. by apply map_lookup_filter_Some.
    + exists dv. by apply map_lookup_filter_Some.
Qed.

Lemma built_inv_edge_subgraph g (es : gset (Node * Node)) :
  built_inv g → built_inv (edge_subgraph es g).
Proof.
  intros [He Hr Hed]. split; cbn [edge_subgraph nodes edges].
  - intros x d [Hd _]%map_lookup_filter_Some. by eapply He.
  - intros r d [Hd _]%map_lookup_filter_Some. by apply Hr.
  - intros u v d Hkept.
    pose proof Hkept as [Hd Hin]%map_lookup_filter_Some. cbn in Hin.
    destruct (Hed u v d Hd) as (Hshape & Hattr & [du Hdu]%elem_of_dom
                                & [dv Hdv]%elem_of_dom).
    assert ((u, v) ∈ dom (filter (λ e : Node * Node * Attrs, e.1 ∈ es)
                            (edges g))) as Hdom
      by (apply elem_of_dom; eauto).
    split_and!; [done..| |]; apply elem_of_dom.
    + exists du. apply map_lookup_filter_Some. split; [done|]. cbn.
      apply elem_of_union_l, elem_of_map. by exists (u, v).
    + exists dv. apply map_lookup_filter_Some. split; [done|]. cbn.
      apply elem_of_union_r, elem_of_map. by exists (u, v).
Qed.

Lemma built_inv_remove_node g n : built_inv g → built_inv (remove_node n g).
Proof.
  intros [He Hr Hed]. split; cbn [remove_node nodes edges].
  - intros x d [_ Hd]%lookup_delete_Some. by eapply He.
  - intros r d [_ Hd]%lookup_delete_Some. by apply Hr.
  - intros u v d [Hd [Hu Hv]]%map_lookup_filter_Some. cbn in Hu, Hv.
    destruct (Hed u v d Hd) as (Hshape & Hattr & Hdu & Hdv).
    rewrite dom_delete_L. split_and!; [done..|set_solver|set_solver].
Qed.

Lemma built_inv_remove_edge g (u v : Node) :
  built_inv g → built_inv (remove_edge u v g).
Proof.
  intros [He Hr Hed]. split; cbn [remove_edge nodes edges]; [done..|].
  intros u' v' d [_ Hd]%lookup_delete_Some. by apply Hed.
Qed.

Lemma built_inv_mutation g (m : mutation) :
  built_inv g → built_inv (run_mutation m g).1.
Proof.
  intros Hinv. destruct m as [rn| | |max_len]; cbn [run_mutation].
  - by destruct (add_reaction_inv g rn Hinv) as (? & ? & ? & ? & ? & ?).
  - apply (remove_food_edges_preserves built_inv); [|done].
    intros. by apply built_inv_remove_edge.
  - apply (remove_selfloop_preserves built_inv); [|done].
    intros. by apply built_inv_remove_node.
  - apply (trim_short_formulae_preserves built_inv); [|done].
    intros. by apply built_inv_remove_node.
Qed.

Lemma built_inv_filter g (f : subgraph_filter) content :
  built_inv g → filter_content f g = Ok content → built_inv content.
Proof.
  intros Hinv. destruct f; cbn [filter_content].
  - intros (l & _ & <-)%res_fmap_Ok. by apply built_inv_subgraph.
  - intros (l & _ & <-)%res_fmap_Ok. by apply built_inv_subgraph.
  - intros (l & _ & <-)%res_fmap_Ok. by apply built_inv_subgraph.
  - intros (l & _ & <-)%res_fmap_Ok. by apply built_inv_edge_subgraph.
  - unfold get_subgraph_from_reactions.
    intros (formulae & _ & [= <-])%res_bind_Ok. by apply built_inv_subgraph.
Qed.

Lemma derived_built_inv g : derived g → built_inv g.
Proof.
  induction 1 as [|g m _ IH|g f content _ IH Hf].
  - apply built_inv_empty.
  - by apply built_inv_mutation.
  - by eapply built_inv_filter.
Qed.


Lemma derived_built (rs : list Reaction) : derived (built rs).
Proof.
  induction rs as [|rn rs IH] using rev_ind; [constructor|].
  rewrite built_snoc. apply (derived_mutation _ (AddReaction rn) IH).
Qed.

End invariant.

(** A graph built by submissions is reached by so many calls of
    [add_reaction]. *)
Ltac derived_by_calls :=
  unfold built; cbn [foldl];
  repeat first [ apply derived_empty
               | apply (derived_mutation _ (AddReaction _)) ].

Section invariant_witnesses.
Import Sample.


End invariant_witnesses.

(** ** The subgraph filters *)

Section filters.
Context `{ReactionModel Expr Reaction} `{!ExpressionModel Expr}.
Local Abbreviation Node := (Node Expr Reaction).
Local Abbreviation DiGraph := (DiGraph Expr Reaction).
Implicit Types (g : DiGraph) (rn r : Reaction) (x : Expr) (d : Attrs)
  (n : Node).

Lemma filter_res_Raise {A} (cond : A → res bool) (l : list A) e (a : A) :
  a ∈ l → cond a = Raise e →
  (∀ y, y ∈ l → (∃ b, cond y = Ok b) ∨ cond y = Raise e) →
  filter_res cond l = Raise e.
Proof.
  induction l as [|y l IH]; intros Hx Hcx Hall; [by apply elem_of_nil in Hx|].
  cbn [filter_res].
  destruct (Hall y) as [[b Hb]|Hr]; [left| |]; last by rewrite Hr.
  rewrite Hb. cbn [mbind res_bind].
  apply elem_of_cons in Hx as [->|Hx]; [congruence|].
  rewrite IH; [done..|]. intros z Hz. apply Hall. by right.
Qed.

Lemma get_subgraph_induced g (cond : Node → Attrs → res bool)
    (keep : Node → bool) :
  edges_closed g →
  (∀ n d, nodes g !! n = Some d → cond n d = Ok (keep n)) →
  get_subgraph g <$> get_nodes cond g = Ok (induced keep g).
Proof.
  intros Hcl Hc.
  destruct (get_nodes_Ok g cond keep Hc) as (l & -> & _ & Hl).
  cbn [fmap res_fmap]. f_equal. unfold get_subgraph, subgraph, induced.
  f_equal.
  - apply map_filter_ext. intros n d Hd. cbn.
    rewrite elem_of_list_to_set, Hl.
    assert (n ∈ dom (nodes g)) by (apply elem_of_dom; eauto). naive_solver.
  - apply map_filter_ext. intros [u v] d Hd. cbn.
    rewrite !elem_of_list_to_set, !Hl.
    destruct (Hcl u v) as [??]; [apply elem_of_dom; eauto|]. naive_solver.
Qed.

Lemma attr_expression k :
  attr expression_attrs k
  = if decide (k = "node_type") then Ok (VStr "expression") else Raise KeyError.
Proof.
  unfold attr, expression_attrs. destruct (decide (k = "node_type")) as [->|].
  - by rewrite lookup_singleton_eq.
  - by rewrite lookup_singleton_ne.
Qed.

Lemma reduction_cond_inv g n d :
  built_inv g → nodes g !! n = Some d →
  reduction_cond n d = Ok (keeps_reduction n).
Proof.
  intros [He Hr _] Hd. destruct n as [x|r]; unfold reduction_cond.
  - apply He in Hd as ->. by rewrite attr_expression.
  - apply Hr in Hd as (k & _ & ->). unfold attr.
    rewrite reaction_attrs_node_type. cbn [mbind res_bind py_eq].
    rewrite bool_decide_eq_false_2 by done.
    by rewrite reaction_attrs_reaction_type.
Qed.

Lemma longer_formulae_cond_inv g (min_length : Z) n d :
  built_inv g → nodes g !! n = Some d →
  longer_formulae_cond min_length n d = Ok (keeps_longer min_length n).
Proof.
  intros [He Hr _] Hd. destruct n as [x|r]; unfold longer_formulae_cond.
  - apply He in Hd as ->. by rewrite attr_expression.
  - apply Hr in Hd as (k & _ & ->). unfold attr.
    rewrite reaction_attrs_node_type. cbn [mbind res_bind py_eq].
    by rewrite bool_decide_eq_false_2 by done.
Qed.

Lemma expression_cond_inv g n d :
  built_inv g → nodes g !! n = Some d →
  expression_cond n d = Ok (if n is inl _ then true else false).
Proof.
  intros [He Hr _] Hd. destruct n as [x|r]; unfold expression_cond.
  - apply He in Hd as ->. by rewrite attr_expression.
  - apply Hr in Hd as (k & _ & ->). unfold attr.
    by rewrite reaction_attrs_node_type.
Qed.

Lemma induced_induced (keep1 keep2 : Node → bool) g :
  induced keep1 (induced keep2 g) = induced (λ n, keep1 n && keep2 n) g.
Proof.
  unfold induced. cbn [nodes edges]. f_equal.
  - rewrite map_filter_filter. apply map_filter_ext. intros n d _. cbn.
    rewrite andb_true_iff. naive_solver.
  - rewrite map_filter_filter. apply map_filter_ext. intros [u v] d _. cbn.
    rewrite !andb_true_iff. naive_solver.
Qed.

Lemma reduction_subgraph_inv g :
  built_inv g → get_reduction_subgraph g = Ok (induced keeps_reduction g).
Proof.
  intros Hinv. apply get_subgraph_induced.
  - by apply built_inv_edges_closed.
  - intros n d. by apply reduction_cond_inv.
Qed.

Lemma longer_formulae_subgraph_inv g (min_length : Z) :
  built_inv g →
  get_longer_formulae_subgraph g min_length
  = Ok (induced (keeps_longer min_length) g).
Proof.
  intros Hinv. apply get_subgraph_induced.
  - by apply built_inv_edges_closed.
  - intros n d. by apply longer_formulae_cond_inv.
Qed.

(** X13: on a graph reached through the mutators and filters, the two
    node filters return induced subgraphs, nodes and edges with their
    attributes: [get_reduction_subgraph] the one on the expression nodes and
    the reaction nodes whose type is [reduce], and
    [get_longer_formulae_subgraph] the one on the reaction nodes and the
    expression nodes of length at least [min_length]. *)
Theorem node_filters_induced g (min_length : Z) :
  derived g →
  get_reduction_subgraph g = Ok (induced keeps_reduction g) ∧
  get_longer_formulae_subgraph g min_length
  = Ok (induced (keeps_longer min_length) g).
Proof.
  intros Hinv%derived_built_inv. split.
  - by apply reduction_subgraph_inv.
  - by apply longer_formulae_subgraph_inv.
Qed.

(** X14: after the submissions [rs], [get_minimally_reoccurring_subgraph]
    with an integer threshold keeps every expression node and exactly the
    reactions submitted at least that many times. *)
Theorem get_minimally_reoccurring_subgraph_built (rs : list Reaction)
    (min_occurrences : Z) :
  get_minimally_reoccurring_subgraph (built rs) (VInt min_occurrences)
  = Ok (induced (keeps_reoccurring min_occurrences rs) (built rs)).
Proof.
  apply get_subgraph_induced.
  - apply built_inv_edges_closed, built_built_inv.
  - intros [x|r] d Hd; unfold minimally_reoccurring_cond.
    + apply (inv_expr _ (built_built_inv rs)) in Hd as ->.
      by rewrite attr_expression.
    + rewrite built_reaction_lookup in Hd.
      destruct (decide (submissions r rs = 0)); [done|].
      injection Hd as <-. unfold attr.
      rewrite reaction_attrs_node_type. cbn [mbind res_bind py_eq].
      rewrite bool_decide_eq_false_2 by done.
      by rewrite reaction_attrs_occurrences.
Qed.

(** X15: with a threshold that is not a number (a string, [None]),
    [get_minimally_reoccurring_subgraph] raises [TypeError] as soon as the
    graph holds a reaction node. *)
Theorem get_minimally_reoccurring_subgraph_type_error g (v : Val) r :
  derived g → inr r ∈ dom (nodes g) → py_int v = Raise TypeError →
  get_minimally_reoccurring_subgraph g v = Raise TypeError.
Proof.
  intros [He Hr _]%derived_built_inv [d Hd]%elem_of_dom Hv.
  unfold get_minimally_reoccurring_subgraph, get_nodes.
  rewrite (filter_res_Raise _ _ TypeError (inr r, d)); [done| | |].
  - by apply elem_of_map_to_list.
  - cbn. apply Hr in Hd as (k & _ & ->). unfold minimally_reoccurring_cond, attr.
    rewrite reaction_attrs_node_type. cbn [mbind res_bind py_eq].
    rewrite bool_decide_eq_false_2 by done.
    rewrite reaction_attrs_occurrences. cbn [mbind res_bind].
    unfold py_ge. cbn [py_int mbind res_bind]. by rewrite Hv.
  - intros [[x|r'] d'] Hd'%elem_of_map_to_list; cbn.
    + left. apply He in Hd' as ->. unfold minimally_reoccurring_cond.
      rewrite attr_expression. cbn. by eexists.
    + right. apply Hr in Hd' as (k & _ & ->).
      unfold minimally_reoccurring_cond, attr.
      rewrite reaction_attrs_node_type. cbn [mbind res_bind py_eq].
      rewrite bool_decide_eq_false_2 by done.
      rewrite reaction_attrs_occurrences. cbn [mbind res_bind].
      unfold py_ge. cbn [py_int mbind res_bind]. by rewrite Hv.
Qed.

(** X16: on such a graph [get_without_substrates_subgraph] returns a graph
    whose edges are exactly the edges flagged [substrate=False], and whose
    nodes are exactly the nodes of the graph that such an edge touches; a
    node with no such edge is not in the result. *)
Theorem get_without_substrates_subgraph_spec g :
  derived g →
  ∃ g', get_without_substrates_subgraph g = Ok g' ∧
    edges g' = filter (λ e, e.2 = substrate_attrs false) (edges g) ∧
    ∀ n d, nodes g' !! n = Some d ↔
      nodes g !! n = Some d ∧
      ∃ m, (n, m) ∈ dom (edges g') ∨ (m, n) ∈ dom (edges g').
Proof.
  intros [_ _ Hed]%derived_built_inv.
  unfold get_without_substrates_subgraph.
  rewrite (filter_res_Ok _
    (λ e : Node * Node * Attrs,
       bool_decide (e.2 = substrate_attrs false))).
  2:{ intros [[u v] d] Hd%elem_of_map_to_list. cbn.
      destruct (Hed u v d Hd) as (_ & [b ->] & _).
      unfold attr, substrate_attrs. rewrite lookup_singleton_eq.
      cbn [mbind res_bind py_truthy]. f_equal. destruct b.
      - rewrite bool_decide_eq_false_2; [done|].
        intros Heq%(f_equal (.!! "substrate")).
        by rewrite !lookup_singleton_eq in Heq.
      - by rewrite bool_decide_eq_true_2. }
  eexists. split; [done|]. unfold get_edges_subgraph, edge_subgraph.
  cbn [nodes edges].
  assert (filter (λ e : Node * Node * Attrs,
            e.1 ∈ (list_to_set (filter
               (λ e0 : Node * Node * Attrs,
                  bool_decide (e0.2 = substrate_attrs false) = true)
               (map_to_list (edges g))).*1 : gset (Node * Node))) (edges g)
          = filter (λ e, e.2 = substrate_attrs false) (edges g)) as Hkept.
  { apply map_filter_ext. intros [u v] d Hd. cbn.
    rewrite elem_of_list_to_set, list_elem_of_fmap. split.
    - intros ([e d'] & Heq & [Hb Hd']%list_elem_of_filter). cbn in *. subst e.
      apply elem_of_map_to_list in Hd'. apply bool_decide_eq_true in Hb.
      congruence.
    - intros ->. exists ((u, v), substrate_attrs false). split; [done|].
      apply list_elem_of_filter. split; [by apply bool_decide_eq_true|].
      by apply elem_of_map_to_list. }
  rewrite Hkept. split; [done|]. intros n d.
  rewrite map_lookup_filter_Some. cbn.
  rewrite elem_of_union, !elem_of_map.
  split; intros [Hd Hends]; (split; [done|]).
  - destruct Hends as [([u v] & -> & Hin)|([u v] & -> & Hin)]; cbn.
    + exists v. by left.
    + exists u. by right.
  - destruct Hends as [m [Hin|Hin]].
    + left. by exists (n, m).
    + right. by exists (m, n).
Qed.

(** X17: on such a graph, [get_subgraph_from_reactions] applied to the
    result of [get_all_reducing_reactions] returns the graph that
    [get_reduction_subgraph] returns. *)
Theorem get_subgraph_from_reducing_reactions g :
  derived g →
  get_all_reducing_reactions g ≫= get_subgraph_from_reactions g
  = get_reduction_subgraph g.
Proof.
  intros Hd. pose proof (derived_built_inv g Hd) as Hinv.
  pose proof (built_inv_edges_closed g Hinv) as Hcl.
  rewrite (reduction_subgraph_inv g Hinv).
  unfold get_all_reducing_reactions, get_subgraph_from_reactions,
    get_formulae_nodes.
  destruct (get_nodes_Ok g reducing_cond
              (λ n, match n with
                    | inr rn => bool_decide (rtype rn = "reduce")
                    | inl _ => false
                    end)) as (lr & -> & _ & Hlr).
  { intros n d. by apply reducing_cond_inv. }
  destruct (get_nodes_Ok g expression_cond
              (λ n, if n is inl _ then true else false))
    as (le & Hle & _ & Hle').
  { intros n d. by apply expression_cond_inv. }
  cbn [fmap res_fmap mbind res_bind]. rewrite Hle.
  cbn [fmap res_fmap mbind res_bind]. f_equal.
  unfold subgraph, induced. f_equal.
  - apply map_filter_ext. intros n d Hn. cbn.
    rewrite elem_of_union, !elem_of_list_to_set, Hlr, Hle'.
    assert (n ∈ dom (nodes g)) by (apply elem_of_dom; eauto).
    destruct n as [x|r]; cbn; naive_solver.
  - apply map_filter_ext. intros [u v] d He. cbn.
    rewrite !elem_of_union, !elem_of_list_to_set, !Hlr, !Hle'.
    destruct (Hcl u v) as [??]; [apply elem_of_dom; eauto|].
    destruct u as [x|r], v as [x'|r']; cbn; naive_solver.
Qed.

Lemma filter_res_total {A} (cond : A → res bool) (l : list A) :
  (∀ a, a ∈ l → ∃ b, cond a = Ok b) → ∃ l', filter_res cond l = Ok l'.
Proof.
  induction l as [|y l IH]; intros Hall; [by eexists|]. cbn [filter_res].
  destruct (Hall y) as [b ->]; [left|]. destruct IH as [l' ->].
  { intros a Ha. apply Hall. by right. }
  cbn. by eexists.
Qed.

(** X18: on a graph reached through the mutators and filters,
    [add_reaction], [get_raf], [get_minimally_reoccurring_subgraph] with an
    integer threshold and [get_subgraph_from_reactions] return: none of
    them raises and the loops of [get_raf] end. *)
Theorem derived_calls_return g :
  derived g →
  (∀ rn, (add_reaction rn g).2 = Ok tt) ∧
  (∀ food : gset Expr, ∃ raf, get_raf g food = Ok raf) ∧
  (∀ min_occurrences : Z,
     ∃ g', get_minimally_reoccurring_subgraph g (VInt min_occurrences)
           = Ok g') ∧
  (∀ reactions : gset Node,
     ∃ g', get_subgraph_from_reactions g reactions = Ok g').
Proof.
  intros Hinv%derived_built_inv. split_and!.
  - intros rn. destruct (add_reaction_inv g rn Hinv) as (k & _ & _ & -> & _).
    done.
  - intros food. by apply get_raf_inv.
  - intros min_occurrences.
    unfold get_minimally_reoccurring_subgraph, get_nodes.
    destruct (filter_res_total
      (λ nd : Node * Attrs,
         minimally_reoccurring_cond (VInt min_occurrences) nd.1 nd.2)
      (map_to_list (nodes g))) as [l ->]; [|by eexists].
    intros [[x|r] d] Hd%elem_of_map_to_list; cbn;
      unfold minimally_reoccurring_cond.
    + apply (inv_expr g Hinv) in Hd as ->. rewrite attr_expression.
      by eexists.
    + apply (inv_reac g Hinv) in Hd as (k & _ & ->). unfold attr.
      rewrite reaction_attrs_node_type. cbn [mbind res_bind py_eq].
      rewrite bool_decide_eq_false_2 by done.
      rewrite reaction_attrs_occurrences. by eexists.
  - intros reactions. unfold get_subgraph_from_reactions, get_formulae_nodes.
    destruct (get_nodes_Ok g expression_cond
                (λ n, if n is inl _ then true else false))
      as (le & -> & _).
    { intros n d. by apply expression_cond_inv. }
    by eexists.
Qed.

End filters.

Section filters_witnesses.
Import Sample.

Lemma node_filters_induced_witness :
  get_reduction_subgraph (built [r1; r2])
  = Ok (induced keeps_reduction (built [r1; r2])) ∧
  get_longer_formulae_subgraph (built [r1; r2]) 2
  = Ok (induced (keeps_longer 2) (built [r1; r2])).
Proof.
  apply (node_filters_induced (built [r1; r2]) 2). derived_by_calls.
Defined.

Lemma get_minimally_reoccurring_subgraph_type_error_witness :
  get_minimally_reoccurring_subgraph (built [r1; r2]) VNone = Raise TypeError.
Proof.
  apply (get_minimally_reoccurring_subgraph_type_error (built [r1; r2])
           VNone r1).
  - derived_by_calls.
  - apply elem_of_dom. by compute_done.
  - reflexivity.
Defined.

Lemma get_without_substrates_subgraph_spec_witness :
  ∃ g', get_without_substrates_subgraph (built [r1; r2]) = Ok g' ∧
    edges g' = filter (λ e, e.2 = substrate_attrs false)
                 (edges (built [r1; r2])) ∧
    ∀ n d, nodes g' !! n = Some d ↔
      nodes (built [r1; r2]) !! n = Some d ∧
      ∃ m, (n, m) ∈ dom (edges g') ∨ (m, n) ∈ dom (edges g').
Proof.
  apply (get_without_substrates_subgraph_spec (built [r1; r2])).
  derived_by_calls.
Defined.

Lemma get_subgraph_from_reducing_reactions_witness :
  get_all_reducing_reactions (built [r1; r2])
    ≫= get_subgraph_from_reactions (built [r1; r2])
  = get_reduction_subgraph (built [r1; r2]).
Proof.
  apply (get_subgraph_from_reducing_reactions (built [r1; r2])).
  derived_by_calls.
Defined.

Lemma derived_calls_return_witness :
  (∀ rn, (add_reaction rn (built [r1; r2])).2 = Ok tt) ∧
  (∀ food : gset string, ∃ raf, get_raf (built [r1; r2]) food = Ok raf) ∧
  (∀ min_occurrences : Z,
     ∃ g', get_minimally_reoccurring_subgraph (built [r1; r2])
             (VInt min_occurrences) = Ok g') ∧
  (∀ reactions : gset (Node string Reaction),
     ∃ g', get_subgraph_from_reactions (built [r1; r2]) reactions = Ok g').
Proof.
  apply (derived_calls_return (built [r1; r2])). derived_by_calls.
Defined.

End filters_witnesses.

(** ** The mutators on graphs reached through the interface *)

Section mutator_facts.
Context `{ReactionModel Expr Reaction} `{!ExpressionModel Expr}.
Local Abbreviation Node := (Node Expr Reaction).
Local Abbreviation DiGraph := (DiGraph Expr Reaction).
Implicit Types (g s : DiGraph) (rn r : Reaction) (x : Expr) (d : Attrs)
  (n : Node).

(** *** [trim_short_formulae] *)

Lemma short_formula_cond_tagged g (max_len : Z) n d :
  well_tagged g → nodes g !! n = Some d →
  short_formula_cond max_len n d = Ok (is_short max_len n).
Proof.
  intros [_ Htag] Hd. apply Htag in Hd. unfold short_formula_cond, attr.
  cbn in Hd. rewrite Hd. by destruct n.
Qed.

Lemma trim_loop (max_len : Z) (l : list (Node * Attrs)) s :
  NoDup l.*1 →
  (∀ n d, (n, d) ∈ l →
     n ∈ dom (nodes s) ∧
     short_formula_cond max_len n d = Ok (is_short max_len n)) →
  for_each l (λ nd,
    short ← m_lift (short_formula_cond max_len nd.1 nd.2);
    if short : bool then m_remove_node nd.1 else m_ret tt) s
  = (foldl (λ g' n, remove_node n g') s
       (filter (λ n, is_short max_len n = true) l.*1), Ok tt).
Proof.
  revert s. induction l as [|[n d] l IH]; intros s Hnd Hl; [done|].
  cbn [fmap list_fmap fst] in Hnd. apply list.NoDup_cons in Hnd as [Hn Hnd].
  destruct (Hl n d) as [Hin Hc]; [left|].
  cbn [for_each]. unfold mbind at 1, M_bind at 1, m_bind at 1.
  unfold mbind at 1, M_bind at 1, m_bind at 1, m_lift at 1.
  cbn [fst snd]. rewrite Hc.
  cbn [fmap list_fmap fst]. rewrite list.filter_cons.
  destruct (is_short max_len n) eqn:Hs.
  - rewrite decide_True by done.
    unfold m_remove_node, mbind at 1, M_bind at 1, m_bind at 1, m_read.
    cbn [snapshot DiGraph_store]. rewrite bool_decide_eq_true_2 by done.
    unfold m_write. cbn [st_remove_node DiGraph_store foldl].
    apply IH; [done|]. intros n' d' Hin'. destruct (Hl n' d') as [Hd' ?];
      [by right|]. split; [|done]. cbn [remove_node nodes].
    rewrite dom_delete_L. apply elem_of_difference. split; [done|].
    intros ->%elem_of_singleton. apply Hn. apply list_elem_of_fmap.
    by exists (n, d').
  - rewrite decide_False by done. unfold mret, M_ret, m_ret.
    apply IH; [done|]. intros n' d' Hin'. apply Hl. by right.
Qed.

Lemma trim_short_formulae_tagged g (max_len : Z) :
  well_tagged g →
  trim_short_formulae max_len g
  = (induced (keeps_longer (max_len + 1)) g, Ok tt).
Proof.
  intros Htag. pose proof (proj1 Htag) as Hcl.
  unfold trim_short_formulae, mbind at 1, M_bind at 1, m_bind at 1, m_read.
  cbn [snapshot DiGraph_store].
  rewrite trim_loop.
  - f_equal. rewrite <- (without_nodes_empty g) at 1.
    rewrite remove_nodes_fold. unfold without_nodes, induced. f_equal.
    + apply map_filter_ext. intros n d Hd. cbn.
      rewrite elem_of_union, elem_of_list_to_set, list_elem_of_filter,
        list_elem_of_fmap.
      assert (is_short max_len n = negb (keeps_longer (max_len + 1) n))
        as ->.
      { destruct n as [x|r]; cbn; [|done].
        repeat case_bool_decide; try done; lia. }
      split.
      * intros Hnot. destruct (keeps_longer (max_len + 1) n); [done|].
        exfalso. apply Hnot. right. split; [done|]. exists (n, d).
        split; [done|]. by apply elem_of_map_to_list.
      * intros -> [[]%elem_of_empty|[? _]]. done.
    + apply map_filter_ext. intros [u v] d Hd. cbn.
      rewrite !elem_of_union, !elem_of_list_to_set, !list_elem_of_filter,
        !list_elem_of_fmap.
      assert (∀ n, is_short max_len n = negb (keeps_longer (max_len + 1) n))
        as Hneg.
      { intros [x|r]; cbn; [|done]. repeat case_bool_decide; try done; lia. }
      rewrite !Hneg.
      destruct (Hcl u v) as [[du Hu]%elem_of_dom [dv Hv]%elem_of_dom];
        [apply elem_of_dom; eauto|].
      split.
      * intros [Hnu Hnv]. split.
        -- destruct (keeps_longer (max_len + 1) u); [done|]. exfalso.
           apply Hnu. right. split; [done|]. exists (u, du).
           split; [done|]. by apply elem_of_map_to_list.
        -- destruct (keeps_longer (max_len + 1) v); [done|]. exfalso.
           apply Hnv. right. split; [done|]. exists (v, dv).
           split; [done|]. by apply elem_of_map_to_list.
      * intros [-> ->]. split; intros [[]%elem_of_empty|[? _]]; done.
  - apply NoDup_fst_map_to_list.
  - intros n d Hd%elem_of_map_to_list. split.
    + apply elem_of_dom. eauto.
    + by eapply short_formula_cond_tagged.
Qed.

(** *** [remove_food_edges] *)

Local Abbreviation food_body := (λ nd : Node * Attrs,
    reducing ← m_lift (reducing_cond nd.1 nd.2);
    if reducing : bool then
      n ← m_lift (as_reaction nd.1);
      if bool_decide (1 < length (reactives n)) then
        match min_by_len (reactives n) with
        | Some food_node => m_remove_edge (inl food_node) nd.1
        | None => m_raise ValueError
        end
      else m_ret tt
    else m_ret tt).

Lemma food_edge_snd r (e : Node * Node) : food_edge r = Some e → e.2 = inr r.
Proof.
  unfold food_edge. destruct (_ && _); [|done].
  destruct (min_by_len (reactives r)); [|done]. by intros [= <-].
Qed.

Lemma min_by_len_is_Some (l : list Expr) : l ≠ [] → is_Some (min_by_len l).
Proof.
  destruct l as [|y l]; [done|]. intros _. cbn.
  destruct (min_by_len l); [case_bool_decide|]; eauto.
Qed.

Lemma min_by_len_elem (l : list Expr) x : min_by_len l = Some x → x ∈ l.
Proof.
  revert x. induction l as [|y l IH]; intros x; [done|]. cbn.
  destruct (min_by_len l) as [z|].
  - case_bool_decide; intros [= <-]; [right; by apply IH|left].
  - intros [= <-]. left.
Qed.

Lemma food_body_run g0 n d s :
  built_inv g0 → nodes g0 !! n = Some d →
  food_body (n, d) s =
  match n with
  | inr r =>
      match food_edge r with
      | Some e =>
          if bool_decide (e ∈ dom (edges s))
          then (remove_edge e.1 e.2 s, Ok tt)
          else (s, Raise NetworkXError)
      | None => (s, Ok tt)
      end
  | inl _ => (s, Ok tt)
  end.
Proof.
  intros Hinv Hd.
  unfold mbind at 1, M_bind at 1, m_bind at 1, m_lift at 1. cbn [fst snd].
  rewrite (reducing_cond_inv g0 n d Hinv Hd). destruct n as [x|r]; [done|].
  unfold food_edge. case_bool_decide as Hred; cbn [andb]; [|done].
  unfold mbind at 1, M_bind at 1, m_bind at 1, m_lift at 1.
  cbn [as_reaction]. case_bool_decide as Hlen; [|done].
  destruct (min_by_len_is_Some (reactives r)) as [y Hy].
  { intros Heq. rewrite Heq in Hlen. cbn in Hlen. lia. }
  rewrite Hy. cbn [fmap option_fmap option_map fst snd].
  unfold m_remove_edge, mbind at 1, M_bind at 1, m_bind at 1, m_read.
  cbn [snapshot DiGraph_store]. by case_bool_decide.
Qed.

Lemma food_loop_present g0 (l : list (Node * Attrs)) s :
  built_inv g0 → NoDup l.*1 →
  (∀ n d, (n, d) ∈ l → nodes g0 !! n = Some d) →
  (∀ r d (e : Node * Node),
     (inr r, d) ∈ l → food_edge r = Some e → e ∈ dom (edges s)) →
  ∃ s', for_each l food_body s = (s', Ok tt) ∧ nodes s' = nodes s ∧
    ∀ (e : Node * Node) de, edges s' !! e = Some de ↔
      edges s !! e = Some de ∧
      ¬ ∃ r d, (inr r, d) ∈ l ∧ food_edge r = Some e.
Proof.
  intros Hinv. revert s.
  induction l as [|[n d] l IH]; intros s Hnd Hl Hpres.
  { exists s. split; [done|]. split; [done|]. intros e de. split.
    - intros ?. split; [done|]. intros (? & ? & []%elem_of_nil & _).
    - by intros [? _]. }
  cbn [fmap list_fmap fst] in Hnd. apply list.NoDup_cons in Hnd as [Hn Hnd].
  cbn [for_each]. unfold mbind at 1, M_bind at 1, m_bind at 1.
  rewrite (food_body_run g0 n d s Hinv) by (apply Hl; left).
  assert (∀ s1, nodes s1 = nodes s →
    (∀ (e : Node * Node) de, edges s1 !! e = Some de ↔
       edges s !! e = Some de ∧
       ¬ match n with
         | inr r => food_edge r = Some e
         | inl _ => False
         end) →
    ∃ s', for_each l food_body s1 = (s', Ok tt) ∧ nodes s' = nodes s ∧
      ∀ (e : Node * Node) de, edges s' !! e = Some de ↔
        edges s !! e = Some de ∧
        ¬ ∃ r d0, (inr r, d0) ∈ (n, d) :: l ∧ food_edge r = Some e) as Hgo.
  { intros s1 Hn1 He1.
    destruct (IH s1) as (s' & Hrun & Hns & Hes); [done| | |].
    - intros n' d' Hin. apply Hl. by right.
    - intros r d' e Hin Hfe.
      assert (e ∈ dom (edges s)) as [de Hde]%elem_of_dom
        by (eapply Hpres; [by right|done]).
      apply elem_of_dom. exists de. apply He1. split; [done|].
      destruct n as [x|r0]; [tauto|]. intros Hfe0.
      apply Hn. apply list_elem_of_fmap. exists (inr r, d'). split; [|done].
      cbn. apply food_edge_snd in Hfe, Hfe0. congruence.
    - exists s'. split; [done|]. split; [congruence|]. intros e de.
      rewrite Hes, He1. split.
      + intros [[Hde Hnot0] Hnot]. split; [done|].
        intros (r & d0 & Hin & Hfe). apply elem_of_cons in Hin as [[= <- <-]|Hin].
        * by apply Hnot0.
        * apply Hnot. eauto.
      + intros [Hde Hnot]. split; [split; [done|]|].
        * destruct n as [x|r0]; [tauto|]. intros Hfe. apply Hnot.
          exists r0, d. split; [left|done].
        * intros (r & d0 & Hin & Hfe). apply Hnot. exists r, d0.
          split; [by right|done]. }
  destruct n as [x|r].
  { apply Hgo; [done|]. intros e de. tauto. }
  destruct (food_edge r) as [e|] eqn:Hfe.
  2:{ apply Hgo; [done|]. intros e de. split; [|tauto].
      intros ?. split; [done|congruence]. }
  rewrite bool_decide_eq_true_2 by (eapply Hpres; [left|done]).
  apply Hgo; [done|]. intros e' de. cbn [remove_edge edges].
  rewrite <- surjective_pairing, lookup_delete_Some. split.
  - intros [Hne Hde]. split; [done|]. congruence.
  - intros [Hde Hne]. split; [|done]. congruence.
Qed.

Lemma food_loop_absent g0 (l : list (Node * Attrs)) s r d (e : Node * Node) :
  built_inv g0 →
  (∀ n d, (n, d) ∈ l → nodes g0 !! n = Some d) →
  (inr r, d) ∈ l → food_edge r = Some e → e ∉ dom (edges s) →
  (for_each l food_body s).2 = Raise NetworkXError.
Proof.
  intros Hinv. revert s.
  induction l as [|[n d'] l IH]; intros s Hl Hin Hfe Habs.
  { by apply elem_of_nil in Hin. }
  cbn [for_each]. unfold mbind at 1, M_bind at 1, m_bind at 1.
  rewrite (food_body_run g0 n d' s Hinv) by (apply Hl; left).
  assert (∀ n' d0, (n', d0) ∈ l → nodes g0 !! n' = Some d0) as Hl'.
  { intros n' d0 ?. apply Hl. by right. }
  apply elem_of_cons in Hin as [[= <- <-]|Hin].
  { rewrite Hfe. by rewrite bool_decide_eq_false_2. }
  destruct n as [x|r0]; [by apply IH|].
  destruct (food_edge r0) as [e0|]; [|by apply IH].
  case_bool_decide; [|done]. apply IH; [done..|].
  cbn [remove_edge edges]. rewrite dom_delete_L. set_solver.
Qed.

Lemma remove_food_edges_present g :
  built_inv g →
  (∀ r (e : Node * Node),
     inr r ∈ dom (nodes g) → food_edge r = Some e → e ∈ dom (edges g)) →
  remove_food_edges g
  = (mkDiGraph (nodes g) (filter (λ e, is_food_edge e.1 = false) (edges g)),
     Ok tt).
Proof.
  intros Hinv Hpres.
  unfold remove_food_edges, mbind at 1, M_bind at 1, m_bind at 1, m_read.
  cbn [snapshot DiGraph_store].
  destruct (food_loop_present g (map_to_list (nodes g)) g)
    as (s' & -> & Hns & Hes); [done| | | |].
  - apply NoDup_fst_map_to_list.
  - intros n d. by rewrite elem_of_map_to_list.
  - intros r d e Hin%elem_of_map_to_list. apply Hpres. apply elem_of_dom. eauto.
  - f_equal. destruct s' as [ns' es']. cbn in Hns, Hes. subst ns'. f_equal.
    apply map_eq. intros e. apply option_eq. intros de.
    rewrite Hes, map_lookup_filter_Some. cbn.
    split; intros [Hde Hnot]; (split; [done|]).
    + unfold is_food_edge. destruct (e.2) as [x|r] eqn:He2; [done|].
      apply bool_decide_eq_false. intros Hfe.
      destruct (inv_edge g Hinv e.1 e.2 de)
        as (_ & _ & _ & [d Hd]%elem_of_dom).
      { by rewrite <- surjective_pairing. }
      apply Hnot. exists r, d. split; [|done]. apply elem_of_map_to_list.
      by rewrite <- He2.
    + intros (r & d & _ & Hfe). unfold is_food_edge in Hnot.
      rewrite (food_edge_snd r e Hfe) in Hnot.
      by apply bool_decide_eq_false in Hnot.
Qed.

Lemma remove_food_edges_absent g r (e : Node * Node) :
  built_inv g → inr r ∈ dom (nodes g) → food_edge r = Some e →
  e ∉ dom (edges g) →
  (remove_food_edges g).2 = Raise NetworkXError.
Proof.
  intros Hinv [d Hd]%elem_of_dom Hfe Habs.
  unfold remove_food_edges, mbind at 1, M_bind at 1, m_bind at 1, m_read.
  cbn [snapshot DiGraph_store].
  apply (food_loop_absent g _ g r d e); [done| |by apply elem_of_map_to_list
                                         |done..].
  intros n d'. by rewrite elem_of_map_to_list.
Qed.

Lemma food_edge_reactive r (e : Node * Node) :
  food_edge r = Some e → ∃ x, x ∈ reactives r ∧ e = (inl x, inr r).
Proof.
  unfold food_edge. destruct (_ && _); [|done].
  destruct (min_by_len (reactives r)) as [y|] eqn:Hy; [|done].
  intros [= <-]. exists y. split; [|done]. by apply min_by_len_elem.
Qed.

(** X19: on a graph reached through the mutators and filters,
    [trim_short_formulae(max_len)] returns without raising and leaves the
    subgraph induced by the reaction nodes and the expression nodes longer
    than [max_len], which is the graph that
    [get_longer_formulae_subgraph(max_len + 1)] returns. *)
Theorem trim_short_formulae_longer g (max_len : Z) :
  derived g →
  trim_short_formulae max_len g
    = (induced (keeps_longer (max_len + 1)) g, Ok tt) ∧
  get_longer_formulae_subgraph g (max_len + 1)
    = Ok (induced (keeps_longer (max_len + 1)) g).
Proof.
  intros Hinv%derived_built_inv. split.
  - by apply trim_short_formulae_tagged, built_inv_well_tagged.
  - by apply longer_formulae_subgraph_inv.
Qed.

(** X20: after the submissions [rs], [remove_food_edges] returns without
    raising, keeps every node, and removes exactly one edge into each
    [reduce] reaction that has more than one reactive: the edge from the
    first of its shortest reactives. *)
Theorem remove_food_edges_built (rs : list Reaction) :
  remove_food_edges (built rs)
  = (mkDiGraph (nodes (built rs))
       (filter (λ e, is_food_edge e.1 = false) (edges (built rs))), Ok tt).
Proof.
  apply remove_food_edges_present; [apply built_built_inv|].
  intros r e Hr Hfe. apply food_edge_reactive in Hfe as (x & Hx & ->).
  apply elem_of_dom.
  exists (substrate_attrs (bool_decide (Some x = get_substrate r))).
  apply built_edges_lookup. exists r. split.
  - apply submissions_pos. apply elem_of_dom in Hr as [d Hd].
    rewrite built_reaction_lookup in Hd.
    destruct (decide (submissions r rs = 0)); [done|lia].
  - unfold reaction_edges. apply elem_of_app. left.
    apply list_elem_of_fmap. by exists x.
Qed.

(** X21: [remove_food_edges] cannot be repeated: on a graph reached through
    the mutators and filters that holds a [reduce] reaction with more than
    one reactive, a call that follows a call that returned raises
    [NetworkXError], the edge to remove being gone. *)
Theorem remove_food_edges_again g r :
  derived g → inr r ∈ dom (nodes g) →
  rtype r = "reduce" → 1 < length (reactives r) →
  (remove_food_edges g).2 = Ok tt →
  (remove_food_edges (remove_food_edges g).1).2 = Raise NetworkXError.
Proof.
  intros Hinv%derived_built_inv Hr Hred Hlen Hok.
  assert (∃ e : Node * Node, food_edge r = Some e) as [e Hfe].
  { unfold food_edge. rewrite !bool_decide_eq_true_2 by done. cbn [andb].
    destruct (min_by_len_is_Some (reactives r)) as [y ->]; [|by eexists].
    intros Heq. rewrite Heq in Hlen. cbn in Hlen. lia. }
  assert (∀ r' (e' : Node * Node),
            inr r' ∈ dom (nodes g) → food_edge r' = Some e' →
            e' ∈ dom (edges g)) as Hpres.
  { intros r' e' Hr' Hfe'. destruct (decide (e' ∈ dom (edges g))); [done|].
    rewrite (remove_food_edges_absent g r' e') in Hok; done. }
  rewrite (remove_food_edges_present g Hinv Hpres). cbn [fst].
  apply (remove_food_edges_absent _ r e); [| done | done |].
  - pose proof (remove_food_edges_preserves built_inv
      (λ u v s, built_inv_remove_edge s u v) g Hinv) as Hinv'.
    by rewrite (remove_food_edges_present g Hinv Hpres) in Hinv'.
  - cbn [edges]. intros [de Hde]%elem_of_dom.
    apply map_lookup_filter_Some in Hde as [_ Hnot]. cbn in Hnot.
    unfold is_food_edge in Hnot. rewrite (food_edge_snd r e Hfe) in Hnot.
    by apply bool_decide_eq_false in Hnot.
Qed.

(** X22: on a graph reached through the mutators and filters,
    [remove_selfloop] returns without raising, a second call changes
    nothing, and it can be exchanged with [trim_short_formulae]: either
    order leaves the same graph. *)
Theorem remove_selfloop_composes g (max_len : Z) :
  derived g →
  (remove_selfloop g).2 = Ok tt ∧
  remove_selfloop (remove_selfloop g).1 = ((remove_selfloop g).1, Ok tt) ∧
  (trim_short_formulae max_len (remove_selfloop g).1).1
  = (remove_selfloop (trim_short_formulae max_len g).1).1.
Proof.
  intros Hinv%derived_built_inv.
  assert (∀ g', well_tagged g' →
            remove_selfloop g'
            = (induced (λ n, negb (is_selfloop n)) g', Ok tt)) as Hrun.
  { intros g' Htag. rewrite (remove_selfloop_tagged g' Htag). f_equal.
    unfold induced. f_equal; apply map_filter_ext.
    - intros n d _. cbn. destruct (is_selfloop n); cbn; naive_solver.
    - intros [u v] d _. cbn.
      destruct (is_selfloop u), (is_selfloop v); cbn; naive_solver. }
  pose proof (built_inv_well_tagged g Hinv) as Htag.
  assert (well_tagged (induced (λ n, negb (is_selfloop n)) g)) as Htag1.
  { apply built_inv_well_tagged.
    pose proof (remove_selfloop_preserves built_inv
      (λ n s, built_inv_remove_node s n) g Hinv) as Hinv'.
    by rewrite (Hrun g Htag) in Hinv'. }
  assert (well_tagged (induced (keeps_longer (max_len + 1)) g)) as Htag2.
  { apply built_inv_well_tagged.
    pose proof (trim_short_formulae_preserves built_inv
      (λ n s, built_inv_remove_node s n) max_len g Hinv) as Hinv'.
    by rewrite (trim_short_formulae_tagged g max_len Htag) in Hinv'. }
  rewrite (Hrun g Htag). cbn [fst snd]. split; [done|].
  rewrite (Hrun _ Htag1), (trim_short_formulae_tagged _ max_len Htag1),
    (trim_short_formulae_tagged g max_len Htag).
  cbn [fst]. rewrite (Hrun _ Htag2). cbn [fst]. rewrite !induced_induced.
  split.
  - f_equal. unfold induced. f_equal; apply map_filter_ext.
    + intros n d _. cbn. by rewrite andb_diag.
    + intros [u v] d _. cbn. by rewrite !andb_diag.
  - unfold induced. f_equal; apply map_filter_ext.
    + intros n d _. cbn. by rewrite andb_comm.
    + intros [u v] d _. cbn.
      by rewrite (andb_comm (keeps_longer (max_len + 1) u)),
        (andb_comm (keeps_longer (max_len + 1) v)).
Qed.

End mutator_facts.

Section mutator_witnesses.
Import Sample.

Lemma trim_short_formulae_longer_witness :
  trim_short_formulae 1 (built [r1; r2])
    = (induced (keeps_longer (1 + 1)) (built [r1; r2]), Ok tt) ∧
  get_longer_formulae_subgraph (built [r1; r2]) (1 + 1)
    = Ok (induced (keeps_longer (1 + 1)) (built [r1; r2])).
Proof.
  apply (trim_short_formulae_longer (built [r1; r2]) 1). derived_by_calls.
Defined.

Lemma remove_food_edges_again_witness :
  (remove_food_edges (remove_food_edges (built [r1; r2])).1).2
  = Raise NetworkXError.
Proof.
  apply (remove_food_edges_again (built [r1; r2]) r1).
  - derived_by_calls.
  - by compute_done.
  - reflexivity.
  - cbn. lia.
  - by compute_done.
Defined.

Lemma remove_selfloop_composes_witness :
  (remove_selfloop (built [r1; r_idle])).2 = Ok tt ∧
  remove_selfloop (remove_selfloop (built [r1; r_idle])).1
    = ((remove_selfloop (built [r1; r_idle])).1, Ok tt) ∧
  (trim_short_formulae 0 (remove_selfloop (built [r1; r_idle])).1).1
  = (remove_selfloop (trim_short_formulae 0 (built [r1; r_idle])).1).1.
Proof.
  apply (remove_selfloop_composes (built [r1; r_idle]) 0). derived_by_calls.
Defined.

End mutator_witnesses.

(** ** [filter_reducing_reactions] and the size of the graph *)

Section query_facts.
Context `{ReactionModel Expr Reaction} `{!ExpressionModel Expr}.
Local Abbreviation Node := (Node Expr Reaction).
Local Abbreviation DiGraph := (DiGraph Expr Reaction).
Implicit Types (g : DiGraph) (rn r : Reaction) (x : Expr) (d : Attrs)
  (n : Node).

Local Abbreviation reducing_test g := (λ n : Node,
  nt ← item (get_node_attributes g "node_type") n;
  if py_eq nt (VStr "reaction")
  then rt ← item (get_node_attributes g "reaction_type") n;
       Ok (py_eq rt (VStr "reduce"))
  else Ok false).

Local Abbreviation reduces := (λ n : Node,
  match n with
  | inr rn => bool_decide (rtype rn = "reduce")
  | inl _ => false
  end).

Lemma reducing_test_present g n :
  built_inv g → n ∈ dom (nodes g) → reducing_test g n = Ok (reduces n).
Proof.
  intros [He Hr _] [d Hd]%elem_of_dom. unfold item, get_node_attributes.
  rewrite !lookup_omap, Hd. cbn [mbind option_bind].
  destruct n as [x|r].
  - apply He in Hd as ->. unfold expression_attrs.
    by rewrite lookup_singleton_eq.
  - apply Hr in Hd as (k & _ & ->). rewrite reaction_attrs_node_type.
    cbn [mbind res_bind py_eq]. rewrite bool_decide_eq_true_2 by done.
    by rewrite reaction_attrs_reaction_type.
Qed.

Lemma reducing_test_absent g n :
  n ∉ dom (nodes g) → reducing_test g n = Raise KeyError.
Proof.
  intros Hn%not_elem_of_dom. unfold item, get_node_attributes.
  by rewrite !lookup_omap, Hn.
Qed.

(** X23: on a graph reached through the mutators and filters,
    [filter_reducing_reactions] applied to nodes of the graph returns those
    of them that [get_all_reducing_reactions] returns. *)
Theorem filter_reducing_reactions_agrees g (ns : list Node) :
  derived g → (∀ n, n ∈ ns → n ∈ dom (nodes g)) →
  filter_reducing_reactions g ns
  = (λ all : gset Node, all ∩ list_to_set ns)
      <$> get_all_reducing_reactions g.
Proof.
  intros Hinv%derived_built_inv Hns.
  unfold filter_reducing_reactions, get_all_reducing_reactions.
  rewrite (filter_res_Ok _ reduces).
  2:{ intros n Hn. apply reducing_test_present; auto. }
  destruct (get_nodes_Ok g reducing_cond reduces) as (lr & -> & _ & Hlr).
  { intros n d. by apply reducing_cond_inv. }
  cbn [fmap res_fmap]. f_equal. apply set_eq. intros n.
  rewrite elem_of_intersection, !elem_of_list_to_set, list_elem_of_filter, Hlr.
  naive_solver.
Qed.

(** X24: on any graph, [filter_reducing_reactions] raises [KeyError] when
    one of the nodes it is given is not in the graph. *)
Theorem filter_reducing_reactions_key_error g (ns : list Node) n :
  n ∈ ns → n ∉ dom (nodes g) →
  filter_reducing_reactions g ns = Raise KeyError.
Proof.
  intros Hn Habs. unfold filter_reducing_reactions.
  rewrite (filter_res_Raise _ _ KeyError n); [done|done| |].
  - by apply reducing_test_absent.
  - intros n' _. unfold item.
    destruct (get_node_attributes g "node_type" !! n') as [nt|]; [|by right].
    cbn [mbind res_bind]. destruct (py_eq nt (VStr "reaction")); [|by eauto].
    destruct (get_node_attributes g "reaction_type" !! n'); [|by right].
    cbn [mbind res_bind]. by eauto.
Qed.

Lemma size_set_map_inj `{Countable A, Countable B} (f : A → B) `{!Inj (=) (=) f}
    (X : gset A) :
  size (set_map f X : gset B) = size X.
Proof.
  unfold set_map. rewrite size_list_to_set.
  - rewrite length_fmap. done.
  - apply (NoDup_fmap_2 f), NoDup_elements.
Qed.

(** X25: after the submissions [rs], the length of the graph is the number
    of distinct reactions submitted plus the number of distinct expressions
    among their reactives and products. *)
Theorem graph_len_built (rs : list Reaction) :
  graph_len (built rs)
  = size (list_to_set rs : gset Reaction)
    + size (⋃ ((λ r, list_to_set (reactives r ++ products r)) <$> rs)
            : gset Expr).
Proof.
  unfold graph_len. rewrite <- size_dom.
  assert (dom (nodes (built rs))
          = (set_map inr (list_to_set rs : gset Reaction) : gset Node)
            ∪ set_map inl
                (⋃ ((λ r, list_to_set (reactives r ++ products r)) <$> rs)
                 : gset Expr)) as ->.
  { apply set_eq. intros n.
    rewrite elem_of_dom, elem_of_union, !elem_of_map. split.
    - intros [d Hd]. destruct n as [x|r].
      + right. exists x. split; [done|].
        rewrite built_expression_lookup in Hd.
        destruct (decide _) as [Hex|]; [|done].
        apply list.Exists_exists in Hex as (r & Hr & Hx).
        apply elem_of_union_list. eexists. split.
        * apply list_elem_of_fmap. by exists r.
        * by apply elem_of_list_to_set.
      + left. exists r. split; [done|]. apply elem_of_list_to_set.
        apply submissions_pos. rewrite built_reaction_lookup in Hd.
        destruct (decide _); [done|lia].
    - intros [(r & -> & Hr%elem_of_list_to_set)|(x & -> & Hx)].
      + rewrite built_reaction_lookup. apply submissions_pos in Hr.
        rewrite decide_False by lia. by eexists.
      + rewrite built_expression_lookup.
        apply elem_of_union_list in Hx as (X & HX & Hx).
        apply list_elem_of_fmap in HX as (r & -> & Hr).
        apply elem_of_list_to_set in Hx.
        rewrite decide_True; [by eexists|].
        apply list.Exists_exists. by exists r. }
  rewrite size_union.
  - rewrite (size_set_map_inj inr), (size_set_map_inj inl). done.
  - intros n. rewrite !elem_of_map. intros (r & -> & _) (x & [=] & _).
Qed.

End query_facts.

Section query_witnesses.
Import Sample.

Lemma filter_reducing_reactions_agrees_witness :
  filter_reducing_reactions (built [r1; r2]) [inr r1; inl "A"]
  = (λ all : gset (Node string Reaction),
       all ∩ list_to_set [inr r1; inl "A"])
      <$> get_all_reducing_reactions (built [r1; r2]).
Proof.
  apply (filter_reducing_reactions_agrees (built [r1; r2])
           [inr r1; inl "A"]).
  - derived_by_calls.
  - intros n Hn.
    repeat (apply elem_of_cons in Hn as [->|Hn]; [by compute_done|]).
    by apply elem_of_nil in Hn.
Defined.

Lemma filter_reducing_reactions_key_error_witness :
  filter_reducing_reactions (built [r1]) [inr r1; inr r2] = Raise KeyError.
Proof.
  apply (filter_reducing_reactions_key_error (built [r1])
           [inr r1; inr r2] (inr r2)).
  - by compute_done.
  - by compute_done.
Defined.

End query_witnesses.

(** ** The cycle level and acyclic graphs *)

Section cycle_more.
Context `{ReactionModel Expr Reaction} `{!ExpressionModel Expr}.
Local Abbreviation Node := (Node Expr Reaction).
Local Abbreviation DiGraph := (DiGraph Expr Reaction).
Implicit Types (g : DiGraph) (n m : Node) (paths : gmap Node nat)
  (level : gset Node).

(** With no node left in the level, every node a walk reaches is in the
    table. *)
Lemma bfs_final_reach g n paths k :
  bfs_inv g n paths ∅ k →
  ∀ j m, walk g n m j → ∃ d, d ≤ j ∧ paths !! m = Some (S d).
Proof.
  intros [Hsound Hcomplete Hlevel].
  induction j as [|j IH]; intros m Hw; [by apply Hcomplete; [|lia]|].
  destruct (decide (S j ≤ k)) as [?|Hjk]; [by apply Hcomplete|].
  apply walk_inv_S in Hw as (m0 & Hw0 & He).
  destruct (IH m0 Hw0) as (d0 & Hd0 & Hp0).
  destruct (Hsound _ _ Hp0) as (d0' & [= <-] & Hw0' & Hk).
  assert (d0 ≠ k) as Hne.
  { intros ->. apply Hlevel in Hp0. set_solver. }
  destruct (Hcomplete m (S d0)) as (d & Hd & Hp); [by econstructor|lia|].
  exists d. split; [lia|done].
Qed.

Lemma bfs_levels_reach fuel g n paths level k :
  edges_closed g → n ∈ dom (nodes g) →
  bfs_inv g n paths level k →
  size (dom (nodes g)) < fuel + size (dom paths) →
  ∀ j m, walk g n m j →
    is_Some (bfs_levels fuel g paths level (S k) !! m).
Proof.
  intros Hcl Hn. revert paths level k.
  induction fuel as [|fuel IH]; intros paths level k Hinv Hfuel j m Hw.
  - assert (dom paths ⊆ dom (nodes g)) as Hsub.
    { intros m' [x Hx]%elem_of_dom.
      apply (bfs_sound _ _ _ _ _ Hinv) in Hx as (d & _ & Hw' & _).
      by eapply walk_in_nodes. }
    apply subseteq_size in Hsub. lia.
  - cbn [bfs_levels]. case_decide as Hlev.
    + subst level.
      destruct (bfs_final_reach g n paths k Hinv j m Hw) as (d & _ & ->).
      by eexists.
    + destruct (bfs_inv_step g n paths level k Hinv) as (Hinv' & Hdom & Hdisj).
      set (found := filter (λ w, paths !! w = None)
                      (⋃ (successors g <$> elements level))) in *.
      destruct (decide (found = ∅)) as [Hemp|Hne].
      * rewrite Hemp in Hinv' |- *. rewrite bfs_levels_empty.
        destruct (bfs_final_reach g n _ _ Hinv' j m Hw) as (d & _ & ->).
        by eexists.
      * eapply IH; [done| |done]. rewrite Hdom, size_union by done.
        assert (size found ≠ 0); [|lia].
        apply size_non_empty_iff. by intros ?%leibniz_equiv.
Qed.

(** A node that a walk reaches has a shortest-path length. *)
Lemma walk_dist g n m j :
  edges_closed g → n ∈ dom (nodes g) → walk g n m j → ∃ d, dist g n m d.
Proof.
  intros Hcl Hn Hw.
  destruct (bfs_levels_reach (S (size (nodes g))) g n {[ n := 1 ]} {[ n ]} 0
              Hcl Hn (bfs_inv_start g n)) with (j := j) (m := m)
    as [x Hx]; [|done|].
  { rewrite dom_singleton_L, size_singleton, size_dom. lia. }
  apply (shortest_path_lens_spec g n Hcl Hn) in Hx as (d & _ & Hd).
  by exists d.
Qed.

(** X26: the level is 0 exactly on acyclic graphs: on a graph whose edges
    join nodes of the graph, [get_maximal_cycle_length] returns 0 if and
    only if no walk of one or more edges leads from a node back to
    itself. *)
Theorem get_maximal_cycle_length_acyclic g :
  edges_closed g →
  get_maximal_cycle_length g = 0 ↔ ∀ n k, walk g n n k → k = 0.
Proof.
  intros Hcl. split.
  - intros Hzero n [|k] Hw; [done|]. exfalso.
    apply walk_inv_S in Hw as (m & Hw & He).
    assert (n ∈ dom (nodes g)) as Hn by (by destruct (Hcl m n He)).
    destruct (walk_dist g n m k Hcl Hn Hw) as [d Hd].
    assert (cycle_via g n m (d + 1)) as Hcyc by (split; [done|]; eauto).
    destruct (node_cycle_length g n) as [c|] eqn:Hc.
    + pose proof Hc as Hmin.
      apply (node_cycle_length_Some g n c Hcl Hn) in Hmin.
      destruct Hmin as [(n0 & _ & d0 & _ & ->) _].
      assert (d0 + 1 ∈ cycle_lengths g) as Hin.
      { apply elem_of_cycle_lengths; [done|]. exists n. split; [done|].
        by apply node_cycle_length_Some. }
      rewrite get_maximal_cycle_length_cons in Hzero.
      * apply max_list_elem_of_le in Hin.
        assert (2 ≤ max_list (cycle_lengths g) + 1) as Hle by lia.
        apply (Nat.Div0.div_le_mono _ _ 2) in Hle.
        change (2 / 2) with 1 in Hle. lia.
      * intros Hnil. rewrite Hnil in Hin. by apply elem_of_nil in Hin.
    + pose proof (proj1 (node_cycle_length_None g n Hcl Hn) Hc) as Hno.
      by eapply Hno.
  - intros Hacyc. apply get_maximal_cycle_length_nil.
    destruct (cycle_lengths g) as [|c l] eqn:Hl; [done|]. exfalso.
    assert (c ∈ cycle_lengths g) as Hin by (rewrite Hl; left).
    apply elem_of_cycle_lengths in Hin as (n & Hn & [(n0 & He & d & Hd & ->) _]);
      [|done].
    destruct Hd as [Hw _].
    pose proof (Hacyc n (S d) (walk_step g n n0 n d Hw He)). done.
Qed.

End cycle_more.

Section cycle_more_witnesses.
Import Sample.

Lemma get_maximal_cycle_length_acyclic_witness :
  get_maximal_cycle_length (built [r_decay]) = 0 ↔
  ∀ n k, walk (built [r_decay]) n n k → k = 0.
Proof.
  apply (get_maximal_cycle_length_acyclic (built [r_decay])).
  by compute_done.
Defined.

End cycle_more_witnesses.

(** ** The pool feeder: periods, failures and order *)

Section pool_more.
Context `{ExpressionModel Expr}.
Implicit Types (pool kept added : list Expr) (a f : Expr).

Lemma on_step_computed_run (self : PoolFeeder Expr) (ticks : Z) pool :
  on_step_computed self ticks pool =
  if bool_decide (0 < ticks)%Z then
    if decide (period self = 0%Z) then (pool, Raise ZeroDivisionError)
    else if bool_decide (ticks `mod` period self = 0)%Z
         then for_each (food self) feed_molecule pool
         else (pool, Ok tt)
  else (pool, Ok tt).
Proof.
  unfold on_step_computed, py_mod. case_bool_decide; [|done].
  unfold mbind at 1. unfold M_bind, m_bind, m_lift. case_decide; [done|].
  by case_bool_decide.
Qed.

Lemma list_remove_None a pool : list_remove a pool = None ↔ a ∉ pool.
Proof.
  induction pool as [|x pool IH]; cbn.
  - split; [intros _; apply not_elem_of_nil|done].
  - rewrite not_elem_of_cons. case_decide as Hx.
    + subst x. split; [done|]. by intros [[] _].
    + destruct (list_remove a pool); cbn.
      * split; [done|]. intros [_ Hn]. by apply IH in Hn.
      * split; [|done]. intros _. split; [done|]. by apply IH.
Qed.

Lemma list_remove_sublist a pool pool' :
  list_remove a pool = Some pool' → sublist pool' pool.
Proof.
  revert pool'. induction pool as [|x pool IH]; intros pool'; [done|].
  cbn. case_decide.
  - intros [= <-]. by apply sublist_cons.
  - destruct (list_remove a pool) as [rest|]; [|done]. intros [= <-].
    apply sublist_skip. by apply IH.
Qed.

(** What [pool.remove] leaves of a pool in two parts. *)
Lemma list_remove_app a kept added pool' :
  list_remove a (kept ++ added) = Some pool' →
  ∃ kept' added', pool' = kept' ++ added' ∧
    sublist kept' kept ∧ sublist added' added.
Proof.
  revert pool'. induction kept as [|x kept IH]; intros pool' Hr.
  - exists [], pool'. split; [done|]. split; [done|].
    by eapply list_remove_sublist.
  - cbn in Hr. case_decide.
    + injection Hr as <-. exists kept, added. split; [done|].
      split; [by apply sublist_cons|done].
    + destruct (list_remove a (kept ++ added)) as [rest|]; [|done].
      injection Hr as <-. destruct (IH rest eq_refl) as (k' & a' & -> & ? & ?).
      exists (x :: k'), a'. split; [done|]. split; [by apply sublist_skip|done].
Qed.

Lemma remove_atoms_order (l : list Expr) kept added pool' out :
  for_each l pool_remove (kept ++ added) = (pool', out) →
  ∃ kept' added', pool' = kept' ++ added' ∧
    sublist kept' kept ∧ sublist added' added.
Proof.
  revert kept added. induction l as [|a l IH]; intros kept added Hr.
  - cbn in Hr. injection Hr as <- _. by exists kept, added.
  - cbn in Hr. unfold mbind, M_bind, m_bind, pool_remove in Hr.
    destruct (list_remove a (kept ++ added)) as [rest|] eqn:Ha.
    + apply list_remove_app in Ha as (k1 & a1 & -> & Hk1 & Ha1).
      apply IH in Hr as (k2 & a2 & -> & Hk2 & Ha2).
      exists k2, a2. split; [done|]. split; by etrans.
    + injection Hr as <- _. by exists kept, added.
Qed.

Lemma feed_all_order (fs done_fs : list Expr) kept added pool' out :
  for_each fs feed_molecule (kept ++ added) = (pool', out) →
  sublist added done_fs →
  ∃ kept' added', pool' = kept' ++ added' ∧
    sublist kept' kept ∧ sublist added' (done_fs ++ fs).
Proof.
  revert done_fs kept added.
  induction fs as [|f fs IH]; intros done_fs kept added Hr Hadd.
  - cbn in Hr. injection Hr as <- _. exists kept, added.
    rewrite app_nil_r. done.
  - cbn [for_each] in Hr. unfold mbind at 1, M_bind, m_bind in Hr.
    unfold feed_molecule at 1, mbind at 1, M_bind, m_bind in Hr.
    destruct (for_each (atoms f) pool_remove (kept ++ added))
      as [mid out1] eqn:Hrem.
    apply remove_atoms_order in Hrem as (k1 & a1 & -> & Hk1 & Ha1).
    destruct out1 as [[]|e|].
    + unfold pool_append, m_write in Hr. rewrite <- (assoc_L (++)) in Hr.
      apply (IH (done_fs ++ [f])) in Hr as (k2 & a2 & -> & Hk2 & Ha2).
      * exists k2, a2. split; [done|]. split; [by etrans|].
        by rewrite <- (assoc_L (++)) in Ha2.
      * apply sublist_app; [by etrans|done].
    + injection Hr as <- _. exists k1, a1. split; [done|]. split; [done|].
      apply sublist_inserts_r. by etrans.
    + injection Hr as <- _. exists k1, a1. split; [done|]. split; [done|].
      apply sublist_inserts_r. by etrans.
Qed.

Lemma remove_atoms_enough (l : list Expr) pool :
  l ⊆+ pool → ∃ pool', for_each l pool_remove pool = (pool', Ok tt).
Proof.
  revert pool. induction l as [|a l IH]; intros pool Hsub.
  - by exists pool.
  - cbn. unfold mbind, M_bind, m_bind, pool_remove.
    destruct (list_remove a pool) as [rest|] eqn:Ha.
    + apply IH. apply list_remove_Some in Ha. rewrite Ha in Hsub.
      by apply (submseteq_app_inv_l _ _ [a]) in Hsub.
    + apply list_remove_None in Ha. exfalso. apply Ha.
      eapply elem_of_submseteq; [|done]. left.
Qed.

Lemma feed_all_enough (fs : list Expr) pool :
  (fs ≫= atoms) ⊆+ pool →
  ∃ pool', for_each fs feed_molecule pool = (pool', Ok tt).
Proof.
  revert pool. induction fs as [|f fs IH]; intros pool Hsub.
  - by exists pool.
  - rewrite bind_cons in Hsub. cbn [for_each].
    unfold mbind at 1, M_bind, m_bind.
    unfold feed_molecule at 1, mbind at 1, M_bind, m_bind.
    destruct (remove_atoms_enough (atoms f) pool) as [rest Hrest].
    { etrans; [|done]. by apply submseteq_inserts_r. }
    rewrite Hrest. unfold pool_append, m_write. apply IH.
    apply remove_atoms_Ok in Hrest. rewrite Hrest in Hsub.
    apply submseteq_app_inv_l in Hsub. by apply submseteq_inserts_r.
Qed.

Lemma remove_atoms_failure (l : list Expr) pool pool' out :
  for_each l pool_remove pool = (pool', out) → out ≠ Ok tt →
  out = Raise ValueError ∧
  ∃ removed a, (removed ++ [a]) `prefix_of` l ∧ (a ∉ pool') ∧
               pool ≡ₚ removed ++ pool'.
Proof.
  revert pool. induction l as [|a l IH]; intros pool Hr Hout.
  - cbn in Hr. by injection Hr as _ <-.
  - cbn in Hr. unfold mbind, M_bind, m_bind, pool_remove in Hr.
    destruct (list_remove a pool) as [rest|] eqn:Ha.
    + destruct (IH rest Hr Hout) as (-> & removed & b & Hpre & Hb & Hperm).
      split; [done|]. exists (a :: removed), b. split; [|split; [done|]].
      * cbn. by apply prefix_cons.
      * apply list_remove_Some in Ha. rewrite Ha. cbn. by f_equiv.
    + injection Hr as <- <-. split; [done|]. exists [], a.
      split; [|split; [|done]].
      * cbn. apply prefix_cons, prefix_nil.
      * by apply list_remove_None.
Qed.

Lemma feed_all_failure (fs : list Expr) pool pool' out :
  for_each fs feed_molecule pool = (pool', out) → out ≠ Ok tt →
  out = Raise ValueError ∧
  ∃ fed f rest removed a,
    fs = fed ++ f :: rest ∧ (removed ++ [a]) `prefix_of` atoms f ∧
    (a ∉ pool') ∧ pool' ++ (fed ≫= atoms) ++ removed ≡ₚ pool ++ fed.
Proof.
  revert pool. induction fs as [|f fs IH]; intros pool Hr Hout.
  - cbn in Hr. by injection Hr as _ <-.
  - cbn [for_each] in Hr. unfold mbind at 1, M_bind, m_bind in Hr.
    destruct (feed_molecule f pool) as [mid out1] eqn:Hf.
    destruct (decide (out1 = Ok tt)) as [->|Hne].
    + destruct (IH mid Hr Hout)
        as (-> & fed & f' & rest & removed & a & -> & Hpre & Ha & Hperm).
      split; [done|]. exists (f :: fed), f', rest, removed, a.
      split; [done|]. split; [done|]. split; [done|].
      apply feed_molecule_Ok in Hf. rewrite bind_cons.
      trans (atoms f ++ (pool' ++ (fed ≫= atoms) ++ removed)).
      { rewrite <- (assoc_L (++) (atoms f)).
        rewrite (assoc_L (++) pool' (atoms f)).
        rewrite (Permutation_app_comm pool' (atoms f)).
        by rewrite <- (assoc_L (++) (atoms f) pool'). }
      rewrite Hperm, (assoc_L (++) (atoms f) mid).
      rewrite (Permutation_app_comm (atoms f) mid), Hf.
      by rewrite <- (assoc_L (++) pool).
    + unfold feed_molecule, mbind, M_bind, m_bind in Hf.
      destruct (for_each (atoms f) pool_remove pool) as [mid1 out2] eqn:Hrem.
      assert (mid = mid1 ∧ out1 = out2 ∧ out2 ≠ Ok tt) as (-> & -> & Hne2).
      { destruct out2 as [[]|e|].
        - unfold pool_append, m_write in Hf. by injection Hf as _ <-.
        - by injection Hf as <- <-.
        - by injection Hf as <- <-. }
      assert (pool' = mid1 ∧ out = out2) as [-> ->].
      { destruct out2 as [[]|e|]; [done|by injection Hr|by injection Hr]. }
      destruct (remove_atoms_failure _ _ _ _ Hrem Hne2)
        as (-> & removed & a & Hpre & Ha & Hperm).
      split; [done|]. exists [], f, fs, removed, a.
      split; [done|]. split; [done|]. split; [done|].
      cbn. rewrite app_nil_r, Hperm. apply Permutation_app_comm.
Qed.

(** X27: [on_step_computed] for every period. With [ticks] at most 0 the
    pool stays as it is, whatever the period. With positive [ticks], a
    period of 0 raises [ZeroDivisionError] and leaves the pool as it is; a
    period other than 0, negative ones included, feeds the pool exactly
    when it divides [ticks]. *)
Theorem on_step_computed_any_period (self : PoolFeeder Expr) (ticks : Z)
    pool :
  ((ticks ≤ 0)%Z → on_step_computed self ticks pool = (pool, Ok tt)) ∧
  ((0 < ticks)%Z → period self = 0%Z →
     on_step_computed self ticks pool = (pool, Raise ZeroDivisionError)) ∧
  ((0 < ticks)%Z → period self ≠ 0%Z → (period self | ticks)%Z →
     on_step_computed self ticks pool
     = for_each (food self) feed_molecule pool) ∧
  ((0 < ticks)%Z → period self ≠ 0%Z → ¬ (period self | ticks)%Z →
     on_step_computed self ticks pool = (pool, Ok tt)).
Proof.
  rewrite on_step_computed_run. split_and!.
  - intros ?. by rewrite bool_decide_eq_false_2 by lia.
  - intros ? ->. by rewrite bool_decide_eq_true_2 by done.
  - intros ? Hp Hdiv. rewrite bool_decide_eq_true_2 by done.
    rewrite decide_False by done.
    by rewrite bool_decide_eq_true_2 by (by apply Z.mod_divide).
  - intros ? Hp Hdiv. rewrite bool_decide_eq_true_2 by done.
    rewrite decide_False by done.
    by rewrite bool_decide_eq_false_2 by (by rewrite Z.mod_divide).
Qed.

(** X28: a step returns without raising when the pool holds the atoms of
    all the food molecules together, each as many times as it is needed;
    the period is then not 0 or [ticks] is at most 0. *)
Theorem on_step_computed_enough_atoms (self : PoolFeeder Expr) (ticks : Z)
    pool :
  (period self ≠ 0%Z ∨ (ticks ≤ 0)%Z) →
  (food self ≫= atoms) ⊆+ pool →
  ∃ pool', on_step_computed self ticks pool = (pool', Ok tt).
Proof.
  intros Hp Hsub. rewrite on_step_computed_run.
  case_bool_decide; [|by eexists]. case_decide; [lia|].
  case_bool_decide; [|by eexists]. by apply feed_all_enough.
Qed.

(** X29: a step that raises does not restore the pool. It raises
    [ZeroDivisionError], with the pool untouched, or [ValueError]; in the
    second case some food molecules [fed] have been fed, some atoms
    [removed] of the next molecule [f] have left the pool, the atom [a]
    that follows them is not in the pool, and the pool is left in that
    state. *)
Theorem on_step_computed_failure (self : PoolFeeder Expr) (ticks : Z)
    pool pool' out :
  on_step_computed self ticks pool = (pool', out) → out ≠ Ok tt →
  (out = Raise ZeroDivisionError ∧ period self = 0%Z ∧ pool' = pool) ∨
  (out = Raise ValueError ∧
   ∃ fed f rest removed a,
     food self = fed ++ f :: rest ∧ (removed ++ [a]) `prefix_of` atoms f ∧
     (a ∉ pool') ∧ pool' ++ (fed ≫= atoms) ++ removed ≡ₚ pool ++ fed).
Proof.
  rewrite on_step_computed_run. intros Hr Hout.
  case_bool_decide; [|by injection Hr as _ <-].
  case_decide; [left; by injection Hr as <- <-|].
  case_bool_decide; [|by injection Hr as _ <-].
  right. by eapply feed_all_failure.
Qed.

(** X30: a step never reorders the pool, whether it returns or raises: the
    pool it leaves is made of molecules of the old pool, in their old
    order, followed by food molecules, in the order of the food list. *)
Theorem on_step_computed_order (self : PoolFeeder Expr) (ticks : Z)
    pool pool' out :
  on_step_computed self ticks pool = (pool', out) →
  ∃ kept added, pool' = kept ++ added ∧
    sublist kept pool ∧ sublist added (food self).
Proof.
  rewrite on_step_computed_run. intros Hr.
  assert (∃ kept added, pool = kept ++ added ∧
            sublist kept pool ∧ sublist added (food self)) as Hsame.
  { exists pool, []. rewrite app_nil_r. split; [done|]. split; [done|].
    apply sublist_nil_l. }
  case_bool_decide; [|by injection Hr as <- _].
  case_decide; [by injection Hr as <- _|].
  case_bool_decide; [|by injection Hr as <- _].
  rewrite <- (app_nil_r pool) in Hr.
  apply (feed_all_order _ []) in Hr; [|done].
  by rewrite app_nil_l in Hr.
Qed.

End pool_more.

Section pool_more_witnesses.
Import Sample.

Lemma on_step_computed_any_period_witness :
  on_step_computed (mkPoolFeeder ["AB"] 0) 4 ["A"; "C"; "B"]
    = (["A"; "C"; "B"], Raise ZeroDivisionError) ∧
  on_step_computed (mkPoolFeeder ["AB"] (-2)) 4 ["A"; "C"; "B"]
    = (["C"; "AB"], Ok tt).
Proof.
  split.
  - apply (on_step_computed_any_period (mkPoolFeeder ["AB"] 0) 4
             ["A"; "C"; "B"]); [lia|reflexivity].
  - destruct (on_step_computed_any_period (mkPoolFeeder ["AB"] (-2)) 4
                ["A"; "C"; "B"]) as (_ & _ & Hfire & _).
    rewrite Hfire; [reflexivity|lia|cbn; lia|by exists (-2)%Z].
Defined.

Lemma on_step_computed_enough_atoms_witness :
  ∃ pool', on_step_computed (mkPoolFeeder ["AB"; "AC"] 2) 4
             ["A"; "C"; "B"; "A"] = (pool', Ok tt).
Proof.
  apply (on_step_computed_enough_atoms (mkPoolFeeder ["AB"; "AC"] 2) 4
           ["A"; "C"; "B"; "A"]).
  - left. cbn. lia.
  - by compute_done.
Defined.

Lemma on_step_computed_failure_witness :
  ((Raise ValueError : res unit) = Raise ZeroDivisionError ∧
   period (mkPoolFeeder ["AB"; "AC"] 2) = 0%Z ∧ ["C"; "AB"] = ["A"; "C"; "B"])
  ∨
  ((Raise ValueError : res unit) = Raise ValueError ∧
   ∃ fed f rest removed a,
     food (mkPoolFeeder ["AB"; "AC"] 2) = fed ++ f :: rest ∧
     (removed ++ [a]) `prefix_of` atoms f ∧
     (a ∉ ["C"; "AB"]) ∧
     ["C"; "AB"] ++ (fed ≫= atoms) ++ removed ≡ₚ ["A"; "C"; "B"] ++ fed).
Proof.
  apply (on_step_computed_failure (mkPoolFeeder ["AB"; "AC"] 2) 4
           ["A"; "C"; "B"] ["C"; "AB"] (Raise ValueError)).
  - reflexivity.
  - discriminate.
Defined.

Lemma on_step_computed_order_witness :
  ∃ kept added, ["C"; "AB"] = kept ++ added ∧
    sublist kept ["A"; "C"; "B"] ∧
    sublist added (food (mkPoolFeeder ["AB"] 2)).
Proof.
  apply (on_step_computed_order (mkPoolFeeder ["AB"] 2) 4
           ["A"; "C"; "B"] ["C"; "AB"] (Ok tt)).
  reflexivity.
Defined.

End pool_more_witnesses.
